(** * pagetext-to-flashcards: the Text Extractor and the Pair Extractor

    A shallow embedding of [scrapePage] (scrape_page.js) and of
    [formatResponse] (generate_flashcard_text.js), with the properties the
    specification states about them.

    JavaScript strings are sequences of UTF-16 code units, modelled as
    [list N].  Regular expressions are given the backtracking semantics of
    ECMA-262 (section 22.2.2, "Pattern Semantics"): a matcher takes a match
    state and a continuation. *)

From Stdlib Require Import String Ascii Bool NArith Arith Lia List.
Import ListNotations.

(** ** JavaScript strings *)

Abbreviation jsstring := (list N) (only parsing).

(** The code units of an ASCII literal. *)
Definition js (s : string) : jsstring :=
  map N_of_ascii (list_ascii_of_string s).

Definition jsstring_eqb (a b : jsstring) : bool :=
  if list_eq_dec N.eq_dec a b then true else false.

(** A string is truthy when it is not empty. *)
Definition truthy (s : jsstring) : bool :=
  match s with [] => false | _ => true end.

(** ECMA-262 LineTerminator: LF, CR, LS, PS. *)
Definition is_line_terminator (c : N) : bool :=
  ((c =? 10) || (c =? 13) || (c =? 8232) || (c =? 8233))%N.

(** ECMA-262 WhiteSpace together with LineTerminator: what [\s] matches and
    what [String.prototype.trim] strips. *)
Definition is_space (c : N) : bool :=
  ((c =? 9) || (c =? 11) || (c =? 12) || (c =? 32) || (c =? 160)
   || (c =? 5760) || ((8192 <=? c) && (c <=? 8202)) || (c =? 8239)
   || (c =? 8287) || (c =? 12288) || (c =? 65279))%N
  || is_line_terminator c.

Definition is_digit (c : N) : bool := ((48 <=? c) && (c <=? 57))%N.

Fixpoint dropWhile (p : N -> bool) (s : jsstring) : jsstring :=
  match s with
  | c :: s' => if p c then dropWhile p s' else s
  | [] => []
  end.

Fixpoint takeWhile (p : N -> bool) (s : jsstring) : jsstring :=
  match s with
  | c :: s' => if p c then c :: takeWhile p s' else []
  | [] => []
  end.

Definition trimStart (s : jsstring) : jsstring := dropWhile is_space s.
Definition trimEnd (s : jsstring) : jsstring := rev (dropWhile is_space (rev s)).

(** [String.prototype.trim]. *)
Definition trim (s : jsstring) : jsstring := trimEnd (trimStart s).

(** [Array.prototype.join]. *)
Fixpoint join (sep : jsstring) (l : list jsstring) : jsstring :=
  match l with
  | [] => []
  | [a] => a
  | a :: l' => a ++ sep ++ join sep l'
  end.

(** [s.startsWith(p)], with what follows the prefix. *)
Fixpoint strip_prefix (p s : jsstring) : option jsstring :=
  match p, s with
  | [], _ => Some s
  | a :: p', b :: s' => if N.eqb a b then strip_prefix p' s' else None
  | _ :: _, [] => None
  end.

(** [hay.includes(needle)]. *)
Fixpoint includes (needle hay : jsstring) : bool :=
  match strip_prefix needle hay with
  | Some _ => true
  | None =>
      match hay with
      | [] => false
      | _ :: hay' => includes needle hay'
      end
  end.

(** [s.substring(i, j)] for [i <= j]. *)
Definition substring (i j : nat) (s : jsstring) : jsstring :=
  firstn (j - i) (skipn i s).

(** ** Completions of JavaScript calls *)

Inductive error : Type :=
| Error (msg : jsstring)      (* new Error(msg) *)
| TypeError                   (* a property read on undefined *)
| SyntaxError                 (* an invalid selector *)
| ExternalError.              (* an error of the network or of the parser *)

(** How a call ends: with a value, with a thrown error, or not at all
    ([Diverge]: a loop budget of the model ran out). *)
Inductive completion (A : Type) : Type :=
| Normal (a : A)
| Throw (e : error)
| Diverge.

Arguments Normal {A} a.
Arguments Throw {A} e.
Arguments Diverge {A}.

Definition bind {A B : Type} (m : completion A) (k : A -> completion B)
  : completion B :=
  match m with
  | Normal a => k a
  | Throw e => Throw e
  | Diverge => Diverge
  end.

(** How a call into a library ends: it returns or it throws. *)
Inductive outcome (A : Type) : Type :=
| Returns (a : A)
| Throws (e : error).

Arguments Returns {A} a.
Arguments Throws {A} e.

Definition lift {A : Type} (o : outcome A) : completion A :=
  match o with
  | Returns a => Normal a
  | Throws e => Throw e
  end.

Notation "x <- m ;; k" := (bind m (fun x => k))
  (at level 61, m at next level, right associativity).

(** ** Regular expressions *)

Module RegExp.

Inductive charclass : Type :=
| CLit (c : N)              (* a pattern character *)
| CSet (cs : list N)        (* [...] *)
| CDigit                    (* \d *)
| CSpace                    (* \s *)
| CDot.                     (* . *)

Inductive regex : Type :=
| REmpty
| RChar (cl : charclass)
| RSeq (r1 r2 : regex)
| RAlt (r1 r2 : regex)
| RRepeat (r : regex) (min : nat) (max : option nat) (greedy : bool)
| RGroup (i : nat) (r : regex)        (* ( r ), the i-th capturing group *)
| RLookahead (r : regex)              (* (?= r ) *)
| REnd.                               (* $ *)

Record flags : Type := { global : bool; multiline : bool; dotAll : bool }.

Fixpoint seq (rs : list regex) : regex :=
  match rs with
  | [] => REmpty
  | [r] => r
  | r :: rs' => RSeq r (seq rs')
  end.

Definition lit (s : string) : regex := seq (map (fun c => RChar (CLit c)) (js s)).
Definition star (r : regex) : regex := RRepeat r 0 None true.
Definition plus (r : regex) : regex := RRepeat r 1 None true.
Definition plus_lazy (r : regex) : regex := RRepeat r 1 None false.
Definition opt (r : regex) : regex := RRepeat r 0 (Some 1) true.

(** The capturing groups inside a term (its parenIndex/parenCount range). *)
Fixpoint groups (r : regex) : list nat :=
  match r with
  | REmpty | RChar _ | REnd => []
  | RSeq r1 r2 | RAlt r1 r2 => groups r1 ++ groups r2
  | RRepeat r _ _ _ | RLookahead r => groups r
  | RGroup i r => i :: groups r
  end.

(** A quantifier [{min,max}] with [max < min] is a syntax error of the
    pattern. *)
Fixpoint well_formed (r : regex) : bool :=
  match r with
  | REmpty | RChar _ | REnd => true
  | RSeq r1 r2 | RAlt r1 r2 => well_formed r1 && well_formed r2
  | RRepeat r min max _ =>
      match max with Some m => Nat.leb min m | None => true end && well_formed r
  | RGroup _ r | RLookahead r => well_formed r
  end.

(** The least number of characters a match of the term takes. *)
Fixpoint min_width (r : regex) : nat :=
  match r with
  | REmpty | REnd | RLookahead _ => 0
  | RChar _ => 1
  | RSeq r1 r2 => min_width r1 + min_width r2
  | RAlt r1 r2 => Nat.min (min_width r1) (min_width r2)
  | RRepeat r min _ _ => min * min_width r
  | RGroup _ r => min_width r
  end.

(** Whether every match of the term leaves group [i] defined. *)
Fixpoint always_sets (i : nat) (r : regex) : bool :=
  match r with
  | REmpty | REnd | RChar _ | RRepeat _ _ _ _ => false
  | RSeq r1 r2 =>
      always_sets i r2
      || (always_sets i r1 && negb (existsb (Nat.eqb i) (groups r2)))
  | RAlt r1 r2 => always_sets i r1 && always_sets i r2
  | RGroup j r => Nat.eqb i j || always_sets i r
  | RLookahead r => always_sets i r
  end.

Definition class_matches (f : flags) (cl : charclass) (c : N) : bool :=
  match cl with
  | CLit a => N.eqb a c
  | CSet cs => existsb (N.eqb c) cs
  | CDigit => is_digit c
  | CSpace => is_space c
  | CDot => if dotAll f then true else negb (is_line_terminator c)
  end.

(** A match state.  ECMA-262 keeps the end index into the input; here the
    state keeps [rest], the input from the end index on, and each capture
    holds the captured substring.  The two agree for patterns without
    backreferences, lookbehind, [^] or [\b], which need the text before the
    end index. *)
Record MatchState : Type :=
  { rest : jsstring; captures : nat -> option jsstring }.

(** A match result; [stalled] marks an exhausted iteration budget, which
    [compile_result] below shows is never reached. *)
Inductive MatchResult : Type :=
| failure
| success (y : MatchState)
| stalled.

Definition Continuation := MatchState -> MatchResult.
Definition Matcher := MatchState -> Continuation -> MatchResult.

Definition no_captures : nat -> option jsstring := fun _ => None.

Definition set_capture (i : nat) (v : option jsstring)
  (cap : nat -> option jsstring) : nat -> option jsstring :=
  fun j => if Nat.eqb j i then v else cap j.

Definition clear_captures (gs : list nat) (cap : nat -> option jsstring)
  : nat -> option jsstring :=
  fold_right (fun i acc => set_capture i None acc) cap gs.

(** The input between the end indices of [x] and of a later state [y]. *)
Definition taken (x y : MatchState) : jsstring :=
  firstn (length (rest x) - length (rest y)) (rest x).

(** The state an iteration of a quantified term starts from: the captures
    of the groups inside the term are reset. *)
Definition reset_inner (inner : list nat) (x : MatchState) : MatchState :=
  {| rest := rest x; captures := clear_captures inner (captures x) |}.

Section Matching.

Variable f : flags.

(** RepeatMatcher of ECMA-262.  [budget] bounds the number of iterations;
    an iteration either lowers [min] or moves the end index forward. *)
Fixpoint RepeatMatcher (budget : nat) (m : Matcher) (inner : list nat)
  (min : nat) (max : option nat) (greedy : bool)
  (x : MatchState) (c : Continuation) : MatchResult :=
  match max with
  | Some 0 => c x
  | _ =>
    match budget with
    | 0 => stalled
    | S budget' =>
      let d : Continuation := fun y =>
        if Nat.eqb min 0 && Nat.eqb (length (rest y)) (length (rest x))
        then failure
        else RepeatMatcher budget' m inner (Nat.pred min)
               (option_map Nat.pred max) greedy y c in
      let xr := reset_inner inner x in
      if negb (Nat.eqb min 0) then m xr d
      else if negb greedy then
        match c x with
        | failure => m xr d
        | z => z
        end
      else
        match m xr d with
        | failure => c x
        | z => z
        end
    end
  end.

(** The assertion [$] at the end index whose remaining input is [s]. *)
Definition at_end (s : jsstring) : bool :=
  match s with
  | [] => true
  | c :: _ => multiline f && is_line_terminator c
  end.

Fixpoint compile (r : regex) : Matcher :=
  match r with
  | REmpty => fun x c => c x
  | RChar cl => fun x c =>
      match rest x with
      | ch :: s =>
          if class_matches f cl ch
          then c {| rest := s; captures := captures x |}
          else failure
      | [] => failure
      end
  | RSeq r1 r2 => fun x c => compile r1 x (fun y => compile r2 y c)
  | RAlt r1 r2 => fun x c =>
      match compile r1 x c with
      | failure => compile r2 x c
      | z => z
      end
  | RRepeat r' min max greedy => fun x c =>
      RepeatMatcher (S (min + length (rest x)))
        (compile r') (groups r') min max greedy x c
  | RGroup i r' => fun x c =>
      compile r' x (fun y =>
        c {| rest := rest y;
             captures := set_capture i (Some (taken x y)) (captures y) |})
  | RLookahead r' => fun x c =>
      match compile r' x success with
      | failure => failure
      | success y => c {| rest := rest x; captures := captures y |}
      | stalled => stalled
      end
  | REnd => fun x c => if at_end (rest x) then c x else failure
  end.

(** The pattern matcher at the index whose remaining input is [s]. *)
Definition match_at (r : regex) (s : jsstring) : MatchResult :=
  compile r {| rest := s; captures := no_captures |} success.

(** *** What a match is, without the search order

    [Spans r x y]: the term [r] can take the state [x] to the state [y].
    This is the relation the backtracking matcher searches, in the priority
    order of ECMA-262. *)

Fixpoint iterate (n : nat) (step : MatchState -> MatchState -> Prop)
  (x y : MatchState) : Prop :=
  match n with
  | 0 => y = x
  | S n' => exists z, step x z /\ iterate n' step z y
  end.

Definition within (n min : nat) (max : option nat) : Prop :=
  min <= n /\ match max with Some m => n <= m | None => True end.

Fixpoint Spans (r : regex) (x y : MatchState) : Prop :=
  match r with
  | REmpty => y = x
  | RChar cl =>
      exists ch s, rest x = ch :: s /\ class_matches f cl ch = true
                   /\ y = {| rest := s; captures := captures x |}
  | RSeq r1 r2 => exists z, Spans r1 x z /\ Spans r2 z y
  | RAlt r1 r2 => Spans r1 x y \/ Spans r2 x y
  | RRepeat r' min max _ =>
      exists n, within n min max
                /\ iterate n (fun a b => Spans r' (reset_inner (groups r') a) b) x y
  | RGroup i r' =>
      exists z, Spans r' x z
                /\ y = {| rest := rest z;
                          captures := set_capture i (Some (taken x z)) (captures z) |}
  | RLookahead r' =>
      exists z, Spans r' x z /\ y = {| rest := rest x; captures := captures z |}
  | REnd => y = x /\ at_end (rest x) = true
  end.

(** What a scan for a match finds: nothing, or a match [y] that starts
    where the remaining input is [from]. *)
Inductive scan_result : Type :=
| NoMatch
| Found (from : jsstring) (y : MatchState)
| ScanStalled.

(** The scan of RegExpBuiltinExec for a non-sticky pattern: try the index,
    then the next one, ... up to the end of the input. *)
Fixpoint scan (r : regex) (s : jsstring) : scan_result :=
  match match_at r s with
  | success y => Found s y
  | stalled => ScanStalled
  | failure =>
      match s with
      | [] => NoMatch
      | _ :: s' => scan r s'
      end
  end.

End Matching.

(** What a matcher may answer: a failure, or the answer of its continuation
    at a state the term reaches. *)
Definition answers (m : Matcher) (M : MatchState -> MatchState -> Prop) : Prop :=
  forall x c, m x c = failure \/ exists y, M x y /\ m x c = c y.

(** The matcher of one character of the class [cl]. *)
Definition char_matcher (f : flags) (cl : charclass) : Matcher :=
  compile f (RChar cl).

(** A RegExp object: the pattern, its flags and the mutable [lastIndex]. *)
Record t : Type := { pattern : regex; flag : flags; lastIndex : nat }.

Definition set_lastIndex (R : t) (i : nat) : t :=
  {| pattern := pattern R; flag := flag R; lastIndex := i |}.

(** What [exec] returns: null, or a match array with its [index] and the
    state of the match. *)
Inductive exec_result : Type :=
| Null
| MatchArray (index : nat) (y : MatchState)
| Stalled.

(** [R.exec(S)] (RegExpBuiltinExec for a pattern that is not sticky): the
    result and the RegExp object afterwards.  Only a global pattern reads
    and writes [lastIndex]. *)
Definition exec (R : t) (S : jsstring) : exec_result * t :=
  let start := if global (flag R) then lastIndex R else 0 in
  let missed := if global (flag R) then set_lastIndex R 0 else R in
  if length S <? start then (Null, missed)
  else
    match scan (flag R) (pattern R) (skipn start S) with
    | NoMatch => (Null, missed)
    | Found from y =>
        (MatchArray (length S - length from) y,
         if global (flag R) then set_lastIndex R (length S - length (rest y))
         else R)
    | ScanStalled => (Stalled, R)
    end.

(** [match[i]] for a capture group [i]. *)
Definition group (y : MatchState) (i : nat) : option jsstring := captures y i.

(** [S.replace(R, replacement)] for a global [R] and a replacement string
    without [$] patterns: every match is replaced, and after an empty match
    the scan moves one index on.  [pos] is the next source position and
    [acc] the accumulated result. *)
Fixpoint replace_loop (budget : nat) (R : t) (S replacement : jsstring)
  (pos : nat) (acc : jsstring) : completion jsstring :=
  match budget with
  | 0 => Diverge
  | Datatypes.S budget' =>
      match exec R S with
      | (Null, _) => Normal (acc ++ skipn pos S)
      | (Stalled, _) => Diverge
      | (MatchArray index y, R') =>
          let e := length S - length (rest y) in
          let R'' := if Nat.eqb e index then set_lastIndex R' (Datatypes.S e) else R' in
          if pos <=? index
          then replace_loop budget' R'' S replacement e
                 (acc ++ substring pos index S ++ replacement)
          else replace_loop budget' R'' S replacement pos acc
      end
  end.

Definition replace (R : t) (S replacement : jsstring) : completion jsstring :=
  replace_loop (Datatypes.S (Datatypes.S (length S))) (set_lastIndex R 0) S replacement 0 [].

End RegExp.

(** ** The Pair Extractor: [formatResponse] *)

Module Flashcards.

Import RegExp.

Record card : Type := { front : jsstring; back : jsstring }.

(** The part of a chat completion that [formatResponse] reads:
    [response.choices[0].message.content], a string or null. *)
Record chat_message : Type := { content : option jsstring }.
Record choice : Type := { message : chat_message }.
Record response : Type := { choices : list choice }.

Definition LF : regex := RChar (CLit 10).

(** The pattern of [formatResponse], flags g, m and s; term by term:
      ( ?: \d+ \. \s* ) ?   [\*]* \s*   Q: \s*   ( .+? )   \s* [\*]* \s*
      A: \s*   ( .+? )   ( ?= \n \d+ \.  |  \n Q:  |  \n $ ) *)
Definition regex_source : regex :=
  seq [ opt (seq [plus (RChar CDigit); lit "."; star (RChar CSpace)]);
        star (RChar (CSet [42%N]));
        star (RChar CSpace);
        lit "Q:";
        star (RChar CSpace);
        RGroup 1 (plus_lazy (RChar CDot));
        star (RChar CSpace);
        star (RChar (CSet [42%N]));
        star (RChar CSpace);
        lit "A:";
        star (RChar CSpace);
        RGroup 2 (plus_lazy (RChar CDot));
        RLookahead
          (RAlt (seq [LF; plus (RChar CDigit); lit "."])
             (RAlt (seq [LF; lit "Q:"])
                (seq [LF; REnd]))) ].

Definition regex_flags : flags :=
  {| global := true; multiline := true; dotAll := true |}.

Definition new_regex : RegExp.t :=
  {| pattern := regex_source; flag := regex_flags; lastIndex := 0 |}.

(** The loop [while ((match = regex.exec(content)) !== null) { ... }]. *)
Fixpoint collect (budget : nat) (content : jsstring) (R : RegExp.t)
  (cards : list card) : completion (list card) :=
  match budget with
  | 0 => Diverge
  | S budget' =>
      match exec R content with
      | (Null, _) => Normal cards
      | (Stalled, _) => Diverge
      | (MatchArray _ y, R') =>
          match group y 1, group y 2 with
          | Some m1, Some m2 =>
              collect budget' content R'
                (cards ++ [{| front := trim m1; back := trim m2 |}])
          | _, _ => Throw TypeError
          end
      end
  end.

Definition formatResponse (r : response) : completion (list card) :=
  match choices r with
  | [] => Throw TypeError
  | ch :: _ =>
      match content (message ch) with
      | None => Throw (Error (js "No content in the response"))
      | Some s =>
          if negb (truthy s) then Throw (Error (js "No content in the response"))
          else collect (S (length s)) s new_regex []
      end
  end.

(** The content field of the response, if there is one. *)
Definition content_field (r : response) : option jsstring :=
  match choices r with
  | [] => None
  | ch :: _ => content (message ch)
  end.

(** A response whose first choice carries the text [s]. *)
Definition reply (s : jsstring) : response :=
  {| choices := [ {| message := {| content := Some s |} |} ] |}.

End Flashcards.

(** ** The document tree and the selector engine

    The document is what the HTML parser builds; [querySelectorAll],
    [closest] and [textContent] follow the DOM standard.  The selector
    parser covers the selectors [scrapePage] assembles from plain names:
    lists of type selectors, [*] and attribute selectors [[name*='value']].
    Selector syntax beyond that (combinators, pseudo-classes, escapes, ...)
    is outside this model and is rejected like a syntax error. *)

Module DOM.

#[warnings="-register-all"]
Inductive node : Type :=
| Element (localName : jsstring) (attributes : list (jsstring * jsstring))
    (childNodes : list node)
| Text (data : jsstring)
| Comment (data : jsstring).

(** The children of the Document node. *)
Definition document := list node.

(** The text an element's [textContent] gets from a node below it: the data
    of all Text descendants, in tree order. *)
Fixpoint textContent (n : node) : jsstring :=
  match n with
  | Element _ _ kids => flat_map textContent kids
  | Text d => d
  | Comment _ => []
  end.

(** An element together with its ancestor elements, nearest first. *)
Record element : Type := { self : node; ancestors : list node }.

Fixpoint elements_under (anc : list node) (n : node) : list element :=
  match n with
  | Element _ _ kids =>
      {| self := n; ancestors := anc |}
        :: flat_map (elements_under (n :: anc)) kids
  | _ => []
  end.

(** All elements of the document, in document order. *)
Definition all_elements (d : document) : list element :=
  flat_map (elements_under []) d.

Definition getAttribute (n : node) (name : jsstring) : option jsstring :=
  match n with
  | Element _ attrs _ =>
      match find (fun kv => jsstring_eqb (fst kv) name) attrs with
      | Some kv => Some (snd kv)
      | None => None
      end
  | _ => None
  end.

Definition localName (n : node) : option jsstring :=
  match n with
  | Element ln _ _ => Some ln
  | _ => None
  end.

(** *** Selectors *)

Inductive simple_selector : Type :=
| Universal                                   (* * *)
| TypeSel (name : jsstring)                   (* name *)
| AttrContains (attr value : jsstring).       (* [attr*='value'] *)

Definition is_letter (c : N) : bool :=
  (((65 <=? c) && (c <=? 90)) || ((97 <=? c) && (c <=? 122)))%N.

(** The characters of a plain name: letters, digits, [-] and [_]. *)
Definition is_name_char (c : N) : bool :=
  is_letter c || is_digit c || (c =? 45)%N || (c =? 95)%N.

Definition is_ident (s : jsstring) : bool :=
  match s with
  | c :: s' => is_letter c && forallb is_name_char s'
  | [] => false
  end.

Definition to_lower (s : jsstring) : jsstring :=
  map (fun c => if ((65 <=? c) && (c <=? 90))%N then (c + 32)%N else c) s.

Definition is_css_space (c : N) : bool :=
  ((c =? 32) || (c =? 9) || (c =? 10) || (c =? 12) || (c =? 13))%N.

Definition css_trim (s : jsstring) : jsstring :=
  rev (dropWhile is_css_space (rev (dropWhile is_css_space s))).

(** The pieces of a selector list between its commas. *)
Fixpoint split_commas (s : jsstring) : list jsstring :=
  match s with
  | [] => [[]]
  | c :: s' =>
      if N.eqb c 44 then [] :: split_commas s'
      else match split_commas s' with
           | w :: ws => (c :: w) :: ws
           | [] => [[c]]
           end
  end.

Definition parse_compound (item : jsstring) : option simple_selector :=
  match item with
  | [] => None
  | c :: r =>
      if N.eqb c 42 then
        match r with [] => Some Universal | _ => None end
      else if N.eqb c 91 then
        let name := takeWhile is_name_char r in
        if is_ident name then
          match strip_prefix (js "*='") (dropWhile is_name_char r) with
          | Some r2 =>
              if jsstring_eqb (dropWhile is_name_char r2) (js "']")
              then Some (AttrContains name (takeWhile is_name_char r2))
              else None
          | None => None
          end
        else None
      else if is_ident item then Some (TypeSel item) else None
  end.

Fixpoint parse_compounds (items : list jsstring) : option (list simple_selector) :=
  match items with
  | [] => Some []
  | it :: items' =>
      match parse_compound it, parse_compounds items' with
      | Some s, Some ss => Some (s :: ss)
      | _, _ => None
      end
  end.

(** The pieces of a selector list, without the whitespace around them. *)
Definition pieces (s : jsstring) : list jsstring :=
  map css_trim (split_commas s).

Definition parse_selector (s : jsstring) : option (list simple_selector) :=
  parse_compounds (pieces s).

(** Whether an element matches a simple selector, in an HTML document:
    type and attribute names compare in lower case, attribute values as
    they are, and [*=] with an empty value matches nothing. *)
Definition matches_simple (s : simple_selector) (n : node) : bool :=
  match n with
  | Element ln _ _ =>
      match s with
      | Universal => true
      | TypeSel name => jsstring_eqb (to_lower name) ln
      | AttrContains a v =>
          match getAttribute n (to_lower a) with
          | Some val => truthy v && includes v val
          | None => false
          end
      end
  | _ => false
  end.

Definition matches (sel : list simple_selector) (n : node) : bool :=
  existsb (fun s => matches_simple s n) sel.

(** [document.querySelectorAll(selectors)]. *)
Definition querySelectorAll (d : document) (selectors : jsstring)
  : completion (list element) :=
  match parse_selector selectors with
  | None => Throw SyntaxError
  | Some sel => Normal (filter (fun e => matches sel (self e)) (all_elements d))
  end.

(** [element.closest(selectors)]: the nearest inclusive ancestor that
    matches, or null. *)
Definition closest (e : element) (selectors : jsstring)
  : completion (option node) :=
  match parse_selector selectors with
  | None => Throw SyntaxError
  | Some sel => Normal (find (matches sel) (self e :: ancestors e))
  end.

End DOM.

(** ** The Text Extractor: [scrapePage] *)

Module Scraper.

Import DOM.

(** The values a caller can pass for [url]. *)
Inductive jsvalue : Type :=
| JUndefined
| JNull
| JBoolean (b : bool)
| JNumber (n : N)
| JString (s : jsstring)
| JObject.

(** What the call does to the outside world, in order. *)
Inductive event : Type :=
| HttpGet (url : jsstring)        (* axios.get(url) *)
| ConsoleError (e : error).       (* console.error(...) *)

(** The four lists of the settings ([SelectorFilter] in the specification). *)
Record SelectorFilter : Type :=
  { excludeElements : list jsstring;
    excludeIDs : list jsstring;
    excludeClasses : list jsstring;
    includeElements : list jsstring }.

(** /\s+/g *)
Definition whitespace_runs : RegExp.t :=
  {| RegExp.pattern := RegExp.plus (RegExp.RChar RegExp.CSpace);
     RegExp.flag := {| RegExp.global := true; RegExp.multiline := false;
                       RegExp.dotAll := false |};
     RegExp.lastIndex := 0 |}.

(** [element.textContent.replace(/\s+/g, " ").trim()]. *)
Definition normalise (textContent : jsstring) : completion jsstring :=
  t <- RegExp.replace whitespace_runs textContent (js " ") ;;
  Normal (trim t).

Definition excludeElementSelectors (f : SelectorFilter) : jsstring :=
  join (js ",") (excludeElements f).

Definition excludeIdSelectors (f : SelectorFilter) : jsstring :=
  join (js ", ") (map (fun id => js "[id*='" ++ id ++ js "']") (excludeIDs f)).

Definition excludeClassSelectors (f : SelectorFilter) : jsstring :=
  join (js ", ")
    (map (fun className => js "[class*='" ++ className ++ js "']")
       (excludeClasses f)).

Definition combinedExcludeSelectors (f : SelectorFilter) : jsstring :=
  join (js ", ")
    (filter truthy
       [excludeElementSelectors f; excludeIdSelectors f; excludeClassSelectors f]).

Definition includeSelectors (f : SelectorFilter) : jsstring :=
  join (js ",") (includeElements f).

(** The body of the two [elements.forEach] loops: the text of one element
    is appended to [outputTexts] when it is not empty. *)
Definition push_text (e : element) (outputTexts : list jsstring)
  : completion (list jsstring) :=
  text <- normalise (textContent (self e)) ;;
  Normal (if truthy text then outputTexts ++ [text] else outputTexts).

(** The loop of the branch with exclusions. *)
Fixpoint forEach_excluding (selectors : jsstring) (elements : list element)
  (outputTexts : list jsstring) : completion (list jsstring) :=
  match elements with
  | [] => Normal outputTexts
  | e :: elements' =>
      hit <- closest e selectors ;;
      match hit with
      | Some _ => forEach_excluding selectors elements' outputTexts
      | None =>
          out <- push_text e outputTexts ;;
          forEach_excluding selectors elements' out
      end
  end.

(** The loop of the branch without exclusions. *)
Fixpoint forEach_all (elements : list element) (outputTexts : list jsstring)
  : completion (list jsstring) :=
  match elements with
  | [] => Normal outputTexts
  | e :: elements' =>
      out <- push_text e outputTexts ;;
      forEach_all elements' out
  end.

(** The candidate elements: [if (includeSelectors) ... else ...]. *)
Definition select_elements (d : document) (f : SelectorFilter)
  : completion (list element) :=
  if truthy (includeSelectors f)
  then querySelectorAll d (includeSelectors f)
  else querySelectorAll d (js "*").

(** The statements of the [try] block once the document is there. *)
Definition extract (d : document) (f : SelectorFilter) : completion (list jsstring) :=
  elements <- select_elements d f ;;
  if truthy (combinedExcludeSelectors f)
  then forEach_excluding (combinedExcludeSelectors f) elements []
  else forEach_all elements [].

(** What the [try]/[catch] makes of the [try] block: its list, or the empty
    list when it threw. *)
Definition caught (c : completion (list jsstring)) : list jsstring :=
  match c with
  | Normal outputTexts => outputTexts
  | _ => []
  end.

Section ScrapePage.

(** The collaborators: [axios.get(url)] yields [response.data] or throws,
    and [new JSDOM(html)] yields the document or throws. *)
Variable html : Type.
Variable axios_get : jsstring -> outcome html.
Variable JSDOM : html -> outcome document.

Definition invalid_url (url : jsvalue) : bool :=
  match url with
  | JString s => negb (truthy s)
  | _ => true
  end.

Definition url_string (url : jsvalue) : jsstring :=
  match url with
  | JString s => s
  | _ => []
  end.

(** [scrapePage(url, excludeElements, excludeIDs, excludeClasses,
    includeElements)]: the events of the call and how the promise settles. *)
Definition scrapePage (url : jsvalue) (f : SelectorFilter)
  : list event * completion (list jsstring) :=
  if invalid_url url
  then ([], Throw (Error (js "Invalid URL provided")))
  else
    match (data <- lift (axios_get (url_string url)) ;;
           d <- lift (JSDOM data) ;;
           extract d f) with
    | Normal outputTexts => ([HttpGet (url_string url)], Normal outputTexts)
    | Throw e => ([HttpGet (url_string url); ConsoleError e], Normal [])
    | Diverge => ([HttpGet (url_string url)], Diverge)
    end.

End ScrapePage.

Arguments scrapePage {html} axios_get JSDOM url f.

End Scraper.


(** * The specification's own notions *)

Module Spec.

(** "Whitespace collapsed to single spaces": every run of whitespace
    becomes one U+0020.  [in_run] tells whether the character before was
    whitespace. *)
Fixpoint collapse (in_run : bool) (s : jsstring) : jsstring :=
  match s with
  | [] => []
  | c :: s' =>
      if is_space c
      then (if in_run then collapse true s' else 32%N :: collapse true s')
      else c :: collapse false s'
  end.

(** The maximal runs of characters that are not whitespace. *)
Fixpoint words (s : jsstring) : list jsstring :=
  match s with
  | [] => []
  | c :: s' =>
      if is_space c then words s'
      else
        match s' with
        | [] => [[c]]
        | c' :: _ =>
            if is_space c' then [c] :: words s'
            else match words s' with
                 | w :: ws => (c :: w) :: ws
                 | [] => [[c]]
                 end
        end
  end.

(** A TextFragment: the words of the text, one space between them. *)
Definition fragment_text (s : jsstring) : jsstring := join (js " ") (words s).

(** The fragments of a list of elements: the non-empty fragment texts of
    their text contents, in the order of the list. *)
Definition fragments (els : list DOM.element) : list jsstring :=
  filter truthy
    (map (fun e => fragment_text (DOM.textContent (DOM.self e))) els).

(** Whether the element or one of its ancestors matches the selector. *)
Definition excluded_by (sel : list DOM.simple_selector) (e : DOM.element) : bool :=
  existsb (DOM.matches sel) (DOM.self e :: DOM.ancestors e).

(** Whether the node is an element with tag name [T]. *)
Definition has_tag (T : jsstring) (n : DOM.node) : bool :=
  match DOM.localName n with
  | Some ln => jsstring_eqb (DOM.to_lower T) ln
  | None => false
  end.


(** A plain exclusion value: letters, digits, [-] and [_] only (it may be
    empty). *)
Definition plain_value (v : jsstring) : bool := forallb DOM.is_name_char v.

(** A plain tag entry: a name that starts with a letter, or nothing at all
    (the settings accept an empty item). *)
Definition plain_tag (t : jsstring) : bool :=
  match t with
  | [] => true
  | _ => DOM.is_ident t
  end.

(** The exclusion lists hold plain entries. *)
Definition plain_exclusions (f : Scraper.SelectorFilter) : bool :=
  forallb plain_tag (Scraper.excludeElements f)
  && forallb plain_value (Scraper.excludeIDs f)
  && forallb plain_value (Scraper.excludeClasses f).

(** The tag entries that reach the selector: none when they join to the
    empty string, which [filter(Boolean)] drops. *)
Definition tag_items (f : Scraper.SelectorFilter) : list jsstring :=
  if truthy (Scraper.excludeElementSelectors f)
  then Scraper.excludeElements f
  else [].

(** The exclusion rules of a filter, as selectors. *)
Definition selectors_of (f : Scraper.SelectorFilter) : list DOM.simple_selector :=
  map DOM.TypeSel (tag_items f)
  ++ map (DOM.AttrContains (js "id")) (Scraper.excludeIDs f)
  ++ map (DOM.AttrContains (js "class")) (Scraper.excludeClasses f).

Definition is_empty (s : jsstring) : bool := negb (truthy s).

(** The three exclusion lists. *)
Inductive exclusion_list : Type := ExcludeTag | ExcludeId | ExcludeClass.

(** The filter after "Add Item" on one of its exclusion lists. *)
Definition add_exclusion (which : exclusion_list) (entry : jsstring)
  (f : Scraper.SelectorFilter) : Scraper.SelectorFilter :=
  match which with
  | ExcludeTag =>
      {| Scraper.excludeElements := Scraper.excludeElements f ++ [entry];
         Scraper.excludeIDs := Scraper.excludeIDs f;
         Scraper.excludeClasses := Scraper.excludeClasses f;
         Scraper.includeElements := Scraper.includeElements f |}
  | ExcludeId =>
      {| Scraper.excludeElements := Scraper.excludeElements f;
         Scraper.excludeIDs := Scraper.excludeIDs f ++ [entry];
         Scraper.excludeClasses := Scraper.excludeClasses f;
         Scraper.includeElements := Scraper.includeElements f |}
  | ExcludeClass =>
      {| Scraper.excludeElements := Scraper.excludeElements f;
         Scraper.excludeIDs := Scraper.excludeIDs f;
         Scraper.excludeClasses := Scraper.excludeClasses f ++ [entry];
         Scraper.includeElements := Scraper.includeElements f |}
  end.


(** The exclusion lists hold names the selector engine accepts: tag names
    that start with a letter, plain id and class values. *)
Definition valid_exclusions (f : Scraper.SelectorFilter) : bool :=
  forallb DOM.is_ident (Scraper.excludeElements f)
  && forallb plain_value (Scraper.excludeIDs f)
  && forallb plain_value (Scraper.excludeClasses f).



(** A piece of a selector list that splitting and trimming leave as it is. *)
Definition clean (a : jsstring) : bool :=
  forallb (fun c => negb (DOM.is_css_space c) && negb (N.eqb c 44)) a.

(** The attribute selector [[name*='v']] as [scrapePage] writes it. *)
Definition attr_template (name : jsstring) : jsstring -> jsstring :=
  fun v => 91%N :: name ++ js "*='" ++ v ++ js "']".

(** A character that is not whitespace. *)
Definition not_space : N -> bool := fun c => negb (is_space c).

(** [l1] is [l2] with some of its members left out. *)
Inductive subsequence {A : Type} : list A -> list A -> Prop :=
| subsequence_nil : subsequence [] []
| subsequence_take x l1 l2 : subsequence l1 l2 -> subsequence (x :: l1) (x :: l2)
| subsequence_skip x l1 l2 : subsequence l1 l2 -> subsequence l1 (x :: l2).

(** The remaining input of a later state is a suffix of the earlier one. *)
Definition is_suffix (t s : jsstring) : Prop := exists w, s = w ++ t.

Definition starts_with_space (s : jsstring) : bool :=
  match s with
  | c :: _ => is_space c
  | [] => false
  end.

End Spec.

(** * Example pages *)

Module Examples.

Import DOM Scraper.

Definition tag (name : string) (kids : list node) : node :=
  Element (js name) [] kids.

(** <html><body><div><script>x</script>hello</div></body></html> *)
Definition page_with_script : document :=
  [tag "html" [tag "body" [tag "div" [tag "script" [Text (js "x")];
                                      Text (js "hello")]]]].

(** <html><body><div><p>text</p></div></body></html> *)
Definition page_nested : document :=
  [tag "html" [tag "body" [tag "div" [tag "p" [Text (js "text")]]]]].

(** <html><body><div id="advert-1">buy</div><p class="lead-text">read</p></body></html> *)
Definition page_with_advert : document :=
  [tag "html" [tag "body"
     [Element (js "div") [(js "id", js "advert-1")] [Text (js "buy")];
      Element (js "p") [(js "class", js "lead-text")] [Text (js "read")]]]].

Definition no_filter : SelectorFilter :=
  {| excludeElements := []; excludeIDs := []; excludeClasses := [];
     includeElements := [] |}.

(** A network that serves the page [d] for every address. *)
Definition serve (d : document) : jsstring -> outcome document :=
  fun _ => Returns d.

Definition parsed : document -> outcome document := fun d => Returns d.

Definition offline : jsstring -> outcome document :=
  fun _ => Throws ExternalError.

(** A line feed. *)
Definition LFs : jsstring := [10%N].

Definition address : jsvalue := JString (js "https://example.org/").

End Examples.

(** * The filter, rule by rule *)

Module Rules.

Import DOM Scraper.

(** Whether the node has the attribute [a] with a value that contains [v];
    an empty [v] is contained in nothing. *)
Definition attr_contains (a v : jsstring) (n : node) : bool :=
  match getAttribute n a with
  | Some val => truthy v && includes v val
  | None => false
  end.

(** Whether one of the exclusion entries applies to the node itself. *)
Definition rule_matches (f : SelectorFilter) (n : node) : bool :=
  existsb (fun T => Spec.has_tag T n) (excludeElements f)
  || existsb (fun v => attr_contains (js "id") v n) (excludeIDs f)
  || existsb (fun v => attr_contains (js "class") v n) (excludeClasses f).

(** Whether an exclusion entry applies to the element or to an ancestor. *)
Definition excluded (f : SelectorFilter) (e : element) : bool :=
  existsb (rule_matches f) (self e :: ancestors e).

(** Whether the element is a candidate: every element when the include
    list is empty, the elements of a listed tag otherwise. *)
Definition included (f : SelectorFilter) (e : element) : bool :=
  match includeElements f with
  | [] => true
  | tags => existsb (fun T => Spec.has_tag T (self e)) tags
  end.

End Rules.

(** * More sample values *)

Module Samples.

Import DOM Scraper.


End Samples.

(** * Counting *)

Module Counting.

(** The number of line feeds of a text. *)
Definition line_feeds (s : jsstring) : nat := length (filter (N.eqb 10) s).

End Counting.

(** * generate_flashcard_text.js: the request *)

Module Generate.

Import Flashcards.

(** The body of [openai.chat.completions.create]: the model and the two
    messages, the system one and the user one. *)
Record chat_request : Type :=
  { request_model : jsstring;
    system_content : jsstring;
    user_content : jsstring }.

Inductive event : Type :=
| ChatCreate (r : chat_request)      (* openai.chat.completions.create *)
| LogError (e : error).              (* console.error *)

(** A string argument that may be missing is falsy when it is missing or
    empty. *)
Definition falsy (v : option jsstring) : bool :=
  match v with
  | Some (_ :: _) => false
  | _ => true
  end.

Definition string_of (v : option jsstring) : jsstring :=
  match v with
  | Some s => s
  | None => []
  end.

Section API.

(** [apiKey] of constants.js and the chat completion service. *)
Variable apiKey : option jsstring.
Variable create : chat_request -> outcome response.

(** [sendChatRequest(textArray, context, model)]: the error of a failed
    request is logged and thrown again. *)
Definition sendChatRequest (textArray : list jsstring) (context model : jsstring)
  : list event * completion response :=
  let request :=
    {| request_model := model;
       system_content := context;
       user_content := join [10%N] textArray |} in
  match create request with
  | Returns response => ([ChatCreate request], Normal response)
  | Throws e => ([ChatCreate request; LogError e], Throw e)
  end.

(** [generateFlashCardText(pageTextArray, context, model)];
    [pageTextArray] is [None] when the caller passes no array. *)
Definition generateFlashCardText (pageTextArray : option (list jsstring))
  (context model : option jsstring) : list event * completion (list card) :=
  match pageTextArray with
  | None => ([], Throw TypeError)
  | Some [] => ([], Throw (Error (js "No text extracted from the page")))
  | Some texts =>
      if falsy context
      then ([], Throw (Error (js "No ChatGPT instructions provided")))
      else if falsy apiKey
      then ([], Throw (Error (js "No API key provided")))
      else if falsy model
      then ([], Throw (Error (js "No model provided")))
      else
        let (events, chatResponse) :=
          sendChatRequest texts (string_of context) (string_of model) in
        (events, response <- chatResponse ;; formatResponse response)
  end.

End API.

End Generate.

(** * More of the String methods *)

Module Text.

(** [s.split(sep)] for a separator of one character. *)
Fixpoint split_char (sep : N) (s : jsstring) : list jsstring :=
  match s with
  | [] => [[]]
  | c :: s' =>
      if N.eqb c sep then [] :: split_char sep s'
      else match split_char sep s' with
           | w :: ws => (c :: w) :: ws
           | [] => [[c]]
           end
  end.

(** The double quote. *)
Definition quote : N := 34%N.

End Text.

(** * More of the RegExp methods *)

Module RegExpMore.

Import RegExp.

(** [R.test(S)]: whether [exec] finds a match; [lastIndex] moves as for
    [exec]. *)
Definition test (R : t) (S : jsstring) : completion bool * t :=
  match exec R S with
  | (Null, R') => (Normal false, R')
  | (MatchArray _ _, R') => (Normal true, R')
  | (Stalled, R') => (Diverge, R')
  end.

(** Whether [S.match(R)] is an array and not null, for a global [R]: the
    method starts from [lastIndex] 0 and returns null exactly when the first
    [exec] does. *)
Definition match_found (R : t) (S : jsstring) : completion bool :=
  fst (test (set_lastIndex R 0) S).

(** [a|b|c]. *)
Fixpoint alt (rs : list regex) : regex :=
  match rs with
  | [] => REmpty
  | [r] => r
  | r :: rs' => RAlt r (alt rs')
  end.

Definition is_lower_letter (c : N) : bool := ((97 <=? c) && (c <=? 122))%N.

(** A pattern character under the flag i: it matches the characters with
    the same Canonicalize value, for a letter a-z its two cases (a character
    outside ASCII never canonicalizes into ASCII), for a digit itself. *)
Definition ci_class (c : N) : charclass :=
  CSet (c :: if is_lower_letter c then [(c - 32)%N] else []).

(** A word of letters a-z and digits in a pattern with the flag i. *)
Definition ci_word (w : string) : regex :=
  seq (map (fun c => RChar (ci_class c)) (js w)).

(** The characters, one class after the other, at the front of [s]. *)
Fixpoint strip_classes (f : flags) (cls : list charclass) (s : jsstring)
  : option jsstring :=
  match cls, s with
  | [], _ => Some s
  | cl :: cls', c :: s' =>
      if class_matches f cl c then strip_classes f cls' s' else None
  | _ :: _, [] => None
  end.

(** Whether one of the words is at the front of [s]. *)
Definition word_at (f : flags) (ws : list (list charclass)) (s : jsstring) : bool :=
  existsb (fun cls => match strip_classes f cls s with
                      | Some _ => true
                      | None => false
                      end) ws.

(** Whether one of the words occurs somewhere in [s]. *)
Fixpoint occurs (f : flags) (ws : list (list charclass)) (s : jsstring) : bool :=
  word_at f ws s
  || match s with
     | [] => false
     | _ :: s' => occurs f ws s'
     end.

(** The pattern of the words. *)
Definition words_pattern (ws : list (list charclass)) : regex :=
  alt (map (fun cls => seq (map RChar cls)) ws).

Definition global_only : flags :=
  {| global := true; multiline := false; dotAll := false |}.

End RegExpMore.

(** * utils.js *)

Module Utils.

Import RegExp RegExpMore Flashcards Text.

(** The pattern of one double quote, with the flag g. *)
Definition quotes : RegExp.t :=
  {| pattern := RChar (CLit quote); flag := global_only; lastIndex := 0 |}.

(** [text.replace(quotes, two double quotes).trim()]. *)
Definition csv_text (text : jsstring) : completion jsstring :=
  t <- replace quotes text [quote; quote] ;;
  Normal (trim t).

(** "Date Generated,Front,Back\n" *)
Definition header : jsstring := js "Date Generated,Front,Back" ++ [10%N].

(** The template of a row: the three values in double quotes, commas
    between them, a line feed at the end. *)
Definition csv_row (dateGenerated front back : jsstring) : jsstring :=
  [quote] ++ dateGenerated ++ [quote; 44%N; quote] ++ front
  ++ [quote; 44%N; quote] ++ back ++ [quote; 10%N].

(** The loop [for (const card of cards)]. *)
Fixpoint add_rows (dateGenerated : jsstring) (cards : list card)
  (csvData : jsstring) : completion jsstring :=
  match cards with
  | [] => Normal csvData
  | card :: cards' =>
      front <- csv_text (front card) ;;
      back <- csv_text (back card) ;;
      add_rows dateGenerated cards' (csvData ++ csv_row dateGenerated front back)
  end.

(** The files: the content of each path that exists. *)
Definition files : Type := jsstring -> option jsstring.

Definition existsSync (fs : files) (path : jsstring) : bool :=
  match fs path with Some _ => true | None => false end.

Definition put_file (fs : files) (path content : jsstring) : files :=
  fun p => if jsstring_eqb p path then Some content else fs p.

Inductive event : Type :=
| LogsAppended (path : jsstring)            (* console.log *)
| LogsWritten (path : jsstring)             (* console.log *)
| WriteFailed (path : jsstring) (e : error). (* console.error *)

Section WriteLogs.

(** [new Date().toISOString()], [join] of "path", and whether
    [appendFileSync] or [writeFileSync] throws on a path. *)
Variable now : jsstring.
Variable path_join : jsstring -> jsstring -> jsstring.
Variable write_error : jsstring -> option error.

(** [writeLogs(directory, cards)]: the files afterwards and the messages. *)
Definition writeLogs (fs : files) (directory : jsstring) (cards : list card)
  : completion (files * list event) :=
  let dateGenerated := hd [] (split_char 84 now) in
  let filepath := path_join directory (js "cards_generated.csv") in
  let csvData := if negb (existsSync fs filepath) then header else [] in
  csvData <- add_rows dateGenerated cards csvData ;;
  match write_error filepath with
  | Some e => Normal (fs, [WriteFailed filepath e])
  | None =>
      match fs filepath with
      | Some old => Normal (put_file fs filepath (old ++ csvData),
                            [LogsAppended filepath])
      | None => Normal (put_file fs filepath csvData, [LogsWritten filepath])
      end
  end.

End WriteLogs.

(** *** Reading the log back

    A reader of comma-separated values after RFC 4180: a field in double
    quotes ends at the first quote that is not doubled, and two quotes
    stand for one. *)

Fixpoint quoted_body (s : jsstring) : option (jsstring * jsstring) :=
  match s with
  | [] => None
  | c :: s' =>
      if N.eqb c quote then
        match s' with
        | [] => Some ([], [])
        | c' :: s'' =>
            if N.eqb c' quote then
              match quoted_body s'' with
              | Some (field, after) => Some (quote :: field, after)
              | None => None
              end
            else Some ([], s')
        end
      else
        match quoted_body s' with
        | Some (field, after) => Some (c :: field, after)
        | None => None
        end
  end.

Definition quoted_field (s : jsstring) : option (jsstring * jsstring) :=
  match s with
  | c :: s' => if N.eqb c quote then quoted_body s' else None
  | [] => None
  end.

Definition expect (c : N) (s : jsstring) : option jsstring :=
  match s with
  | a :: s' => if N.eqb a c then Some s' else None
  | [] => None
  end.

(** A row of three quoted fields and what follows its line feed. *)
Definition read_row (s : jsstring)
  : option ((jsstring * jsstring * jsstring) * jsstring) :=
  match quoted_field s with
  | Some (a, s1) =>
      match expect 44 s1 with
      | Some s2 =>
          match quoted_field s2 with
          | Some (b, s3) =>
              match expect 44 s3 with
              | Some s4 =>
                  match quoted_field s4 with
                  | Some (c, s5) =>
                      match expect 10 s5 with
                      | Some s6 => Some ((a, b, c), s6)
                      | None => None
                      end
                  | None => None
                  end
              | None => None
              end
          | None => None
          end
      | None => None
      end
  | None => None
  end.

(** All the rows of a text, at most [budget] of them. *)
Fixpoint read_rows (budget : nat) (s : jsstring)
  : option (list (jsstring * jsstring * jsstring)) :=
  match s with
  | [] => Some []
  | _ =>
      match budget with
      | 0 => None
      | S budget' =>
          match read_row s with
          | Some (row, after) =>
              match read_rows budget' after with
              | Some rows => Some (row :: rows)
              | None => None
              end
          | None => None
          end
      end
  end.

(** Every double quote doubled. *)
Definition escape (s : jsstring) : jsstring :=
  flat_map (fun c => if N.eqb quote c then [quote; quote] else [c]) s.

(** The row of a card as the log should hold it: the date and the two
    trimmed texts, each in double quotes with its own quotes doubled. *)
Definition card_row (dateGenerated : jsstring) (c : card) : jsstring :=
  csv_row dateGenerated (escape (trim (front c))) (escape (trim (back c))).

(** *** getModels *)

(** The pattern gpt|o1 with the flags g and i. *)
Definition chat_names : RegExp.t :=
  {| pattern := alt (map ci_word ["gpt"; "o1"]%string);
     flag := global_only; lastIndex := 0 |}.

(** The pattern audio|realtime|tts|embedding|dall with the flags g and i. *)
Definition other_names : RegExp.t :=
  {| pattern :=
       alt (map ci_word ["audio"; "realtime"; "tts"; "embedding"; "dall"]%string);
     flag := global_only; lastIndex := 0 |}.

(** The loop [for (const model of list.data)] over the ids of the models. *)
Fixpoint push_models (data ids : list jsstring) : completion (list jsstring) :=
  match data with
  | [] => Normal ids
  | id :: data' =>
      named <- match_found chat_names id ;;
      if named then
        other <- match_found other_names id ;;
        if negb other then push_models data' (ids ++ [id])
        else push_models data' ids
      else push_models data' ids
  end.

(** [getModels()], for the answer of [openai.models.list()]: the ids of
    [list.data]. *)
Definition getModels (models : outcome (list jsstring))
  : completion (list jsstring) :=
  data <- lift models ;;
  push_models data [].

(** Whether the word is in the id, the letters A-Z of the id read as
    a-z. *)
Definition mentions (id : jsstring) (word : string) : bool :=
  includes (js word) (DOM.to_lower id).

(** A model for chat, by its name. *)
Definition chat_model (id : jsstring) : bool :=
  existsb (mentions id) ["gpt"; "o1"]%string
  && negb (existsb (mentions id)
             ["audio"; "realtime"; "tts"; "embedding"; "dall"]%string).

End Utils.

(** * input_validation.js *)

Module Validation.

Import RegExp RegExpMore.

(** [process.platform]. *)
Inductive platform : Type := win32 | linux | darwin | unsupported.

(** An error of the file system, by whether its code is ENOENT. *)
Inductive fs_error : Type := ENOENT | OtherCode.

Inductive reason : Type :=
| Message (msg : jsstring)    (* new Error(msg) *)
| FsError (err : fs_error).   (* the error thrown by statSync or accessSync *)

(** The object with [validPath] and [error]. *)
Record path_result : Type := { validPath : bool; reason_of : option reason }.

(** The class of [winInvalidChars]: the characters less-than, greater-than,
    colon, double quote, slash, backslash, bar, question mark and star, and
    the range from U+0000 to U+001F. *)
Definition winInvalidChars : RegExp.t :=
  {| pattern :=
       RChar (CSet ([60; 62; 58; 34; 47; 92; 124; 63; 42]%N
                      ++ map N.of_nat (List.seq 0 32)));
     flag := global_only; lastIndex := 0 |}.

(** The class of [unixInvalidChars]: U+0000. *)
Definition unixInvalidChars : RegExp.t :=
  {| pattern := RChar (CSet [0%N]); flag := global_only; lastIndex := 0 |}.

Definition invalid_characters : path_result :=
  {| validPath := false;
     reason_of := Some (Message (js "Error: path contains invalid characters.")) |}.

Definition valid : path_result := {| validPath := true; reason_of := None |}.

(** [testPath(dirpath, os)]. *)
Definition testPath (dirpath : jsstring) (os : platform)
  : completion path_result :=
  let invalidChars :=
    match os with
    | win32 => winInvalidChars
    | _ => unixInvalidChars
    end in
  found <- fst (test invalidChars dirpath) ;;
  if found then Normal invalid_characters else Normal valid.

(** What [statSync] gives: it throws, or returns the stats. *)
Inductive stat : Type :=
| StatThrows (err : fs_error)
| Stats (isDirectory : bool).

Section Directory.

(** The platform, the file system calls ([accessSync] asks for W_OK) and
    [path.dirname]. *)
Variable os : platform.
Variable statSync : jsstring -> stat.
Variable accessSync : jsstring -> option fs_error.
Variable dirname : jsstring -> jsstring.

(** The inner try of the catch block, on the parent directory. *)
Definition check_parent (parentDir : jsstring) : path_result :=
  match statSync parentDir with
  | Stats false =>
      {| validPath := false;
         reason_of := Some (Message (js "Parent path is not a directory")) |}
  | Stats true =>
      match accessSync parentDir with
      | None => valid
      | Some parentErr => {| validPath := false; reason_of := Some (FsError parentErr) |}
      end
  | StatThrows parentErr =>
      {| validPath := false; reason_of := Some (FsError parentErr) |}
  end.

(** The catch block of the outer try. *)
Definition on_error (dirpath : jsstring) (err : fs_error) : path_result :=
  match err with
  | ENOENT => check_parent (dirname dirpath)
  | OtherCode => {| validPath := false; reason_of := Some (FsError err) |}
  end.

(** [validateDirectory(dirpath)]. *)
Definition validateDirectory (dirpath : jsstring) : completion path_result :=
  match os with
  | unsupported => Throw (Error (js "Unsupported OS"))
  | _ =>
      result <- testPath dirpath os ;;
      if negb (validPath result) then Normal result
      else
        match statSync dirpath with
        | Stats false =>
            Normal {| validPath := false;
                      reason_of := Some (Message (js "Path is not a directory")) |}
        | Stats true =>
            match accessSync dirpath with
            | None => Normal valid
            | Some err => Normal (on_error dirpath err)
            end
        | StatThrows err => Normal (on_error dirpath err)
        end
  end.

(** A directory that exists and can be written to. *)
Definition writable_directory (p : jsstring) : bool :=
  match statSync p with
  | Stats true => match accessSync p with None => true | Some _ => false end
  | _ => false
  end.

(** The file system says ENOENT for the path. *)
Definition not_found (p : jsstring) : bool :=
  match statSync p with
  | StatThrows ENOENT => true
  | Stats true => match accessSync p with Some ENOENT => true | _ => false end
  | _ => false
  end.

End Directory.

(** The characters a path must not contain. *)
Definition forbidden (os : platform) (c : N) : bool :=
  match os with
  | win32 =>
      (c <? 32)%N || existsb (N.eqb c) [34; 42; 47; 58; 60; 62; 63; 92; 124]%N
  | _ => N.eqb c 0
  end.

(** *** Deck names *)

(** The second argument of [validateNewDeckName] as it may arrive:
    undefined, a string, or an object with its own keys in order. *)
Inductive argument : Type :=
| Undefined
| StringValue (s : jsstring)
| ObjectValue (keys : list jsstring).

Fixpoint digits (d : Decimal.uint) : jsstring :=
  match d with
  | Decimal.Nil => []
  | Decimal.D0 d' => 48%N :: digits d'
  | Decimal.D1 d' => 49%N :: digits d'
  | Decimal.D2 d' => 50%N :: digits d'
  | Decimal.D3 d' => 51%N :: digits d'
  | Decimal.D4 d' => 52%N :: digits d'
  | Decimal.D5 d' => 53%N :: digits d'
  | Decimal.D6 d' => 54%N :: digits d'
  | Decimal.D7 d' => 55%N :: digits d'
  | Decimal.D8 d' => 56%N :: digits d'
  | Decimal.D9 d' => 57%N :: digits d'
  end.

(** The property key of an index: its decimal numeral. *)
Definition index_key (i : nat) : jsstring := digits (Nat.to_uint i).

(** [Object.keys(v)]: a TypeError ([None]) for undefined, the indices of
    the characters for a string, the own keys for an object. *)
Definition object_keys (v : argument) : option (list jsstring) :=
  match v with
  | Undefined => None
  | StringValue s => Some (map index_key (List.seq 0 (length s)))
  | ObjectValue keys => Some keys
  end.

Record deck_result : Type :=
  { validDeckName : bool; message_of : option jsstring }.

(** How the promise of an async function settles here: with a value, or
    rejected with the ReferenceError of reading a name that is not
    declared. *)
Inductive settled (A : Type) : Type :=
| Fulfilled (a : A)
| RejectedReferenceError.

Arguments Fulfilled {A} a.
Arguments RejectedReferenceError {A}.

(** [validateNewDeckName(deckName, decks)].  The catch block builds its
    message from [err], a name that is not declared (the parameter of the
    catch is [error]), so reaching it rejects the promise. *)
Definition validateNewDeckName (deckName : jsstring) (decks : argument)
  : settled deck_result :=
  if negb (truthy (trim deckName)) then
    Fulfilled {| validDeckName := false;
                 message_of := Some (js "Deck name cannot be empty") |}
  else
    match object_keys decks with
    | Some keys =>
        if existsb (jsstring_eqb (trim deckName)) keys then
          Fulfilled {| validDeckName := false;
                       message_of := Some (js "Deck name already exists") |}
        else Fulfilled {| validDeckName := true; message_of := None |}
    | None => RejectedReferenceError
    end.

(** What inquirer gets from [validate]: true, or the text of the error. *)
Inductive verdict : Type :=
| Accepted
| Refused (text : jsstring).

(** The [validate] function of [createDeckPrompt(ankiUrl, decks)] in
    anki_helper.js: it calls [validateNewDeckName(input, ankiUrl, decks)],
    so the function's second parameter receives [ankiUrl] and the third
    argument is dropped. *)
Definition createDeckPrompt_validate (ankiUrl : jsstring) (decks : argument)
  (input : jsstring) : settled verdict :=
  match validateNewDeckName input (StringValue ankiUrl) with
  | Fulfilled response =>
      if validDeckName response then Fulfilled Accepted
      else Fulfilled
             (Refused (js "Error with deck name: Error: "
                         ++ match message_of response with
                            | Some m => m
                            | None => []
                            end))
  | RejectedReferenceError => RejectedReferenceError
  end.

End Validation.

(** * anki.js and anki_helper.js *)

Module Anki.

Import Flashcards Text.

(** The tags of a note: an array of strings, or the string that
    [addCardsDifferentTags] passes when no tag was entered. *)
Inductive tags_value : Type :=
| TagArray (tags : list jsstring)
| TagString (s : jsstring).

(** The note of an addNote request (its model is always "Basic"). *)
Record note : Type :=
  { deckName : jsstring;
    Front : jsstring;
    Back : jsstring;
    tags : tags_value }.

Inductive event : Type :=
| Preview (front back : jsstring)           (* the three console.log of a review *)
| AddNote (ankiUrl : jsstring) (n : note)   (* axios.post(ankiUrl, ...) *)
| NoteAdded                                 (* console.log *)
| NoteRefused (error : jsstring)            (* console.error *)
| NoConnection (e : error).                 (* console.error *)

(** [entry.split(",").map((tag) => tag.trim())]. *)
Definition split_tags (entry : jsstring) : list jsstring :=
  map trim (split_char 44 entry).

Section User.

(** The service: [response.data.error] of the answer to a post, or a throw.
    The user: the answer to the confirmation of the card at a position of
    the list, and the tags entered for it. *)
Variable post : jsstring -> note -> outcome (option jsstring).
Variable confirm : nat -> bool.
Variable enter_tags : nat -> jsstring.

(** [addFlashcardToAnki(ankiUrl, deckName, front, back, tags)]: whatever
    happens is logged, nothing is thrown. *)
Definition addFlashcardToAnki (ankiUrl deckName front back : jsstring)
  (tags : tags_value) : list event :=
  let n := {| deckName := deckName; Front := front; Back := back; tags := tags |} in
  AddNote ankiUrl n
  :: match post ankiUrl n with
     | Returns (Some (c :: error)) => [NoteRefused (c :: error)]
     | Returns _ => [NoteAdded]
     | Throws e => [NoConnection e]
     end.

(** [reviewFlashcard(front, back)] for the card at position [i]. *)
Definition reviewFlashcard (i : nat) (front back : jsstring) : list event * bool :=
  ([Preview front back], confirm i).

(** The loop of [addCardsSameTags], from position [i] on. *)
Fixpoint addCardsSameTags_loop (i : nat) (ankiUrl : jsstring)
  (flashcardText : list card) (deckName : jsstring) (tags : list jsstring)
  (events : list event) (cardsAdded : list card) : list event * list card :=
  match flashcardText with
  | [] => (events, cardsAdded)
  | card :: rest =>
      let (shown, addCard) := reviewFlashcard i (front card) (back card) in
      if addCard then
        addCardsSameTags_loop (S i) ankiUrl rest deckName tags
          (events ++ shown
             ++ addFlashcardToAnki ankiUrl deckName (front card) (back card)
                  (TagArray tags))
          (cardsAdded ++ [{| front := front card; back := back card |}])
      else
        addCardsSameTags_loop (S i) ankiUrl rest deckName tags
          (events ++ shown) cardsAdded
  end.

Definition addCardsSameTags (ankiUrl : jsstring) (flashcardText : list card)
  (deckName : jsstring) (tags : list jsstring) : list event * list card :=
  addCardsSameTags_loop 0 ankiUrl flashcardText deckName tags [] [].

(** The tags of a card in [addCardsDifferentTags]. *)
Definition card_tags (entry : jsstring) : tags_value :=
  if negb (truthy entry) then TagString [] else TagArray (split_tags entry).

(** The loop of [addCardsDifferentTags], from position [i] on. *)
Fixpoint addCardsDifferentTags_loop (i : nat) (ankiUrl : jsstring)
  (flashcardText : list card) (deckName : jsstring)
  (events : list event) (cardsAdded : list card) : list event * list card :=
  match flashcardText with
  | [] => (events, cardsAdded)
  | card :: rest =>
      let (shown, addCard) := reviewFlashcard i (front card) (back card) in
      if addCard then
        addCardsDifferentTags_loop (S i) ankiUrl rest deckName
          (events ++ shown
             ++ addFlashcardToAnki ankiUrl deckName (front card) (back card)
                  (card_tags (enter_tags i)))
          (cardsAdded ++ [{| front := front card; back := back card |}])
      else
        addCardsDifferentTags_loop (S i) ankiUrl rest deckName
          (events ++ shown) cardsAdded
  end.

Definition addCardsDifferentTags (ankiUrl : jsstring) (flashcardText : list card)
  (deckName : jsstring) : list event * list card :=
  addCardsDifferentTags_loop 0 ankiUrl flashcardText deckName [] [].

End User.

(** The cards the user confirmed, with their positions from [i] on. *)
Fixpoint confirmed (confirm : nat -> bool) (i : nat) (cards : list card)
  : list (nat * card) :=
  match cards with
  | [] => []
  | c :: rest =>
      if confirm i then (i, c) :: confirmed confirm (S i) rest
      else confirmed confirm (S i) rest
  end.

(** The notes posted, in order. *)
Definition posted (events : list event) : list note :=
  flat_map (fun e => match e with AddNote _ n => [n] | _ => [] end) events.

(** A tag as it should be entered: no comma in it, no white space around
    it. *)
Definition clean_tag (t : jsstring) : bool :=
  negb (existsb (N.eqb 44) t) && jsstring_eqb (trim t) t.

End Anki.

(** * main_user_prompts.js and index.js *)

Module Main.

Import Flashcards Scraper Utils.

(** The choices of the prompt "Add tags to the generated cards?". *)
Inductive tag_choice : Type := SameTags | TagsPerCard | NoTags.

(** The tags that [mainUserInputHandler] returns, for the choice and for
    the line of tags entered when the same tags go to all cards. *)
Definition chosen_tags (addTags : tag_choice) (entry : jsstring) : list jsstring :=
  match addTags with
  | SameTags => Anki.split_tags entry
  | _ => []
  end.


(** The settings that [mainHandler] reads. *)
Record settings : Type :=
  { ankiUrl : jsstring;
    lists : SelectorFilter;
    context : option jsstring;
    model : option jsstring;
    logDirectory : jsstring }.

Inductive event : Type :=
| Scrape (e : Scraper.event)
| Chat (e : Generate.event)
| Deck (e : Anki.event)
| Log (e : Utils.event).

Section Handler.

Variable html : Type.
Variable axios_get : jsstring -> outcome html.
Variable JSDOM : html -> outcome DOM.document.
Variable apiKey : option jsstring.
Variable create : Generate.chat_request -> outcome response.
Variable post : jsstring -> Anki.note -> outcome (option jsstring).
Variable confirm : nat -> bool.
Variable enter_tags : nat -> jsstring.
Variable now : jsstring.
Variable path_join : jsstring -> jsstring -> jsstring.
Variable write_error : jsstring -> option error.


End Handler.

End Main.

(** * settings.js *)

Module Settings.

Import Scraper.

(** The settings that hold a list. *)
Inductive list_setting : Type :=
| ExcludeElements | ExcludeIDs | ExcludeClasses | IncludeElements.

(** [settings[settingToChange]]. *)
Definition get (settings : SelectorFilter) (settingToChange : list_setting)
  : list jsstring :=
  match settingToChange with
  | ExcludeElements => excludeElements settings
  | ExcludeIDs => excludeIDs settings
  | ExcludeClasses => excludeClasses settings
  | IncludeElements => includeElements settings
  end.

(** [settings[settingToChange] = items]. *)
Definition set (settings : SelectorFilter) (settingToChange : list_setting)
  (items : list jsstring) : SelectorFilter :=
  match settingToChange with
  | ExcludeElements =>
      {| excludeElements := items; excludeIDs := excludeIDs settings;
         excludeClasses := excludeClasses settings;
         includeElements := includeElements settings |}
  | ExcludeIDs =>
      {| excludeElements := excludeElements settings; excludeIDs := items;
         excludeClasses := excludeClasses settings;
         includeElements := includeElements settings |}
  | ExcludeClasses =>
      {| excludeElements := excludeElements settings;
         excludeIDs := excludeIDs settings; excludeClasses := items;
         includeElements := includeElements settings |}
  | IncludeElements =>
      {| excludeElements := excludeElements settings;
         excludeIDs := excludeIDs settings;
         excludeClasses := excludeClasses settings; includeElements := items |}
  end.

(** What the user answers in one round of the loop: the action and what
    the action's prompts ask for. *)
Inductive answer : Type :=
| AddItem (newItem : jsstring)
| RemoveItem (itemToRemove : jsstring)
| EditItem (itemToEdit updatedItem : jsstring)
| Done.

(** [list.indexOf(item)], [None] for -1. *)
Fixpoint indexOf (item : jsstring) (l : list jsstring) : option nat :=
  match l with
  | [] => None
  | a :: l' =>
      if jsstring_eqb a item then Some 0
      else match indexOf item l' with
           | Some i => Some (S i)
           | None => None
           end
  end.

(** [list[index] = v] for an index of the list. *)
Fixpoint assign (index : nat) (v : jsstring) (l : list jsstring)
  : list jsstring :=
  match l, index with
  | [], _ => []
  | _ :: l', 0 => v :: l'
  | a :: l', S i => a :: assign i v l'
  end.

(** [editListSettings(settings, settingToChange)]: the settings when the
    loop ends, which [saveSettings] then writes; [None] when the answers end
    before "Done". *)
Fixpoint editListSettings (answers : list answer) (settings : SelectorFilter)
  (settingToChange : list_setting) : option SelectorFilter :=
  match answers with
  | [] => None
  | AddItem newItem :: rest =>
      editListSettings rest
        (set settings settingToChange (get settings settingToChange ++ [newItem]))
        settingToChange
  | RemoveItem itemToRemove :: rest =>
      editListSettings rest
        (set settings settingToChange
           (filter (fun item => negb (jsstring_eqb item itemToRemove))
              (get settings settingToChange)))
        settingToChange
  | EditItem itemToEdit updatedItem :: rest =>
      match indexOf itemToEdit (get settings settingToChange) with
      | Some index =>
          editListSettings rest
            (set settings settingToChange
               (assign index updatedItem (get settings settingToChange)))
            settingToChange
      | None => editListSettings rest settings settingToChange
      end
  | Done :: _ => Some settings
  end.



End Settings.

(** * Properties *)

(** ** The backtracking matcher *)

Section MatcherTheory.

Import RegExp Spec.

Variable f : flags.

Lemma iterate_shrinks (step : MatchState -> MatchState -> Prop) :
  (forall a b, step a b -> length (rest b) <= length (rest a)) ->
  forall n x y, iterate n step x y -> length (rest y) <= length (rest x).
Proof.
  intros Hstep n; induction n as [|n IH]; simpl; intros x y H.
  - subst; lia.
  - destruct H as (z & Hz & Hit).
    apply Hstep in Hz. apply IH in Hit. lia.
Qed.

(** A match never moves the end index backwards. *)
Lemma Spans_shrinks r :
  forall x y, Spans f r x y -> length (rest y) <= length (rest x).
Proof.
  induction r; simpl; intros x y H.
  - subst; lia.
  - destruct H as (ch & s & Hx & _ & ->). rewrite Hx; simpl; lia.
  - destruct H as (z & H1 & H2). apply IHr1 in H1. apply IHr2 in H2. lia.
  - destruct H as [H|H]; auto.
  - destruct H as (n & _ & Hit).
    apply iterate_shrinks in Hit; auto.
    intros a b Hab. apply IHr in Hab. exact Hab.
  - destruct H as (z & H1 & ->). simpl. auto.
  - destruct H as (z & _ & ->). simpl. lia.
  - destruct H as [-> _]. lia.
Qed.

(** One unfolding of RepeatMatcher when another iteration is allowed. *)
Lemma RepeatMatcher_step budget m inner min max greedy x c :
  max <> Some 0 ->
  RepeatMatcher (S budget) m inner min max greedy x c
  = let d : Continuation := fun y =>
      if Nat.eqb min 0 && Nat.eqb (length (rest y)) (length (rest x))
      then failure
      else RepeatMatcher budget m inner (Nat.pred min)
             (option_map Nat.pred max) greedy y c in
    if negb (Nat.eqb min 0) then m (reset_inner inner x) d
    else if negb greedy then
      match c x with
      | failure => m (reset_inner inner x) d
      | z => z
      end
    else
      match m (reset_inner inner x) d with
      | failure => c x
      | z => z
      end.
Proof. destruct max as [[|k]|]; [congruence|reflexivity|reflexivity]. Qed.

Lemma RepeatMatcher_result (m : Matcher) (M : MatchState -> MatchState -> Prop)
  (inner : list nat) (greedy : bool) :
  answers m M ->
  (forall a b, M a b -> length (rest b) <= length (rest a)) ->
  forall budget min max x c,
    min + length (rest x) < budget ->
    match max with Some k => min <= k | None => True end ->
    RepeatMatcher budget m inner min max greedy x c = failure
    \/ exists n y, within n min max
                   /\ iterate n (fun a b => M (reset_inner inner a) b) x y
                   /\ RepeatMatcher budget m inner min max greedy x c = c y.
Proof.
  intros Hm Hshrink budget.
  induction budget as [|budget IH]; intros min max x c Hb Hmax; [lia|].
  (* no iteration: the continuation at [x] *)
  assert (Hzero : min = 0 ->
            c x = failure
            \/ exists n y, within n min max
                 /\ iterate n (fun a b => M (reset_inner inner a) b) x y
                 /\ c x = c y).
  { intros ->. right. exists 0, x. split; [|split; simpl; auto].
    split; [lia|destruct max; [lia|exact I]]. }
  assert (Hcase : max = Some 0 \/ max <> Some 0)
    by (destruct max as [[|k]|];
        [left; reflexivity|right; discriminate|right; discriminate]).
  destruct Hcase as [->|Hnz].
  { replace min with 0 in * by lia. destruct budget; apply Hzero; reflexivity. }
  (* one iteration, then the rest of the repetition *)
  assert (Hstep : forall d,
    (forall y, d y = (if Nat.eqb min 0 && Nat.eqb (length (rest y)) (length (rest x))
                      then failure
                      else RepeatMatcher budget m inner (Nat.pred min)
                             (option_map Nat.pred max) greedy y c)) ->
    m (reset_inner inner x) d = failure
    \/ exists n y, within n min max
         /\ iterate n (fun a b => M (reset_inner inner a) b) x y
         /\ m (reset_inner inner x) d = c y).
  { intros d Hd.
    destruct (Hm (reset_inner inner x) d) as [E|(y & Hy & E)]; [now left|].
    rewrite E, Hd.
    destruct (Nat.eqb min 0 && Nat.eqb (length (rest y)) (length (rest x))) eqn:Echk;
      [now left|].
    assert (Hlen : length (rest y) <= length (rest x))
      by (apply Hshrink in Hy; exact Hy).
    destruct (IH (Nat.pred min) (option_map Nat.pred max) y c)
      as [E'|(n & y' & Hw & Hit & E')].
    - apply andb_false_iff in Echk.
      destruct Echk as [Echk|Echk]; apply Nat.eqb_neq in Echk; lia.
    - destruct max as [[|k]|]; simpl; try lia; congruence.
    - now left.
    - right. exists (S n), y'. split; [|split].
      + destruct Hw as [Hw1 Hw2]. split; [lia|].
        destruct max as [[|k]|]; simpl in *; try lia; congruence.
      + simpl. exists y. split; assumption.
      + exact E'. }
  rewrite (RepeatMatcher_step budget m inner min max greedy x c Hnz). cbv zeta.
  match goal with |- context [m (reset_inner inner x) ?d] =>
    specialize (Hstep d (fun y => eq_refl)); set (k := d) in * end.
  destruct (Nat.eqb min 0) eqn:Emin; cbn [negb]; [|exact Hstep].
  apply Nat.eqb_eq in Emin. specialize (Hzero Emin).
  destruct greedy; cbn [negb].
  - (* greedy: the iteration first, [c x] when it fails *)
    destruct Hstep as [E|(n & y & Hw & Hit & E)]; rewrite E; [exact Hzero|].
    destruct (c y) eqn:Ey; [exact Hzero| |];
      right; exists n, y; rewrite <- Ey; auto.
  - (* lazy: [c x] first, the iteration when it fails *)
    destruct Hzero as [E|(n & y & Hw & Hit & E)]; [now rewrite E|].
    destruct (c x) eqn:Ecx; [exact Hstep| |]; right; exists n, y; auto.
Qed.

(** The matcher of a term answers with a failure or with what its
    continuation says at a state the term reaches; in particular it never
    stalls on its own. *)
Lemma compile_result r : well_formed r = true -> answers (compile f r) (Spans f r).
Proof.
  induction r; simpl; intros Hwf x c.
  - right; exists x; auto.
  - destruct (rest x) as [|ch s] eqn:Ex; [now left|].
    destruct (class_matches f cl ch) eqn:Ecl; [|now left].
    right. eexists. split; [|reflexivity]. exists ch, s. auto.
  - apply andb_true_iff in Hwf. destruct Hwf as [H1 H2].
    destruct (IHr1 H1 x (fun y => compile f r2 y c)) as [E|(z & Hz & E)]; [now left|].
    rewrite E.
    destruct (IHr2 H2 z c) as [E2|(y & Hy & E2)]; [now left|].
    right. exists y. split; [exists z; auto|exact E2].
  - apply andb_true_iff in Hwf. destruct Hwf as [H1 H2].
    destruct (IHr1 H1 x c) as [E|(y & Hy & E)].
    + rewrite E.
      destruct (IHr2 H2 x c) as [E2|(y & Hy & E2)]; [now left|].
      right. exists y. auto.
    + destruct (compile f r1 x c) eqn:E1.
      * destruct (IHr2 H2 x c) as [E2|(y' & Hy' & E2)]; [now left|].
        right. exists y'. auto.
      * right. exists y. auto.
      * right. exists y. auto.
  - apply andb_true_iff in Hwf. destruct Hwf as [Hb Hr].
    destruct (RepeatMatcher_result _ _ (groups r) greedy (IHr Hr) (Spans_shrinks r)
                (S (min + length (rest x))) min max x c) as [E|(n & y & Hw & Hit & E)].
    + lia.
    + destruct max; [apply Nat.leb_le; exact Hb|exact I].
    + now left.
    + right. exists y. split; [exists n; auto|exact E].
  - destruct (IHr Hwf x
      (fun y => c {| rest := rest y;
                     captures := set_capture i (Some (taken x y)) (captures y) |}))
      as [E|(z & Hz & E)]; [now left|].
    right. eexists. split; [exists z; split; [exact Hz|reflexivity]|exact E].
  - destruct (IHr Hwf x success) as [E|(z & Hz & E)].
    + rewrite E. now left.
    + rewrite E. right. eexists. split; [exists z; split; [exact Hz|reflexivity]|reflexivity].
  - destruct (at_end f (rest x)) eqn:E; [|now left].
    right. exists x. auto.
Qed.

(** A match at an index succeeds or fails; it does not stall. *)
Lemma match_at_result r s :
  well_formed r = true ->
  match_at f r s = failure
  \/ exists y, Spans f r {| rest := s; captures := no_captures |} y
               /\ match_at f r s = success y.
Proof.
  intros Hwf. unfold match_at.
  destruct (compile_result r Hwf {| rest := s; captures := no_captures |} success)
    as [E|(y & Hy & E)]; [now left|].
  right. exists y. auto.
Qed.

Lemma scan_result_cases r s :
  well_formed r = true ->
  scan f r s = NoMatch
  \/ exists from y, is_suffix from s
       /\ Spans f r {| rest := from; captures := no_captures |} y
       /\ scan f r s = Found from y.
Proof.
  intros Hwf. induction s as [|a s IH]; simpl.
  - destruct (match_at_result r [] Hwf) as [E|(y & Hy & E)]; rewrite E; [now left|].
    right. exists [], y. split; [exists []; reflexivity|auto].
  - destruct (match_at_result r (a :: s) Hwf) as [E|(y & Hy & E)]; rewrite E.
    + destruct IH as [E'|(from & y & (w & Hw) & Hy & E')]; [now left|].
      right. exists from, y. split; [exists (a :: w); simpl; congruence|auto].
    + right. exists (a :: s), y. split; [exists []; reflexivity|auto].
Qed.

Lemma is_suffix_refl s : is_suffix s s.
Proof. exists []; reflexivity. Qed.

Lemma is_suffix_trans a b c : is_suffix a b -> is_suffix b c -> is_suffix a c.
Proof.
  intros (w1 & ->) (w2 & ->). exists (w2 ++ w1). now rewrite app_assoc.
Qed.

Lemma is_suffix_length t s : is_suffix t s -> length t <= length s.
Proof. intros (w & ->). rewrite length_app. lia. Qed.

Lemma iterate_suffix (step : MatchState -> MatchState -> Prop) :
  (forall a b, step a b -> is_suffix (rest b) (rest a)) ->
  forall n x y, iterate n step x y -> is_suffix (rest y) (rest x).
Proof.
  intros Hstep n; induction n as [|n IH]; simpl; intros x y H.
  - subst; apply is_suffix_refl.
  - destruct H as (z & Hz & Hit).
    eapply is_suffix_trans; [apply IH; exact Hit|apply Hstep; exact Hz].
Qed.

(** What is left after a match is a suffix of what was there before. *)
Lemma Spans_suffix r :
  forall x y, Spans f r x y -> is_suffix (rest y) (rest x).
Proof.
  induction r; simpl; intros x y H.
  - subst; apply is_suffix_refl.
  - destruct H as (ch & s & Hx & _ & ->). rewrite Hx. exists [ch]. reflexivity.
  - destruct H as (z & H1 & H2).
    eapply is_suffix_trans; [apply IHr2; exact H2|apply IHr1; exact H1].
  - destruct H as [H|H]; auto.
  - destruct H as (n & _ & Hit).
    apply iterate_suffix in Hit; auto.
    intros a b Hab. apply IHr in Hab. exact Hab.
  - destruct H as (z & H1 & ->). simpl. auto.
  - destruct H as (z & _ & ->). simpl. apply is_suffix_refl.
  - destruct H as [-> _]. apply is_suffix_refl.
Qed.

Lemma iterate_width (step : MatchState -> MatchState -> Prop) w :
  (forall a b, step a b -> length (rest b) + w <= length (rest a)) ->
  forall n x y, iterate n step x y -> length (rest y) + n * w <= length (rest x).
Proof.
  intros Hstep n; induction n as [|n IH]; simpl; intros x y H.
  - subst; lia.
  - destruct H as (z & Hz & Hit). apply Hstep in Hz. apply IH in Hit. lia.
Qed.

(** A match takes at least [min_width] characters. *)
Lemma Spans_min_width r :
  forall x y, Spans f r x y -> length (rest y) + min_width r <= length (rest x).
Proof.
  induction r; simpl; intros x y H.
  - subst; lia.
  - destruct H as (ch & s & Hx & _ & ->). rewrite Hx; simpl; lia.
  - destruct H as (z & H1 & H2). apply IHr1 in H1. apply IHr2 in H2. lia.
  - destruct H as [H|H]; [apply IHr1 in H|apply IHr2 in H]; lia.
  - destruct H as (n & [Hmin _] & Hit).
    apply (iterate_width _ (min_width r)) in Hit.
    + assert (min * min_width r <= n * min_width r)
        by (apply Nat.mul_le_mono_r; exact Hmin).
      lia.
    + intros a b Hab. apply IHr in Hab. exact Hab.
  - destruct H as (z & H1 & ->). simpl. auto.
  - destruct H as (z & _ & ->). simpl. lia.
  - destruct H as [-> _]. lia.
Qed.

Lemma clear_captures_other gs cap i :
  existsb (Nat.eqb i) gs = false -> clear_captures gs cap i = cap i.
Proof.
  induction gs as [|g gs IH]; simpl; [reflexivity|].
  intros H. apply orb_false_iff in H. destruct H as [Hg Hgs].
  unfold set_capture. rewrite Hg. auto.
Qed.

Lemma iterate_preserves (step : MatchState -> MatchState -> Prop) i :
  (forall a b, step a b -> captures b i = captures a i) ->
  forall n x y, iterate n step x y -> captures y i = captures x i.
Proof.
  intros Hstep n; induction n as [|n IH]; simpl; intros x y H.
  - subst; reflexivity.
  - destruct H as (z & Hz & Hit). apply Hstep in Hz. apply IH in Hit. congruence.
Qed.

(** A term leaves the captures of the groups outside it alone. *)
Lemma Spans_preserves i r :
  forall x y, Spans f r x y -> existsb (Nat.eqb i) (groups r) = false ->
              captures y i = captures x i.
Proof.
  induction r; simpl; intros x y H Hi.
  - subst; reflexivity.
  - destruct H as (ch & s & _ & _ & ->). reflexivity.
  - rewrite existsb_app in Hi. apply orb_false_iff in Hi. destruct Hi as [Hi1 Hi2].
    destruct H as (z & H1 & H2).
    rewrite (IHr2 _ _ H2 Hi2). apply (IHr1 _ _ H1 Hi1).
  - rewrite existsb_app in Hi. apply orb_false_iff in Hi. destruct Hi as [Hi1 Hi2].
    destruct H as [H|H]; auto.
  - destruct H as (n & _ & Hit).
    apply (iterate_preserves _ i) in Hit; auto.
    intros a b Hab. rewrite (IHr _ _ Hab Hi). simpl.
    apply clear_captures_other. exact Hi.
  - apply orb_false_iff in Hi. destruct Hi as [Hij Hi].
    destruct H as (z & H1 & ->). simpl. unfold set_capture. rewrite Hij.
    apply (IHr _ _ H1 Hi).
  - destruct H as (z & H1 & ->). simpl. apply (IHr _ _ H1 Hi).
  - destruct H as [-> _]. reflexivity.
Qed.

(** After a match, the groups the term always sets are defined. *)
Lemma Spans_sets i r :
  always_sets i r = true ->
  forall x y, Spans f r x y -> captures y i <> None.
Proof.
  induction r; simpl; intros Hs x y H; try discriminate.
  - destruct H as (z & H1 & H2).
    apply orb_true_iff in Hs. destruct Hs as [Hs|Hs].
    + apply (IHr2 Hs _ _ H2).
    + apply andb_true_iff in Hs. destruct Hs as [Hs1 Hg].
      apply negb_true_iff in Hg.
      rewrite (Spans_preserves i r2 _ _ H2 Hg). apply (IHr1 Hs1 _ _ H1).
  - apply andb_true_iff in Hs. destruct Hs as [Hs1 Hs2].
    destruct H as [H|H]; [apply (IHr1 Hs1 _ _ H)|apply (IHr2 Hs2 _ _ H)].
  - destruct H as (z & H1 & ->). simpl. unfold set_capture.
    destruct (Nat.eqb i i0) eqn:E; [discriminate|].
    apply orb_true_iff in Hs. destruct Hs as [Hs|Hs]; [congruence|].
    apply (IHr Hs _ _ H1).
  - destruct H as (z & H1 & ->). simpl. apply (IHr Hs _ _ H1).
Qed.

End MatcherTheory.

(** ** Whitespace normalisation *)

Section Normalise.

Import RegExp Spec.

Lemma takeWhile_dropWhile p s : takeWhile p s ++ dropWhile p s = s.
Proof.
  induction s as [|c s IH]; simpl; [reflexivity|].
  destruct (p c); simpl; [now rewrite IH|reflexivity].
Qed.

Lemma dropWhile_length p s : length (dropWhile p s) <= length s.
Proof.
  induction s as [|c s IH]; simpl; [lia|].
  destruct (p c); simpl; lia.
Qed.

Variable fl : flags.

Lemma char_matcher_eq cl x c :
  char_matcher fl cl x c
  = match rest x with
    | ch :: s =>
        if class_matches fl cl ch
        then c {| rest := s; captures := captures x |}
        else failure
    | [] => failure
    end.
Proof. reflexivity. Qed.

(** A greedy [cl*] in front of the final continuation takes the longest run. *)
Lemma greedy_star_run cl budget s cap :
  length s < budget ->
  RepeatMatcher budget (char_matcher fl cl) [] 0 None true
    {| rest := s; captures := cap |} success
  = success {| rest := dropWhile (class_matches fl cl) s; captures := cap |}.
Proof.
  revert s. induction budget as [|budget IH]; intros s Hb; [lia|].
  cbn [RepeatMatcher Nat.eqb negb andb Nat.pred option_map].
  rewrite char_matcher_eq. unfold reset_inner, clear_captures.
  cbn [rest captures fold_right].
  destruct s as [|ch s]; [reflexivity|].
  cbn [dropWhile].
  destruct (class_matches fl cl ch) eqn:Ecl; [|reflexivity].
  replace (Nat.eqb (length s) (length (ch :: s))) with false
    by (symmetry; apply Nat.eqb_neq; simpl; lia).
  simpl in Hb. rewrite IH by lia. reflexivity.
Qed.

(** At an index, [cl+] matches the longest run of [cl], if there is one. *)
Lemma plus_run cl s :
  match_at fl (plus (RChar cl)) s
  = match s with
    | ch :: s' =>
        if class_matches fl cl ch
        then success {| rest := dropWhile (class_matches fl cl) s';
                        captures := no_captures |}
        else failure
    | [] => failure
    end.
Proof.
  unfold match_at, plus.
  change (compile fl (RRepeat (RChar cl) 1 None true)
            {| rest := s; captures := no_captures |} success)
    with (RepeatMatcher (S (1 + length s)) (char_matcher fl cl) [] 1 None true
            {| rest := s; captures := no_captures |} success).
  cbn [RepeatMatcher Nat.eqb negb andb Nat.pred option_map].
  rewrite char_matcher_eq. unfold reset_inner, clear_captures.
  cbn [rest captures fold_right].
  destruct s as [|ch s]; [reflexivity|].
  destruct (class_matches fl cl ch) eqn:Ecl; [|reflexivity].
  apply greedy_star_run. simpl; lia.
Qed.

Lemma scan_plus_run cl s :
  scan fl (plus (RChar cl)) s
  = match dropWhile (fun c => negb (class_matches fl cl c)) s with
    | [] => NoMatch
    | ch :: s' =>
        Found (ch :: s')
          {| rest := dropWhile (class_matches fl cl) s'; captures := no_captures |}
    end.
Proof.
  induction s as [|ch s IH].
  - reflexivity.
  - cbn [scan]. rewrite plus_run. cbn [dropWhile].
    destruct (class_matches fl cl ch) eqn:Ecl; simpl; [reflexivity|exact IH].
Qed.

Lemma skipn_length_app (pre t : jsstring) : skipn (length pre) (pre ++ t) = t.
Proof. induction pre; simpl; auto. Qed.

Lemma firstn_length_app (a b : jsstring) : firstn (length a) (a ++ b) = a.
Proof. induction a; simpl; congruence. Qed.

Lemma dropWhile_head p s c s' : dropWhile p s = c :: s' -> p c = false.
Proof.
  induction s as [|a s IH]; simpl; [discriminate|].
  destruct (p a) eqn:E; [exact IH|]. intros H; injection H as -> _. exact E.
Qed.

Lemma collapse_no_space t :
  dropWhile (fun c => negb (is_space c)) t = [] -> collapse false t = t.
Proof.
  induction t as [|c t IH]; simpl; [reflexivity|].
  destruct (is_space c); simpl; [discriminate|].
  intros H. now rewrite IH.
Qed.

Lemma collapse_in_run s : collapse true s = collapse false (dropWhile is_space s).
Proof.
  induction s as [|c s IH]; simpl; [reflexivity|].
  destruct (is_space c) eqn:E; [exact IH|]. simpl. now rewrite E.
Qed.

Lemma collapse_split t ch s' :
  dropWhile (fun c => negb (is_space c)) t = ch :: s' ->
  collapse false t
  = takeWhile (fun c => negb (is_space c)) t
      ++ 32%N :: collapse false (dropWhile is_space s').
Proof.
  induction t as [|c t IH]; simpl; [discriminate|].
  destruct (is_space c) eqn:E; simpl.
  - intros H; injection H as -> ->. now rewrite collapse_in_run.
  - intros H. now rewrite (IH H).
Qed.

End Normalise.

Section ReplaceWhitespace.

Import RegExp Spec Scraper.

Lemma exec_whitespace_runs pre t :
  exec (set_lastIndex whitespace_runs (length pre)) (pre ++ t)
  = match dropWhile not_space t with
    | [] => (Null, set_lastIndex whitespace_runs 0)
    | ch :: s' =>
        (MatchArray (length (pre ++ t) - length (ch :: s'))
           {| rest := dropWhile is_space s'; captures := no_captures |},
         set_lastIndex whitespace_runs
           (length (pre ++ t) - length (dropWhile is_space s')))
    end.
Proof.
  unfold exec.
  cbn [flag pattern lastIndex global set_lastIndex whitespace_runs].
  replace (length (pre ++ t) <? length pre) with false
    by (symmetry; apply Nat.ltb_ge; rewrite length_app; lia).
  rewrite skipn_length_app, scan_plus_run.
  cbn [class_matches]. fold not_space.
  destruct (dropWhile not_space t); reflexivity.
Qed.

(** The loop of [replace] from an index of the input on: what is left is
    collapsed and appended. *)
Lemma replace_loop_whitespace budget :
  forall pre t acc,
    length t + 1 < budget ->
    replace_loop budget (set_lastIndex whitespace_runs (length pre)) (pre ++ t)
      (js " ") (length pre) acc
    = Normal (acc ++ collapse false t).
Proof.
  induction budget as [|budget IH]; intros pre t acc Hb; [lia|].
  cbn [replace_loop]. rewrite exec_whitespace_runs.
  destruct (dropWhile not_space t) as [|ch s'] eqn:Ed.
  - rewrite skipn_length_app, (collapse_no_space t Ed). reflexivity.
  - pose proof (takeWhile_dropWhile not_space t) as Ht. rewrite Ed in Ht.
    pose proof (takeWhile_dropWhile is_space s') as Hs.
    set (w := takeWhile not_space t) in *.
    set (v := dropWhile is_space s') in *.
    set (sp := takeWhile is_space s') in *.
    assert (HS : pre ++ t = (pre ++ w ++ ch :: sp) ++ v).
    { rewrite <- Ht, <- Hs. repeat rewrite <- app_assoc. reflexivity. }
    assert (Hlen : length t = length w + S (length sp + length v)).
    { rewrite <- Ht, <- Hs, length_app. simpl. rewrite length_app. reflexivity. }
    assert (He : length (pre ++ t) - length v = length (pre ++ w ++ ch :: sp)).
    { rewrite HS. rewrite length_app. lia. }
    assert (Hi : length (pre ++ t) - length (ch :: s') = length pre + length w).
    { rewrite length_app, Hlen, <- Hs. simpl. rewrite length_app. lia. }
    cbn [rest]. rewrite He, Hi.
    replace (Nat.eqb (length (pre ++ w ++ ch :: sp)) (length pre + length w))
      with false
      by (symmetry; apply Nat.eqb_neq; repeat rewrite length_app; simpl; lia).
    replace (length pre <=? length pre + length w) with true
      by (symmetry; apply Nat.leb_le; lia).
    assert (Hsub : substring (length pre) (length pre + length w) (pre ++ t) = w).
    { unfold substring. rewrite skipn_length_app.
      replace (length pre + length w - length pre) with (length w) by lia.
      rewrite <- Ht. apply firstn_length_app. }
    rewrite Hsub.
    rewrite HS at 1.
    rewrite IH by lia.
    rewrite (collapse_split t _ _ Ed). fold not_space w v.
    repeat rewrite <- app_assoc. reflexivity.
Qed.

(** [s.replace(/\s+/g, " ")] collapses every run of whitespace. *)
Lemma replace_whitespace_runs s :
  replace whitespace_runs s (js " ") = Normal (collapse false s).
Proof.
  unfold replace.
  apply (replace_loop_whitespace (S (S (length s))) [] s []). lia.
Qed.

End ReplaceWhitespace.

Section TrimCollapse.

Import Spec Scraper.

Lemma dropWhile_snoc p a c :
  dropWhile p (a ++ [c])
  = match dropWhile p a with
    | [] => if p c then [] else [c]
    | d => d ++ [c]
    end.
Proof.
  induction a as [|x a IH]; simpl; [reflexivity|].
  destruct (p x); [exact IH|reflexivity].
Qed.

Lemma trimEnd_cons c s :
  trimEnd (c :: s)
  = match trimEnd s with
    | [] => if is_space c then [] else [c]
    | y => c :: y
    end.
Proof.
  unfold trimEnd. simpl rev at 2. rewrite dropWhile_snoc.
  destruct (dropWhile is_space (rev s)) as [|d ds] eqn:E.
  - simpl. destruct (is_space c); reflexivity.
  - rewrite rev_app_distr. simpl rev at 1. simpl.
    destruct (rev ds ++ [d]) eqn:E'; [|reflexivity].
    destruct (rev ds); discriminate.
Qed.

Lemma words_nonempty s : Forall (fun w => w <> []) (words s).
Proof.
  induction s as [|c s IH]; simpl; [constructor|].
  destruct (is_space c); [exact IH|].
  destruct s as [|c' s']; [repeat constructor; discriminate|].
  destruct (is_space c'); [constructor; [discriminate|exact IH]|].
  destruct (words (c' :: s')) as [|w ws]; [repeat constructor; discriminate|].
  inversion IH; subst. constructor; [discriminate|assumption].
Qed.

Lemma words_head c s : is_space c = false -> words (c :: s) <> [].
Proof.
  intros E. simpl. rewrite E.
  destruct s as [|c' s']; [discriminate|].
  destruct (is_space c'); [discriminate|].
  destruct (words (c' :: s')); discriminate.
Qed.

Lemma join_cons_nonempty sep w ws : w <> [] -> join sep (w :: ws) <> [].
Proof.
  intros Hw. destruct w as [|a w]; [congruence|].
  destruct ws; simpl; discriminate.
Qed.

Lemma fragment_text_nil s : fragment_text s = [] -> words s = [].
Proof.
  unfold fragment_text. intros H.
  pose proof (words_nonempty s) as Hne.
  destruct (words s) as [|w ws]; [reflexivity|].
  inversion Hne; subst.
  exfalso. exact (join_cons_nonempty (js " ") w ws H2 H).
Qed.

Lemma join_cons_head sep c w ws :
  join sep ((c :: w) :: ws) = c :: join sep (w :: ws).
Proof. destruct ws; reflexivity. Qed.

Lemma trimEnd_collapse s :
  trimEnd (collapse true s) = fragment_text s
  /\ trimEnd (collapse false s)
     = (if starts_with_space s
        then match fragment_text s with [] => [] | w => 32%N :: w end
        else fragment_text s).
Proof.
  induction s as [|c s [IHa IHb]]; [split; reflexivity|].
  unfold fragment_text in *. simpl collapse. simpl starts_with_space.
  cbn [words].
  destruct (is_space c) eqn:Ec.
  - split; [exact IHa|].
    rewrite trimEnd_cons, IHa.
    destruct (join (js " ") (words s)); reflexivity.
  - assert (H : trimEnd (c :: collapse false s)
                = join (js " ")
                    match s with
                    | [] => [[c]]
                    | c' :: _ =>
                        if is_space c' then [c] :: words s
                        else match words s with
                             | w :: ws => (c :: w) :: ws
                             | [] => [[c]]
                             end
                    end).
    { rewrite trimEnd_cons, IHb, Ec.
      destruct s as [|c' s']; [reflexivity|].
      simpl starts_with_space.
      destruct (is_space c') eqn:Ec'.
      - destruct (join (js " ") (words (c' :: s'))) eqn:Ej.
        + apply fragment_text_nil in Ej. rewrite Ej. reflexivity.
        + destruct (words (c' :: s')) as [|w ws]; [discriminate|].
          change (join (js " ") ([c] :: w :: ws))
            with ([c] ++ js " " ++ join (js " ") (w :: ws)).
          rewrite Ej. reflexivity.
      - pose proof (words_head c' s' Ec') as Hne.
        pose proof (words_nonempty (c' :: s')) as Hall.
        destruct (words (c' :: s')) as [|w ws]; [congruence|].
        inversion Hall; subst.
        rewrite join_cons_head.
        destruct (join (js " ") (w :: ws)) eqn:Ej; [|reflexivity].
        exfalso. exact (join_cons_nonempty (js " ") w ws H1 Ej). }
    split; exact H.
Qed.

Lemma collapse_no_leading_space s :
  dropWhile is_space (collapse true s) = collapse true s.
Proof.
  induction s as [|c s IH]; simpl; [reflexivity|].
  destruct (is_space c) eqn:E; [exact IH|]. simpl. now rewrite E.
Qed.

Lemma trimStart_collapse s : trimStart (collapse false s) = collapse true s.
Proof.
  unfold trimStart. destruct s as [|c s]; simpl; [reflexivity|].
  destruct (is_space c) eqn:E; simpl.
  - apply collapse_no_leading_space.
  - now rewrite E.
Qed.

(** The normalisation of [scrapePage] yields the words of the text joined
    by single spaces. *)
Lemma normalise_fragment_text s : normalise s = Normal (fragment_text s).
Proof.
  unfold normalise. rewrite replace_whitespace_runs. simpl bind.
  unfold trim. rewrite trimStart_collapse.
  f_equal. apply trimEnd_collapse.
Qed.

End TrimCollapse.

(** ** The Pair Extractor *)

Section PairExtractor.

Import RegExp Flashcards Spec.

Lemma strip_prefix_app p s : strip_prefix p (p ++ s) = Some s.
Proof.
  induction p as [|a p IH]; simpl; [reflexivity|].
  now rewrite N.eqb_refl.
Qed.

Lemma includes_app needle pre post :
  includes needle (pre ++ needle ++ post) = true.
Proof.
  induction pre as [|a pre IH].
  - simpl app. pose proof (strip_prefix_app needle post) as H.
    destruct (needle ++ post); simpl; now rewrite H.
  - simpl app. simpl includes. rewrite IH.
    destruct (strip_prefix needle (a :: pre ++ needle ++ post)); reflexivity.
Qed.

Lemma Spans_seq_cons fl r r' rs x y :
  Spans fl (seq (r :: r' :: rs)) x y ->
  exists z, Spans fl r x z /\ Spans fl (seq (r' :: rs)) z y.
Proof. intros H. exact H. Qed.

Lemma Spans_lit2 fl a b x y :
  Spans fl (RSeq (RChar (CLit a)) (RChar (CLit b))) x y ->
  rest x = a :: b :: rest y.
Proof.
  intros (z & (ch & s & Hx & Hch & ->) & (ch' & s' & Hz & Hch' & ->)).
  simpl in *. apply N.eqb_eq in Hch, Hch'. subst. rewrite Hx. reflexivity.
Qed.

Ltac seq_step H z Hz :=
  apply Spans_seq_cons in H; destruct H as (z & Hz & H).

(** Every match of the pattern holds a "Q:" and, after it, an "A:". *)
Lemma regex_source_markers x y :
  Spans regex_flags regex_source x y ->
  exists a b c, rest x = a ++ js "Q:" ++ b ++ js "A:" ++ c.
Proof.
  unfold regex_source. intros H.
  seq_step H z1 H1. seq_step H z2 H2. seq_step H z3 H3. seq_step H z4 HQ.
  seq_step H z5 H5. seq_step H z6 H6. seq_step H z7 H7. seq_step H z8 H8.
  seq_step H z9 H9. seq_step H z10 HA.
  apply Spans_suffix in H1, H2, H3, H5, H6, H7, H8, H9.
  apply Spans_lit2 in HQ, HA.
  destruct H1 as (w1 & E1), H2 as (w2 & E2), H3 as (w3 & E3).
  destruct H5 as (w5 & E5), H6 as (w6 & E6), H7 as (w7 & E7).
  destruct H8 as (w8 & E8), H9 as (w9 & E9).
  exists (w1 ++ w2 ++ w3), (w5 ++ w6 ++ w7 ++ w8 ++ w9), (rest z10).
  rewrite E1, E2, E3, HQ, E5, E6, E7, E8, E9, HA.
  repeat rewrite <- app_assoc. reflexivity.
Qed.

Lemma regex_source_facts :
  well_formed regex_source = true
  /\ always_sets 1 regex_source = true
  /\ always_sets 2 regex_source = true
  /\ min_width regex_source = 6.
Proof. repeat split; reflexivity. Qed.

(** One [regex.exec(content)] of the loop. *)
Lemma exec_regex i content :
  exec (set_lastIndex new_regex i) content = (Null, set_lastIndex new_regex 0)
  \/ exists from y,
       is_suffix from (skipn i content) /\ i <= length content
       /\ Spans regex_flags regex_source {| rest := from; captures := no_captures |} y
       /\ exec (set_lastIndex new_regex i) content
          = (MatchArray (length content - length from) y,
             set_lastIndex new_regex (length content - length (rest y))).
Proof.
  unfold exec.
  cbn [flag pattern lastIndex global set_lastIndex new_regex regex_flags].
  destruct (length content <? i) eqn:Ei; [now left|].
  apply Nat.ltb_ge in Ei.
  destruct (scan_result_cases regex_flags regex_source (skipn i content))
    as [E|(from & y & Hsuf & Hy & E)]; [reflexivity| |]; rewrite E.
  - now left.
  - right. exists from, y. auto.
Qed.

Lemma is_suffix_skipn i (s : jsstring) : is_suffix (skipn i s) s.
Proof. exists (firstn i s). symmetry. apply firstn_skipn. Qed.

(** The loop of [formatResponse] ends, and ends normally. *)
Lemma collect_total budget :
  forall content i cards,
    length content - i < budget ->
    exists more,
      collect budget content (set_lastIndex new_regex i) cards
      = Normal (cards ++ more).
Proof.
  induction budget as [|budget IH]; intros content i cards Hb; [lia|].
  cbn [collect].
  destruct (exec_regex i content) as [E|(from & y & Hsuf & Hi & Hy & E)]; rewrite E.
  - exists []. now rewrite app_nil_r.
  - destruct regex_source_facts as (_ & Hs1 & Hs2 & Hw).
    pose proof (Spans_sets regex_flags 1 regex_source Hs1 _ _ Hy) as H1.
    pose proof (Spans_sets regex_flags 2 regex_source Hs2 _ _ Hy) as H2.
    pose proof (Spans_min_width regex_flags regex_source _ _ Hy) as Hmw.
    rewrite Hw in Hmw. simpl in Hmw.
    apply is_suffix_length in Hsuf. rewrite length_skipn in Hsuf.
    unfold group.
    destruct (captures y 1) as [m1|]; [|congruence].
    destruct (captures y 2) as [m2|]; [|congruence].
    destruct (IH content (length content - length (rest y))
                (cards ++ [{| front := trim m1; back := trim m2 |}]))
      as (more & Hmore); [lia|].
    rewrite Hmore. eexists. rewrite <- app_assoc. reflexivity.
Qed.

(** Without a "Q:" or without an "A:" the first [exec] finds nothing. *)
Lemma exec_no_markers content :
  includes (js "Q:") content = false \/ includes (js "A:") content = false ->
  exec (set_lastIndex new_regex 0) content = (Null, set_lastIndex new_regex 0).
Proof.
  intros Hno.
  destruct (exec_regex 0 content) as [E|(from & y & (w & Hw) & _ & Hy & _)];
    [exact E|exfalso].
  apply regex_source_markers in Hy. destruct Hy as (a & b & c & Hy).
  cbn [skipn] in Hw. cbn [rest] in Hy. subst from. subst content.
  destruct Hno as [Hno|Hno].
  - rewrite (app_assoc w a) in Hno. rewrite includes_app in Hno. discriminate.
  - replace (w ++ a ++ js "Q:" ++ b ++ js "A:" ++ c)
      with ((w ++ a ++ js "Q:" ++ b) ++ js "A:" ++ c) in Hno
      by (repeat rewrite <- app_assoc; reflexivity).
    rewrite includes_app in Hno. discriminate.
Qed.

(** Every match of the pattern ends right in front of a line feed: each of
    the three alternatives of the lookahead starts with [\n]. *)
Lemma regex_source_ends_before_newline x y :
  Spans regex_flags regex_source x y -> exists t, rest y = 10%N :: t.
Proof.
  unfold regex_source. intros H.
  seq_step H z1 H1. seq_step H z2 H2. seq_step H z3 H3. seq_step H z4 H4.
  seq_step H z5 H5. seq_step H z6 H6. seq_step H z7 H7. seq_step H z8 H8.
  seq_step H z9 H9. seq_step H z10 H10. seq_step H z11 H11. seq_step H z12 H12.
  destruct H as (z & Hz & ->). cbn [rest].
  assert (Hlf : forall r a b, Spans regex_flags (RSeq LF r) a b ->
                              exists t, rest a = 10%N :: t).
  { intros r a b (m & (ch & s & Ha & Hch & _) & _).
    cbn [class_matches] in Hch. apply N.eqb_eq in Hch. subst ch. now exists s. }
  destruct Hz as [Hz|[Hz|Hz]]; eapply Hlf; exact Hz.
Qed.

(** So a text without any line feed yields no card at all. *)
Lemma exec_no_newline content :
  existsb (N.eqb 10) content = false ->
  exec (set_lastIndex new_regex 0) content = (Null, set_lastIndex new_regex 0).
Proof.
  intros Hno.
  destruct (exec_regex 0 content) as [E|(from & y & Hsuf & _ & Hy & _)];
    [exact E|exfalso].
  pose proof (Spans_suffix _ _ _ _ Hy) as (w1 & Hw1).
  apply regex_source_ends_before_newline in Hy. destruct Hy as (t & Ht).
  destruct Hsuf as (w2 & Hw2). cbn [skipn rest] in *. subst.
  rewrite Ht in Hno. repeat rewrite existsb_app in Hno. simpl in Hno.
  repeat rewrite orb_true_r in Hno. discriminate.
Qed.

End PairExtractor.

Section PairExtractorClaims.

Import RegExp Flashcards Spec Examples.

(** C1: on "Q: What is 2+2? A: 4\nQ: What is the capital of France? A: Paris"
    (no trailing newline) [formatResponse] returns the first pair only; the
    final block is not matched, since no alternative of the lookahead accepts
    the end of the input without a line feed in front of it. *)
Theorem formatResponse_drops_final_block :
  formatResponse
    (reply (js "Q: What is 2+2? A: 4" ++ LFs
            ++ js "Q: What is the capital of France? A: Paris"))
  = Normal [ {| front := js "What is 2+2?"; back := js "4" |} ].
Proof. vm_compute. reflexivity. Qed.

(** With a line feed at the end, both pairs of that text are returned. *)
Lemma formatResponse_two_blocks_trailing_newline :
  formatResponse
    (reply (js "Q: What is 2+2? A: 4" ++ LFs
            ++ js "Q: What is the capital of France? A: Paris" ++ LFs))
  = Normal [ {| front := js "What is 2+2?"; back := js "4" |};
             {| front := js "What is the capital of France?";
                back := js "Paris" |} ].
Proof. vm_compute. reflexivity. Qed.

(** C3: on "1. **Q: Foo? A: Bar**\n2. **Q: Baz? A: Qux**" [formatResponse]
    returns one pair, and its back keeps the closing emphasis characters. *)
Theorem formatResponse_emphasis_input :
  formatResponse
    (reply (js "1. **Q: Foo? A: Bar**" ++ LFs ++ js "2. **Q: Baz? A: Qux**"))
  = Normal [ {| front := js "Foo?"; back := js "Bar**" |} ].
Proof. vm_compute. reflexivity. Qed.

(** With a line feed at the end there are two pairs, both backs with the
    closing emphasis characters. *)
Lemma formatResponse_emphasis_trailing_newline :
  formatResponse
    (reply (js "1. **Q: Foo? A: Bar**" ++ LFs ++ js "2. **Q: Baz? A: Qux**" ++ LFs))
  = Normal [ {| front := js "Foo?"; back := js "Bar**" |};
             {| front := js "Baz?"; back := js "Qux**" |} ].
Proof. vm_compute. reflexivity. Qed.

(** A text without a line feed gives no pair, whatever blocks it holds. *)
Lemma formatResponse_needs_newline s :
  s <> [] -> existsb (N.eqb 10) s = false -> formatResponse (reply s) = Normal [].
Proof.
  intros Hs Hno. unfold formatResponse, reply. cbn [choices message content].
  destruct s as [|c s]; [congruence|]. cbn [truthy negb collect length].
  change new_regex with (set_lastIndex new_regex 0).
  now rewrite (exec_no_newline _ Hno).
Qed.

(** C4: [formatResponse] throws exactly when the content field of the
    response is absent or empty; on any other response it returns a list of
    cards, and the empty list when the text has no "Q:" or no "A:". *)
Theorem formatResponse_throws_iff (r : response) :
  ((exists e, formatResponse r = Throw e)
   <-> content_field r = None \/ content_field r = Some [])
  /\ (forall s, content_field r = Some s -> s <> [] ->
        (exists cards, formatResponse r = Normal cards)
        /\ (includes (js "Q:") s = false \/ includes (js "A:") s = false ->
            formatResponse r = Normal [])).
Proof.
  unfold content_field, formatResponse.
  destruct r as [[|[[[s|]]] chs]]; cbn [choices message content].
  - split; [split; [auto|eexists; reflexivity]|discriminate].
  - destruct s as [|c s]; cbn [truthy negb].
    + split; [split; [auto|eexists; reflexivity]|].
      intros s Hs; injection Hs as <-; congruence.
    + change new_regex with (set_lastIndex new_regex 0).
      destruct (collect_total (S (length (c :: s))) (c :: s) 0 [])
        as (more & Hmore); [lia|].
      split; [split|].
      * intros (e & He). rewrite Hmore in He. discriminate.
      * intros [H|H]; discriminate.
      * intros s' Hs' _. injection Hs' as <-. split.
        -- rewrite Hmore. eexists; reflexivity.
        -- intros Hno. cbn [collect]. now rewrite (exec_no_markers _ Hno).
  - split; [split; [auto|eexists; reflexivity]|discriminate].
Qed.

Lemma formatResponse_throws_iff_witness :
  (exists cards, formatResponse (reply (js "no markers here")) = Normal cards)
  /\ formatResponse (reply (js "no markers here")) = Normal [].
Proof.
  pose proof (proj2 (formatResponse_throws_iff (reply (js "no markers here")))
                (js "no markers here") eq_refl) as H.
  destruct H as [H1 H2]; [discriminate|].
  split; [exact H1|apply H2; left; reflexivity].
Defined.

End PairExtractorClaims.

(** ** The Text Extractor *)

Section ExtractLoops.

Import DOM Scraper Spec.

Lemma push_text_eq e out :
  push_text e out = Normal (out ++ fragments [e]).
Proof.
  unfold push_text, fragments. rewrite normalise_fragment_text.
  cbn [bind map filter].
  destruct (truthy (fragment_text (textContent (self e))));
    [reflexivity|now rewrite app_nil_r].
Qed.

Lemma fragments_cons e els : fragments (e :: els) = fragments [e] ++ fragments els.
Proof.
  unfold fragments. cbn [map filter].
  destruct (truthy (fragment_text (textContent (self e)))); reflexivity.
Qed.

Lemma fragments_app l1 l2 : fragments (l1 ++ l2) = fragments l1 ++ fragments l2.
Proof.
  induction l1 as [|e l1 IH]; [reflexivity|].
  simpl app. rewrite fragments_cons, (fragments_cons e l1), IH.
  now rewrite app_assoc.
Qed.

(** The loop without exclusions appends the fragments of all elements. *)
Lemma forEach_all_eq els :
  forall out, forEach_all els out = Normal (out ++ fragments els).
Proof.
  induction els as [|e els IH]; intros out; cbn [forEach_all].
  - unfold fragments; simpl. now rewrite app_nil_r.
  - rewrite push_text_eq. cbn [bind]. rewrite IH, (fragments_cons e els).
    now rewrite <- app_assoc.
Qed.

Lemma closest_eq e selectors :
  closest e selectors
  = match parse_selector selectors with
    | None => Throw SyntaxError
    | Some sel => Normal (find (matches sel) (self e :: ancestors e))
    end.
Proof. reflexivity. Qed.

Lemma find_existsb {A : Type} (p : A -> bool) l :
  existsb p l = match find p l with Some _ => true | None => false end.
Proof.
  induction l as [|a l IH]; [reflexivity|].
  simpl. destruct (p a); [reflexivity|exact IH].
Qed.

(** The loop with exclusions, once the selector parses: the fragments of
    the elements that neither match nor lie under a match. *)
Lemma forEach_excluding_parsed selectors sel els :
  parse_selector selectors = Some sel ->
  forall out,
    forEach_excluding selectors els out
    = Normal (out ++ fragments (filter (fun e => negb (excluded_by sel e)) els)).
Proof.
  intros Hp. induction els as [|e els IH]; intros out; cbn [forEach_excluding].
  - unfold fragments; simpl. now rewrite app_nil_r.
  - rewrite closest_eq, Hp. cbn [bind filter].
    unfold excluded_by at 1. rewrite find_existsb.
    destruct (find (matches sel) (self e :: ancestors e)); cbn [negb].
    + apply IH.
    + rewrite push_text_eq. cbn [bind]. rewrite IH, (fragments_cons e (filter _ els)).
      now rewrite <- app_assoc.
Qed.

(** With a selector that does not parse, the first [closest] throws. *)
Lemma forEach_excluding_invalid selectors els out :
  parse_selector selectors = None ->
  forEach_excluding selectors els out
  = match els with [] => Normal out | _ => Throw SyntaxError end.
Proof.
  intros Hp. destruct els as [|e els]; cbn [forEach_excluding]; [reflexivity|].
  rewrite closest_eq, Hp. reflexivity.
Qed.

Lemma querySelectorAll_eq d selectors :
  querySelectorAll d selectors
  = match parse_selector selectors with
    | None => Throw SyntaxError
    | Some sel => Normal (filter (fun e => matches sel (self e)) (all_elements d))
    end.
Proof. reflexivity. Qed.

(** The statements of the [try] block never run for ever. *)
Lemma extract_not_Diverge d f : extract d f <> Diverge.
Proof.
  unfold extract, select_elements.
  destruct (truthy (includeSelectors f));
    rewrite querySelectorAll_eq;
    (destruct (parse_selector _) as [isel|]; [|discriminate]);
    cbn [bind];
    (destruct (truthy (combinedExcludeSelectors f));
       [|rewrite forEach_all_eq; discriminate]);
    (destruct (parse_selector (combinedExcludeSelectors f)) as [sel|] eqn:Ep;
       [rewrite (forEach_excluding_parsed _ _ _ Ep); discriminate
       |rewrite (forEach_excluding_invalid _ _ _ Ep);
        destruct (filter _ _); discriminate]).
Qed.

End ExtractLoops.

Section SelectorParsing.

Import DOM Scraper Spec.

Lemma split_commas_cons s : exists w ws, split_commas s = w :: ws.
Proof.
  induction s as [|c s (w & ws & IH)]; simpl; [now exists [], []|].
  destruct (N.eqb c 44); [now eexists; eexists|].
  rewrite IH. now eexists; eexists.
Qed.

Lemma split_commas_app a b :
  split_commas (a ++ 44%N :: b) = split_commas a ++ split_commas b.
Proof.
  induction a as [|c a IH]; [reflexivity|].
  simpl. destruct (N.eqb c 44); rewrite IH; [reflexivity|].
  destruct (split_commas_cons a) as (w & ws & ->). reflexivity.
Qed.

Lemma pieces_app_comma a b : pieces (a ++ 44%N :: b) = pieces a ++ pieces b.
Proof. unfold pieces. now rewrite split_commas_app, map_app. Qed.

Lemma pieces_space s : pieces (32%N :: s) = pieces s.
Proof.
  unfold pieces. cbn [split_commas].
  change (N.eqb 32 44) with false. cbn iota.
  destruct (split_commas_cons s) as (w & ws & ->). reflexivity.
Qed.

Lemma dropWhile_none p (a : jsstring) :
  forallb (fun c => negb (p c)) a = true -> dropWhile p a = a.
Proof.
  destruct a as [|c a]; simpl; [reflexivity|].
  intros H. apply andb_true_iff in H. destruct H as [Hc _].
  apply negb_true_iff in Hc. now rewrite Hc.
Qed.

Lemma forallb_rev {A : Type} (p : A -> bool) l :
  forallb p l = true -> forallb p (rev l) = true.
Proof.
  rewrite !forallb_forall. intros H x Hx. apply H. now apply in_rev.
Qed.

Lemma clean_no_space a :
  clean a = true -> forallb (fun c => negb (is_css_space c)) a = true.
Proof.
  unfold clean. rewrite !forallb_forall. intros H x Hx.
  apply H in Hx. apply andb_true_iff in Hx. tauto.
Qed.

Lemma pieces_clean a : clean a = true -> pieces a = [a].
Proof.
  intros Hc. unfold pieces.
  assert (Hs : split_commas a = [a]).
  { clear -Hc. induction a as [|c a IH]; [reflexivity|].
    simpl in *. apply andb_true_iff in Hc. destruct Hc as [Hc Ha].
    apply andb_true_iff in Hc. destruct Hc as [_ Hc].
    apply negb_true_iff in Hc. rewrite Hc, (IH Ha). reflexivity. }
  rewrite Hs. cbn [map]. unfold css_trim.
  pose proof (clean_no_space a Hc) as Hn.
  rewrite (dropWhile_none _ _ Hn).
  rewrite (dropWhile_none _ _ (forallb_rev _ _ Hn)).
  now rewrite rev_involutive.
Qed.

Lemma pieces_join_comma_space parts :
  parts <> [] -> pieces (join (js ", ") parts) = flat_map pieces parts.
Proof.
  induction parts as [|a parts IH]; [congruence|intros _].
  destruct parts as [|b parts].
  - simpl. now rewrite app_nil_r.
  - change (join (js ", ") (a :: b :: parts))
      with (a ++ 44%N :: 32%N :: join (js ", ") (b :: parts)).
    rewrite pieces_app_comma, pieces_space, IH by discriminate. reflexivity.
Qed.

Lemma pieces_join_comma items :
  items <> [] -> pieces (join (js ",") items) = flat_map pieces items.
Proof.
  induction items as [|a items IH]; [congruence|intros _].
  destruct items as [|b items].
  - simpl. now rewrite app_nil_r.
  - change (join (js ",") (a :: b :: items))
      with (a ++ 44%N :: join (js ",") (b :: items)).
    rewrite pieces_app_comma, IH by discriminate. reflexivity.
Qed.

Lemma flat_map_pieces_clean items :
  forallb clean items = true -> flat_map pieces items = items.
Proof.
  induction items as [|a items IH]; simpl; [reflexivity|].
  intros H. apply andb_true_iff in H. destruct H as [Ha Hi].
  now rewrite (pieces_clean a Ha), IH.
Qed.

(** A name character is none of the characters the selector syntax uses. *)
Lemma name_char_not k c :
  is_name_char k = false -> is_name_char c = true -> N.eqb c k = false.
Proof. intros Hk Hc. apply N.eqb_neq. intros ->. congruence. Qed.

Lemma name_char_clean c :
  is_name_char c = true -> negb (is_css_space c) && negb (N.eqb c 44) = true.
Proof.
  intros H. unfold is_css_space.
  rewrite (name_char_not 32), (name_char_not 9), (name_char_not 10),
    (name_char_not 12), (name_char_not 13), (name_char_not 44) by (reflexivity || exact H).
  reflexivity.
Qed.

Lemma plain_value_clean v : plain_value v = true -> clean v = true.
Proof.
  unfold plain_value, clean. rewrite !forallb_forall.
  intros H x Hx. apply name_char_clean. auto.
Qed.

Lemma is_letter_name_char c : is_letter c = true -> is_name_char c = true.
Proof. intros H. unfold is_name_char. now rewrite H. Qed.

Lemma is_ident_plain t : is_ident t = true -> plain_value t = true.
Proof.
  destruct t as [|c t]; [discriminate|]. simpl.
  intros H. apply andb_true_iff in H. destruct H as [Hc Ht].
  now rewrite (is_letter_name_char c Hc).
Qed.

Lemma plain_tag_clean t : plain_tag t = true -> clean t = true.
Proof.
  destruct t as [|c t]; [reflexivity|]. intros H.
  apply plain_value_clean, is_ident_plain. exact H.
Qed.

Lemma take_drop_stop p (a b : jsstring) :
  forallb p a = true ->
  match b with [] => true | c :: _ => negb (p c) end = true ->
  takeWhile p (a ++ b) = a /\ dropWhile p (a ++ b) = b.
Proof.
  intros Ha Hb. induction a as [|x a IH]; simpl.
  - destruct b as [|c b]; [auto|]. apply negb_true_iff in Hb. simpl. now rewrite Hb.
  - simpl in Ha. apply andb_true_iff in Ha. destruct Ha as [Hx Ha].
    rewrite Hx. destruct (IH Ha) as [-> ->]. auto.
Qed.

Lemma jsstring_eqb_refl a : jsstring_eqb a a = true.
Proof. unfold jsstring_eqb. destruct (list_eq_dec N.eq_dec a a); congruence. Qed.

Lemma jsstring_eqb_eq a b : jsstring_eqb a b = true <-> a = b.
Proof.
  unfold jsstring_eqb. destruct (list_eq_dec N.eq_dec a b); split; congruence.
Qed.

(** The parser reads back a type selector. *)
Lemma parse_compound_ident t :
  is_ident t = true -> parse_compound t = Some (TypeSel t).
Proof.
  intros H. destruct t as [|c r]; [discriminate|].
  unfold parse_compound. rewrite H.
  simpl in H. apply andb_true_iff in H. destruct H as [Hc _].
  apply is_letter_name_char in Hc.
  rewrite (name_char_not 42 c), (name_char_not 91 c) by (reflexivity || exact Hc).
  reflexivity.
Qed.

(** The parser reads back an attribute selector [[name*='v']]. *)
Lemma parse_compound_attr name v :
  is_ident name = true -> plain_value v = true ->
  parse_compound (91%N :: name ++ js "*='" ++ v ++ js "']")
  = Some (AttrContains name v).
Proof.
  intros Hn Hv. unfold parse_compound.
  change (N.eqb 91 42) with false. change (N.eqb 91 91) with true. cbn iota.
  destruct (take_drop_stop is_name_char name (js "*='" ++ v ++ js "']"))
    as [-> ->]; [apply is_ident_plain; exact Hn|reflexivity|].
  rewrite Hn, strip_prefix_app.
  destruct (take_drop_stop is_name_char v (js "']")) as [-> ->];
    [exact Hv|reflexivity|].
  now rewrite jsstring_eqb_refl.
Qed.

Lemma parse_compounds_app l1 l2 :
  parse_compounds (l1 ++ l2)
  = match parse_compounds l1, parse_compounds l2 with
    | Some a, Some b => Some (a ++ b)
    | _, _ => None
    end.
Proof.
  induction l1 as [|x l1 IH]; simpl.
  - destruct (parse_compounds l2); reflexivity.
  - rewrite IH. destruct (parse_compound x); [|reflexivity].
    destruct (parse_compounds l1); [|reflexivity].
    destruct (parse_compounds l2); reflexivity.
Qed.

Lemma parse_compounds_tags tags :
  forallb plain_tag tags = true ->
  parse_compounds tags
  = if existsb is_empty tags then None else Some (map TypeSel tags).
Proof.
  induction tags as [|t tags IH]; [reflexivity|].
  cbn [forallb existsb map parse_compounds]. intros H.
  apply andb_true_iff in H. destruct H as [Ht Hts].
  destruct t as [|c r]; [reflexivity|].
  rewrite (parse_compound_ident (c :: r) Ht), (IH Hts).
  cbn [is_empty truthy negb orb].
  destruct (existsb is_empty tags); reflexivity.
Qed.

Lemma parse_compounds_attrs name vs :
  is_ident name = true -> forallb plain_value vs = true ->
  parse_compounds (map (fun v => 91%N :: name ++ js "*='" ++ v ++ js "']") vs)
  = Some (map (AttrContains name) vs).
Proof.
  intros Hn. induction vs as [|v vs IH]; [reflexivity|].
  cbn [forallb map parse_compounds]. intros H.
  apply andb_true_iff in H. destruct H as [Hv Hvs].
  now rewrite (parse_compound_attr name v Hn Hv), (IH Hvs).
Qed.

Lemma attr_template_clean name v :
  plain_value name = true -> plain_value v = true ->
  clean (91%N :: name ++ js "*='" ++ v ++ js "']") = true.
Proof.
  intros Hn Hv. apply plain_value_clean in Hn, Hv. unfold clean in *.
  cbn [forallb]. rewrite !forallb_app, Hn, Hv. reflexivity.
Qed.

Lemma attr_templates_clean name vs :
  plain_value name = true -> forallb plain_value vs = true ->
  forallb clean (map (fun v => 91%N :: name ++ js "*='" ++ v ++ js "']") vs) = true.
Proof.
  intros Hn. induction vs as [|v vs IH]; [reflexivity|].
  cbn [forallb map]. intros H. apply andb_true_iff in H. destruct H as [Hv Hvs].
  now rewrite (attr_template_clean name v Hn Hv), (IH Hvs).
Qed.

Lemma tags_clean tags :
  forallb plain_tag tags = true -> forallb clean tags = true.
Proof.
  induction tags as [|t tags IH]; [reflexivity|].
  cbn [forallb]. intros H. apply andb_true_iff in H. destruct H as [Ht Hts].
  now rewrite (plain_tag_clean t Ht), (IH Hts).
Qed.

Lemma truthy_join_comma_false l :
  truthy (join (js ",") l) = false -> l = [] \/ l = [[]].
Proof.
  destruct l as [|a [|b l]]; [auto| |].
  - destruct a; [auto|discriminate].
  - destruct a; discriminate.
Qed.

Lemma truthy_join_attrs sep name vs :
  truthy (join sep (map (fun v => 91%N :: name ++ js "*='" ++ v ++ js "']") vs))
  = match vs with [] => false | _ => true end.
Proof. destruct vs as [|v [|v' vs]]; reflexivity. Qed.

Lemma excludeIdSelectors_eq f :
  excludeIdSelectors f
  = join (js ", ") (map (attr_template (js "id")) (excludeIDs f)).
Proof. reflexivity. Qed.

Lemma excludeClassSelectors_eq f :
  excludeClassSelectors f
  = join (js ", ") (map (attr_template (js "class")) (excludeClasses f)).
Proof. reflexivity. Qed.

Lemma plain_exclusions_parts f :
  plain_exclusions f = true ->
  forallb plain_tag (excludeElements f) = true
  /\ forallb plain_value (excludeIDs f) = true
  /\ forallb plain_value (excludeClasses f) = true.
Proof.
  unfold plain_exclusions. intros H.
  apply andb_true_iff in H. destruct H as [H H3].
  apply andb_true_iff in H. tauto.
Qed.

Lemma pieces_tags f :
  plain_exclusions f = true ->
  truthy (excludeElementSelectors f) = true ->
  pieces (excludeElementSelectors f) = tag_items f.
Proof.
  intros Hp Ht. unfold tag_items. rewrite Ht.
  apply plain_exclusions_parts in Hp. destruct Hp as (Hp & _ & _).
  unfold excludeElementSelectors in *.
  destruct (excludeElements f) as [|t ts] eqn:E; [discriminate|].
  rewrite pieces_join_comma by discriminate.
  apply flat_map_pieces_clean, tags_clean. exact Hp.
Qed.

Lemma pieces_attrs name vs :
  plain_value name = true -> forallb plain_value vs = true -> vs <> [] ->
  pieces (join (js ", ") (map (attr_template name) vs))
  = map (attr_template name) vs.
Proof.
  intros Hn Hv Hne.
  rewrite pieces_join_comma_space by (destruct vs; [congruence|discriminate]).
  apply flat_map_pieces_clean, attr_templates_clean; assumption.
Qed.

(** The pieces of the combined selector: the tag entries, then one attribute
    selector for each id entry and for each class entry. *)
Lemma pieces_combined f :
  plain_exclusions f = true ->
  truthy (combinedExcludeSelectors f) = true ->
  pieces (combinedExcludeSelectors f)
  = tag_items f
      ++ map (attr_template (js "id")) (excludeIDs f)
      ++ map (attr_template (js "class")) (excludeClasses f).
Proof.
  intros Hp. pose proof (plain_exclusions_parts f Hp) as (_ & Hi & Hc).
  unfold combinedExcludeSelectors.
  assert (HA : truthy (excludeElementSelectors f) = false -> tag_items f = [])
    by (intros H; unfold tag_items; now rewrite H).
  pose proof (pieces_tags f Hp) as HA'.
  rewrite excludeIdSelectors_eq, excludeClassSelectors_eq.
  assert (HB : forall name vs, plain_value name = true ->
            forallb plain_value vs = true ->
            (truthy (join (js ", ") (map (attr_template name) vs)) = true
             -> pieces (join (js ", ") (map (attr_template name) vs))
                = map (attr_template name) vs)
            /\ (truthy (join (js ", ") (map (attr_template name) vs)) = false
                -> map (attr_template name) vs = [])).
  { intros name vs Hn Hv.
    pose proof (truthy_join_attrs (js ", ") name vs) as Ht.
    fold (attr_template name) in Ht. rewrite Ht.
    split; intros H.
    - apply pieces_attrs; [assumption..|]. destruct vs; [simpl in H; discriminate H|discriminate].
    - destruct vs; [reflexivity|simpl in H; discriminate H]. }
  destruct (HB (js "id") (excludeIDs f) eq_refl Hi) as [HI HI'].
  destruct (HB (js "class") (excludeClasses f) eq_refl Hc) as [HC HC'].
  clear HB.
  set (A := excludeElementSelectors f) in *.
  set (B := join (js ", ") (map (attr_template (js "id")) (excludeIDs f))) in *.
  set (C := join (js ", ") (map (attr_template (js "class")) (excludeClasses f))) in *.
  cbn [filter].
  destruct (truthy A) eqn:EA, (truthy B) eqn:EB, (truthy C) eqn:EC;
    try (intros _; rewrite pieces_join_comma_space by discriminate;
         cbn [flat_map];
         repeat match goal with
                | H : true = true -> _ |- _ => rewrite (H eq_refl)
                | H : false = false -> _ |- _ => rewrite (H eq_refl)
                end;
         now rewrite ?app_nil_r, ?app_nil_l).
  simpl. discriminate.
Qed.

Lemma combined_not_truthy f :
  truthy (combinedExcludeSelectors f) = false ->
  tag_items f = [] /\ excludeIDs f = [] /\ excludeClasses f = [].
Proof.
  unfold combinedExcludeSelectors, tag_items.
  rewrite excludeIdSelectors_eq, excludeClassSelectors_eq.
  pose proof (truthy_join_attrs (js ", ") (js "id") (excludeIDs f)) as HI.
  pose proof (truthy_join_attrs (js ", ") (js "class") (excludeClasses f)) as HC.
  fold (attr_template (js "id")) in HI. fold (attr_template (js "class")) in HC.
  set (A := excludeElementSelectors f) in *.
  set (B := join (js ", ") (map (attr_template (js "id")) (excludeIDs f))) in *.
  set (C := join (js ", ") (map (attr_template (js "class")) (excludeClasses f))) in *.
  cbn [filter].
  destruct (truthy A) eqn:EA, (truthy B) eqn:EB, (truthy C) eqn:EC; intros H;
    try (exfalso; revert H EA EB EC; clear;
         destruct A, B, C; simpl; discriminate).
  repeat split; [destruct (excludeIDs f)|destruct (excludeClasses f)];
    (reflexivity || discriminate).
Qed.

Lemma tag_items_plain f :
  plain_exclusions f = true -> forallb plain_tag (tag_items f) = true.
Proof.
  intros Hp. apply plain_exclusions_parts in Hp. destruct Hp as (Hp & _).
  unfold tag_items. destruct (truthy (excludeElementSelectors f)); auto.
Qed.

(** What the selector engine makes of the combined selector: a syntax error
    when a tag entry is empty, the exclusion rules otherwise. *)
Lemma parse_combined f :
  plain_exclusions f = true ->
  truthy (combinedExcludeSelectors f) = true ->
  parse_selector (combinedExcludeSelectors f)
  = if existsb is_empty (tag_items f) then None else Some (selectors_of f).
Proof.
  intros Hp Ht. pose proof (plain_exclusions_parts f Hp) as (_ & Hi & Hc).
  unfold parse_selector. rewrite (pieces_combined f Hp Ht).
  rewrite !parse_compounds_app.
  rewrite (parse_compounds_tags _ (tag_items_plain f Hp)).
  unfold attr_template.
  rewrite (parse_compounds_attrs (js "id") _ eq_refl Hi).
  rewrite (parse_compounds_attrs (js "class") _ eq_refl Hc).
  destruct (existsb is_empty (tag_items f)); reflexivity.
Qed.

Lemma excluded_by_nil e : excluded_by [] e = false.
Proof.
  unfold excluded_by. generalize (self e :: ancestors e).
  intros l; induction l; simpl; auto.
Qed.

Lemma filter_true {A : Type} (p : A -> bool) l :
  (forall x, p x = true) -> filter p l = l.
Proof.
  intros H. induction l as [|a l IH]; simpl; [reflexivity|].
  now rewrite H, IH.
Qed.

(** The exclusion branch of [scrapePage] on a list of candidates. *)
Lemma exclusion_branch f cands :
  plain_exclusions f = true ->
  (if truthy (combinedExcludeSelectors f)
   then forEach_excluding (combinedExcludeSelectors f) cands []
   else forEach_all cands [])
  = if existsb is_empty (tag_items f)
    then match cands with [] => Normal [] | _ => Throw SyntaxError end
    else Normal
           (fragments (filter (fun e => negb (excluded_by (selectors_of f) e)) cands)).
Proof.
  intros Hp. destruct (truthy (combinedExcludeSelectors f)) eqn:Et.
  - pose proof (parse_combined f Hp Et) as Hparse.
    destruct (existsb is_empty (tag_items f)).
    + now rewrite (forEach_excluding_invalid _ _ _ Hparse).
    + now rewrite (forEach_excluding_parsed _ _ _ Hparse).
  - destruct (combined_not_truthy f Et) as (Ht & Hi & Hc).
    unfold selectors_of. rewrite Ht, Hi, Hc. cbn [existsb map app].
    rewrite forEach_all_eq. cbn [app].
    rewrite filter_true; [reflexivity|].
    intros e. now rewrite excluded_by_nil.
Qed.

End SelectorParsing.

Section ScrapePageValue.

Import DOM Scraper Spec.

Variable html : Type.
Variable axios_get : jsstring -> outcome html.
Variable JSDOM : html -> outcome document.

(** What the try block of [scrapePage] comes to once the steps before it
    are known. *)
Lemma scrapePage_value s f :
  s <> [] ->
  snd (scrapePage axios_get JSDOM (JString s) f)
  = Normal match axios_get s with
           | Throws _ => []
           | Returns data =>
               match JSDOM data with
               | Throws _ => []
               | Returns d => caught (extract d f)
               end
           end.
Proof.
  intros Hs. unfold scrapePage. cbn [invalid_url url_string].
  destruct s as [|c s]; [congruence|]. cbn [truthy negb].
  destruct (axios_get (c :: s)) as [data|e]; cbn [lift bind]; [|reflexivity].
  destruct (JSDOM data) as [d|e]; cbn [lift bind]; [|reflexivity].
  pose proof (extract_not_Diverge d f) as Hnd.
  destruct (extract d f); [reflexivity|reflexivity|congruence].
Qed.

End ScrapePageValue.

Section Subsequences.

Import Spec.

Context {A : Type}.

Lemma subsequence_refl (l : list A) : subsequence l l.
Proof. induction l; constructor; assumption. Qed.


Lemma subsequence_filter_imp (p q : A -> bool) l :
  (forall x, p x = true -> q x = true) ->
  subsequence (filter p l) (filter q l).
Proof.
  intros H. induction l as [|a l IH]; simpl; [constructor|].
  destruct (p a) eqn:Ep.
  - rewrite (H a Ep). now constructor.
  - destruct (q a); [now constructor|exact IH].
Qed.

Lemma subsequence_filter (p : A -> bool) l1 l2 :
  subsequence l1 l2 -> subsequence (filter p l1) (filter p l2).
Proof.
  induction 1; simpl; [constructor| |].
  - destruct (p x); [now constructor|assumption].
  - destruct (p x); [now constructor|assumption].
Qed.

Lemma subsequence_map {B : Type} (g : A -> B) l1 l2 :
  subsequence l1 l2 -> subsequence (map g l1) (map g l2).
Proof. induction 1; simpl; now constructor. Qed.

Lemma filter_filter (p q : A -> bool) l :
  filter q (filter p l) = filter (fun x => p x && q x) l.
Proof.
  induction l as [|a l IH]; simpl; [reflexivity|].
  destruct (p a); simpl; [destruct (q a); now rewrite IH|exact IH].
Qed.

Lemma existsb_orb (p q : A -> bool) l :
  existsb (fun x => p x || q x) l = existsb p l || existsb q l.
Proof.
  induction l as [|a l IH]; simpl; [reflexivity|].
  rewrite IH. destruct (p a), (q a), (existsb p l), (existsb q l); reflexivity.
Qed.


End Subsequences.

Section Exclusions.

Import DOM Scraper Spec.

Lemma subsequence_fragments l1 l2 :
  subsequence l1 l2 -> subsequence (fragments l1) (fragments l2).
Proof. intros H. unfold fragments. now apply subsequence_filter, subsequence_map. Qed.

Lemma truthy_join_comma l :
  l <> [] -> l <> [[]] -> truthy (join (js ",") l) = true.
Proof.
  destruct l as [|a [|b l]]; [congruence| |].
  - destruct a; [congruence|reflexivity].
  - destruct a; reflexivity.
Qed.






End Exclusions.

Section TextExtractorClaims.

Import DOM Scraper Spec Examples.

Lemma subsequence_filter_self {A : Type} (p : A -> bool) l :
  subsequence (filter p l) l.
Proof.
  induction l as [|a l IH]; simpl; [constructor|].
  destruct (p a); now constructor.
Qed.

Lemma select_elements_subsequence d f cands :
  select_elements d f = Normal cands -> subsequence cands (all_elements d).
Proof.
  unfold select_elements.
  destruct (truthy (includeSelectors f)); rewrite querySelectorAll_eq;
    (destruct (parse_selector _); [|discriminate]);
    intros H; injection H as <-; apply subsequence_filter_self.
Qed.

Lemma valid_exclusions_tags f :
  valid_exclusions f = true ->
  tag_items f = excludeElements f
  /\ existsb is_empty (excludeElements f) = false
  /\ plain_exclusions f = true.
Proof.
  unfold valid_exclusions, plain_exclusions, tag_items, excludeElementSelectors.
  intros H. apply andb_true_iff in H. destruct H as [H Hc].
  apply andb_true_iff in H. destruct H as [Ht Hi]. rewrite Hi, Hc.
  assert (Hne : forall l, forallb is_ident l = true ->
                          existsb is_empty l = false /\ forallb plain_tag l = true).
  { induction l as [|t l IH]; [auto|]. cbn [forallb existsb]. intros Hl.
    apply andb_true_iff in Hl. destruct Hl as [Hid Hl].
    destruct (IH Hl) as [-> ->]. destruct t; [discriminate|].
    cbn [plain_tag]. rewrite Hid. auto. }
  destruct (Hne _ Ht) as [He Hp]. rewrite Hp. repeat split; auto.
  destruct (excludeElements f) as [|t l] eqn:E; [reflexivity|].
  rewrite truthy_join_comma; [reflexivity|discriminate|].
  intros Heq. injection Heq as -> _. discriminate.
Qed.


Lemma matches_type_sel T n : matches_simple (TypeSel T) n = has_tag T n.
Proof. destruct n; reflexivity. Qed.





(** [querySelectorAll("*")] selects every element. *)
Lemma elements_under_universal :
  forall n anc,
    filter (fun e => matches [Universal] (self e)) (elements_under anc n)
    = elements_under anc n.
Proof.
  fix IH 1. intros [ln attrs kids|t|t] anc; [|reflexivity|reflexivity].
  cbn [elements_under filter self matches existsb matches_simple orb]. f_equal.
  generalize (Element ln attrs kids :: anc). intros anc'.
  induction kids as [|k kids IHk]; [reflexivity|].
  cbn [flat_map]. now rewrite filter_app, IH, IHk.
Qed.

Lemma all_elements_universal d :
  filter (fun e => matches [Universal] (self e)) (all_elements d) = all_elements d.
Proof.
  unfold all_elements. induction d as [|n d IH]; [reflexivity|].
  cbn [flat_map]. now rewrite filter_app, elements_under_universal, IH.
Qed.

(** C5: with an empty include list and empty exclusion lists, [scrapePage]
    returns, for every element of the page in document order, the words of
    its text content joined by single spaces, whenever that is not empty. *)
Theorem scrapePage_no_filter
  (html : Type) (axios_get : jsstring -> outcome html)
  (JSDOM : html -> outcome document)
  (s : jsstring) (data : html) (d : document) (f : SelectorFilter) :
  s <> [] ->
  axios_get s = Returns data -> JSDOM data = Returns d ->
  includeElements f = [] -> excludeElements f = [] ->
  excludeIDs f = [] -> excludeClasses f = [] ->
  snd (scrapePage axios_get JSDOM (JString s) f)
  = Normal (filter truthy
              (map (fun e => fragment_text (textContent (self e)))
                 (all_elements d))).
Proof.
  intros Hs Hget Hdom Hinc Htag Hid Hcl.
  rewrite scrapePage_value by exact Hs. rewrite Hget, Hdom. f_equal.
  unfold extract, select_elements, includeSelectors, combinedExcludeSelectors,
    excludeElementSelectors, excludeIdSelectors, excludeClassSelectors.
  rewrite Hinc, Htag, Hid, Hcl. cbn [join map filter truthy].
  rewrite querySelectorAll_eq.
  change (parse_selector (js "*")) with (Some [Universal]). cbv iota.
  rewrite all_elements_universal. cbn [bind].
  rewrite forEach_all_eq. reflexivity.
Qed.

Lemma scrapePage_no_filter_witness :
  snd (scrapePage (serve page_nested) parsed address no_filter)
  = Normal (filter truthy
              (map (fun e => fragment_text (textContent (self e)))
                 (all_elements page_nested))).
Proof.
  apply (scrapePage_no_filter document (serve page_nested) parsed
           (js "https://example.org/") page_nested page_nested no_filter);
    (discriminate || reflexivity).
Defined.

(** The duplicates of nested containers: "text" once for the [p] and once
    for each element above it. *)
Lemma nested_containers_repeat_text :
  snd (scrapePage (serve page_nested) parsed address no_filter)
  = Normal [js "text"; js "text"; js "text"; js "text"].
Proof. vm_compute. reflexivity. Qed.

(** Substring exclusion: the id entry "ad" removes the element with id
    "advert-1", the class entry "lead" the element with class "lead-text". *)
Lemma substring_exclusion_example :
  snd (scrapePage (serve page_with_advert) parsed address no_filter)
  = Normal [js "buyread"; js "buyread"; js "buy"; js "read"]
  /\ snd (scrapePage (serve page_with_advert) parsed address
            (add_exclusion ExcludeId (js "ad") no_filter))
     = Normal [js "buyread"; js "buyread"; js "read"]
  /\ snd (scrapePage (serve page_with_advert) parsed address
            (add_exclusion ExcludeClass (js "lead") no_filter))
     = Normal [js "buyread"; js "buyread"; js "buy"].
Proof. vm_compute. repeat split; reflexivity. Qed.

(** An empty tag entry next to another one makes the combined selector
    ",script": [closest] throws a syntax error and the output is empty.  An
    empty entry on its own joins to the empty string and is dropped. *)
Lemma empty_tag_entry_example :
  scrapePage (serve page_with_script) parsed address
    (add_exclusion ExcludeTag (js "script")
       (add_exclusion ExcludeTag [] no_filter))
  = ([HttpGet (js "https://example.org/"); ConsoleError SyntaxError], Normal [])
  /\ snd (scrapePage (serve page_with_script) parsed address
            (add_exclusion ExcludeTag [] no_filter))
     = snd (scrapePage (serve page_with_script) parsed address no_filter).
Proof. vm_compute. split; reflexivity. Qed.

(** C6: when the fetch, the parse or a later step of the try block throws,
    [scrapePage] logs the error and resolves with the empty list, the very
    value of a run that found no text. *)
Theorem scrapePage_failure_is_empty
  (html : Type) (axios_get : jsstring -> outcome html)
  (JSDOM : html -> outcome document) (s : jsstring) (f : SelectorFilter) :
  s <> [] ->
  (forall e, axios_get s = Throws e ->
     scrapePage axios_get JSDOM (JString s) f
     = ([HttpGet s; ConsoleError e], Normal []))
  /\ (forall data e, axios_get s = Returns data -> JSDOM data = Throws e ->
        scrapePage axios_get JSDOM (JString s) f
        = ([HttpGet s; ConsoleError e], Normal []))
  /\ (forall data d e, axios_get s = Returns data -> JSDOM data = Returns d ->
        extract d f = Throw e ->
        scrapePage axios_get JSDOM (JString s) f
        = ([HttpGet s; ConsoleError e], Normal []))
  /\ (forall data d, axios_get s = Returns data -> JSDOM data = Returns d ->
        extract d f = Normal [] ->
        scrapePage axios_get JSDOM (JString s) f = ([HttpGet s], Normal [])).
Proof.
  intros Hs. unfold scrapePage. cbn [invalid_url url_string].
  destruct s as [|c s]; [congruence|]. cbn [truthy negb].
  repeat split.
  - intros e ->. reflexivity.
  - intros data e -> He. cbn [lift bind]. rewrite He. reflexivity.
  - intros data d e -> Hd He. cbn [lift bind]. rewrite Hd. cbn [lift bind].
    rewrite He. reflexivity.
  - intros data d -> Hd He. cbn [lift bind]. rewrite Hd. cbn [lift bind].
    rewrite He. reflexivity.
Qed.

Lemma scrapePage_failure_is_empty_witness :
  scrapePage offline parsed address no_filter
  = ([HttpGet (js "https://example.org/"); ConsoleError ExternalError], Normal [])
  /\ scrapePage (serve []) parsed address no_filter
     = ([HttpGet (js "https://example.org/")], Normal []).
Proof.
  destruct (scrapePage_failure_is_empty document offline parsed
              (js "https://example.org/") no_filter) as (H1 & _);
    [discriminate|].
  destruct (scrapePage_failure_is_empty document (serve []) parsed
              (js "https://example.org/") no_filter) as (_ & _ & _ & H4);
    [discriminate|].
  split; [apply H1; reflexivity|apply (H4 [] []); reflexivity].
Defined.

Lemma subsequence_incl {A : Type} (l1 l2 : list A) :
  subsequence l1 l2 -> incl l1 l2.
Proof.
  induction 1; intros y Hy; simpl in *; [contradiction| |auto].
  destruct Hy as [->|Hy]; auto.
Qed.

(** Whatever the filter, the list of the try block is the list of fragments
    of some elements of the page. *)
Lemma extract_fragments d f out :
  extract d f = Normal out ->
  exists els, incl els (all_elements d) /\ out = fragments els.
Proof.
  unfold extract.
  destruct (select_elements d f) as [cands|e|] eqn:Esel; cbn [bind];
    [|discriminate|discriminate].
  apply select_elements_subsequence, subsequence_incl in Esel.
  destruct (truthy (combinedExcludeSelectors f)).
  - destruct (parse_selector (combinedExcludeSelectors f)) as [sel|] eqn:Ep.
    + rewrite (forEach_excluding_parsed _ _ _ Ep). intros H; injection H as <-.
      eexists. split; [|reflexivity].
      intros x Hx. apply filter_In in Hx. apply Esel, Hx.
    + rewrite (forEach_excluding_invalid _ _ _ Ep).
      destruct cands; [|discriminate]. intros H; injection H as <-.
      exists []. split; [intros x []|reflexivity].
  - rewrite forEach_all_eq. intros H; injection H as <-.
    exists cands. auto.
Qed.

Lemma In_fragments frag els :
  In frag (fragments els) ->
  frag <> []
  /\ exists e, In e els /\ frag = fragment_text (textContent (self e)).
Proof.
  unfold fragments. intros H. apply filter_In in H. destruct H as [H Ht].
  apply in_map_iff in H. destruct H as (e & <- & He).
  split; [|eauto].
  intros E. rewrite E in Ht. discriminate.
Qed.

(** The words of a text are made of its characters that are not whitespace,
    in their order, and no word is empty. *)
Lemma words_characters t :
  concat (words t) = filter (fun c => negb (is_space c)) t
  /\ Forall (fun w => w <> [] /\ forallb (fun c => negb (is_space c)) w = true)
       (words t).
Proof.
  induction t as [|c t [IHc IHf]]; [split; [reflexivity|constructor]|].
  cbn [words filter]. destruct (is_space c) eqn:Ec; cbn [negb]; [auto|].
  destruct t as [|c' t'].
  - split; [reflexivity|]. repeat constructor; [discriminate|].
    cbn [forallb]. now rewrite Ec.
  - destruct (is_space c') eqn:Ec'.
    + split; [cbn [concat app]; now rewrite IHc|].
      constructor; [|exact IHf]. split; [discriminate|].
      cbn [forallb]. now rewrite Ec.
    + destruct (words (c' :: t')) as [|w ws] eqn:Ew.
      * exfalso. exact (words_head c' t' Ec' Ew).
      * split; [cbn [concat app] in *; now rewrite IHc|].
        inversion IHf as [|? ? [Hne Hall] Hrest]; subst.
        constructor; [|exact Hrest]. split; [discriminate|].
        cbn [forallb]. now rewrite Ec, Hall.
Qed.

(** The words are the maximal runs: a run that ends at a whitespace
    character is a word of its own, and whitespace in front is skipped. *)
Lemma words_runs w :
  w <> [] -> forallb not_space w = true ->
  words w = [w]
  /\ forall c s, is_space c = true -> words (w ++ c :: s) = w :: words (c :: s).
Proof.
  induction w as [|a w IH]; [congruence|]. intros _ Hw.
  cbn [forallb] in Hw. apply andb_true_iff in Hw. destruct Hw as [Ha Hw].
  unfold not_space in Ha. apply negb_true_iff in Ha.
  destruct w as [|b w].
  - split; [cbn [words]; now rewrite Ha|].
    intros c s Hc. cbn [app words]. now rewrite Ha, Hc.
  - destruct (IH ltac:(discriminate) Hw) as [IH1 IH2].
    assert (Hb : is_space b = false).
    { cbn [forallb] in Hw. apply andb_true_iff in Hw. destruct Hw as [Hb _].
      unfold not_space in Hb. now apply negb_true_iff in Hb. }
    split.
    + change (words (a :: b :: w))
        with (if is_space a then words (b :: w)
              else if is_space b then [a] :: words (b :: w)
                   else match words (b :: w) with
                        | w' :: ws => (a :: w') :: ws
                        | [] => [[a]]
                        end).
      now rewrite Ha, Hb, IH1.
    + intros c s Hc.
      change (words ((a :: b :: w) ++ c :: s))
        with (if is_space a then words ((b :: w) ++ c :: s)
              else if is_space b then [a] :: words ((b :: w) ++ c :: s)
                   else match words ((b :: w) ++ c :: s) with
                        | w' :: ws => (a :: w') :: ws
                        | [] => [[a]]
                        end).
      now rewrite Ha, Hb, (IH2 c s Hc).
Qed.





(** C9: [scrapePage] throws Error("Invalid URL provided"), before any
    request, exactly when [url] is not a string or is the empty string; for
    every other [url] it resolves with a list. *)
Theorem scrapePage_invalid_url
  (html : Type) (axios_get : jsstring -> outcome html)
  (JSDOM : html -> outcome document) (url : jsvalue) (f : SelectorFilter) :
  (invalid_url url = true <-> forall s, url = JString s -> s = [])
  /\ (invalid_url url = true ->
      scrapePage axios_get JSDOM url f
      = ([], Throw (Error (js "Invalid URL provided"))))
  /\ (invalid_url url = false ->
      exists out, snd (scrapePage axios_get JSDOM url f) = Normal out).
Proof.
  split; [|split].
  - destruct url as [| | | |[|c s]|]; cbn [invalid_url truthy negb];
      split; try discriminate; try reflexivity; intros H.
    + intros s Hs. injection Hs as <-. reflexivity.
    + specialize (H _ eq_refl). discriminate.
  - intros H. unfold scrapePage. now rewrite H.
  - intros H. destruct url as [| | | |s|]; try discriminate.
    destruct s as [|c s]; [discriminate|].
    rewrite scrapePage_value by discriminate. eexists. reflexivity.
Qed.

Lemma scrapePage_invalid_url_witness :
  scrapePage (serve page_nested) parsed JUndefined no_filter
  = ([], Throw (Error (js "Invalid URL provided")))
  /\ scrapePage (serve page_nested) parsed (JString []) no_filter
     = ([], Throw (Error (js "Invalid URL provided")))
  /\ exists out,
       snd (scrapePage (serve page_nested) parsed address no_filter) = Normal out.
Proof.
  split; [|split].
  - apply (proj1 (proj2 (scrapePage_invalid_url document (serve page_nested)
                           parsed JUndefined no_filter))). reflexivity.
  - apply (proj1 (proj2 (scrapePage_invalid_url document (serve page_nested)
                           parsed (JString []) no_filter))). reflexivity.
  - apply (proj2 (proj2 (scrapePage_invalid_url document (serve page_nested)
                           parsed address no_filter))). reflexivity.
Defined.



End TextExtractorClaims.

(** * Further properties *)

(** ** The filter of [scrapePage], rule by rule *)

Section FilterRules.

Import DOM Scraper Spec Rules Examples Samples.

Lemma existsb_map {A B : Type} (g : A -> B) (p : B -> bool) l :
  existsb p (map g l) = existsb (fun x => p (g x)) l.
Proof. induction l as [|a l IH]; simpl; [reflexivity|now rewrite IH]. Qed.

Lemma existsb_ext_eq {A : Type} (p q : A -> bool) l :
  (forall x, p x = q x) -> existsb p l = existsb q l.
Proof.
  intros H. induction l as [|a l IH]; simpl; [reflexivity|now rewrite H, IH].
Qed.

Lemma matches_attr_sel a v n :
  to_lower a = a ->
  matches_simple (AttrContains a v) n = attr_contains a v n.
Proof.
  intros Ha. destruct n; unfold attr_contains; simpl; [now rewrite Ha| |];
    reflexivity.
Qed.

(** The parsed exclusion selector says what the three lists say. *)
Lemma matches_selectors_of f n :
  valid_exclusions f = true ->
  matches (selectors_of f) n = rule_matches f n.
Proof.
  intros Hv. destruct (valid_exclusions_tags f Hv) as (Hti & _ & _).
  unfold matches, selectors_of, rule_matches. rewrite Hti.
  rewrite !existsb_app, !existsb_map, orb_assoc.
  f_equal; [f_equal|]; apply existsb_ext_eq; intros x.
  - apply matches_type_sel.
  - apply matches_attr_sel. reflexivity.
  - apply matches_attr_sel. reflexivity.
Qed.

Lemma excluded_by_selectors_of f e :
  valid_exclusions f = true ->
  excluded_by (selectors_of f) e = excluded f e.
Proof.
  intros Hv. unfold excluded_by, excluded.
  apply existsb_ext_eq. intros n. now apply matches_selectors_of.
Qed.

Lemma idents_nonempty l :
  forallb is_ident l = true ->
  existsb is_empty l = false /\ forallb plain_tag l = true.
Proof.
  induction l as [|t l IH]; [auto|]. cbn [forallb existsb]. intros Hl.
  apply andb_true_iff in Hl. destruct Hl as [Hid Hl].
  destruct (IH Hl) as [-> ->]. destruct t; [discriminate|].
  cbn [plain_tag]. rewrite Hid. auto.
Qed.

(** The candidates of a filter with well-formed include tags. *)
Lemma select_elements_included d f :
  forallb is_ident (includeElements f) = true ->
  select_elements d f = Normal (filter (included f) (all_elements d)).
Proof.
  intros Hi. unfold select_elements, includeSelectors, included.
  destruct (includeElements f) as [|t l] eqn:E.
  - cbn [join truthy]. rewrite querySelectorAll_eq.
    change (parse_selector (js "*")) with (Some [Universal]). cbv iota.
    rewrite all_elements_universal.
    now rewrite filter_true by reflexivity.
  - destruct (idents_nonempty _ Hi) as [Hne Hp].
    rewrite truthy_join_comma;
      [|discriminate|intros H; injection H as -> _; discriminate].
    rewrite querySelectorAll_eq. unfold parse_selector.
    rewrite pieces_join_comma by discriminate.
    rewrite (flat_map_pieces_clean _ (tags_clean _ Hp)).
    rewrite (parse_compounds_tags _ Hp), Hne. f_equal.
    apply filter_ext. intros e. unfold matches. rewrite existsb_map.
    apply existsb_ext_eq. intros T. apply matches_type_sel.
Qed.





End FilterRules.

(** ** The Pair Extractor: how many cards *)

Section CardCount.

Import RegExp Flashcards Spec Counting Examples.

Lemma skipn_suffix (r s : jsstring) :
  is_suffix r s -> skipn (length s - length r) s = r.
Proof.
  intros (w & ->). rewrite length_app.
  replace (length w + length r - length r) with (length w) by lia.
  apply skipn_length_app.
Qed.

Lemma line_feeds_app a b : line_feeds (a ++ b) = line_feeds a + line_feeds b.
Proof. unfold line_feeds. now rewrite filter_app, length_app. Qed.

(** From an index on, the loop adds at most one card for each line feed
    after that index. *)
Lemma collect_bound budget :
  forall content i cards out,
    collect budget content (set_lastIndex new_regex i) cards = Normal out ->
    length out <= length cards + line_feeds (tl (skipn i content)).
Proof.
  induction budget as [|budget IH]; intros content i cards out; [discriminate|].
  cbn [collect].
  destruct (exec_regex i content) as [E|(from & y & Hsuf & Hi & Hy & E)]; rewrite E.
  - intros H; injection H as <-. lia.
  - unfold group.
    destruct (captures y 1) as [m1|]; [|discriminate].
    destruct (captures y 2) as [m2|]; [|discriminate].
    intros H. apply IH in H. rewrite length_app in H. cbn [length] in H.
    pose proof (Spans_min_width _ _ _ _ Hy) as Hw.
    replace (min_width regex_source) with 6 in Hw by reflexivity.
    pose proof (Spans_suffix _ _ _ _ Hy) as Hs.
    destruct (regex_source_ends_before_newline _ _ Hy) as (t & Ht).
    cbn [rest] in Hw, Hs.
    assert (Hys : is_suffix (rest y) content).
    { eapply is_suffix_trans; [exact Hs|].
      eapply is_suffix_trans; [exact Hsuf|apply is_suffix_skipn]. }
    rewrite (skipn_suffix _ _ Hys), Ht in H. cbn [tl] in H.
    destruct Hsuf as (w & Hw1). destruct Hs as (w' & Hw2).
    rewrite Hw1, Hw2, Ht.
    assert (Hlen : 6 <= length w').
    { rewrite Hw2, length_app in Hw. lia. }
    rewrite app_assoc.
    destruct (w ++ w') as [|a u] eqn:Eu.
    { apply (f_equal (@length N)) in Eu. rewrite length_app in Eu.
      simpl in Eu. lia. }
    cbn [app tl]. rewrite line_feeds_app.
    change (line_feeds (10%N :: t)) with (S (line_feeds t)). lia.
Qed.

(** X3: [formatResponse] returns at most as many cards as the text has line
    feeds: a match ends only in front of a line feed. *)
Theorem formatResponse_cards_bounded (s : jsstring) (cards : list card) :
  formatResponse (reply s) = Normal cards ->
  length cards <= line_feeds s.
Proof.
  unfold formatResponse, reply. cbn [choices message content].
  destruct s as [|c s]; [discriminate|]. cbn [truthy negb].
  change new_regex with (set_lastIndex new_regex 0).
  intros H. apply collect_bound in H. cbn [length skipn tl] in H.
  unfold line_feeds in *. cbn [filter]. destruct (N.eqb 10 c); cbn [length]; lia.
Qed.

Lemma formatResponse_cards_bounded_witness :
  length [ {| front := js "What is 2+2?"; back := js "4" |} ]
  <= line_feeds (js "Q: What is 2+2? A: 4" ++ LFs
                 ++ js "Q: What is the capital of France? A: Paris").
Proof.
  apply (formatResponse_cards_bounded
           (js "Q: What is 2+2? A: 4" ++ LFs
            ++ js "Q: What is the capital of France? A: Paris")).
  vm_compute. reflexivity.
Defined.

End CardCount.

(** ** [generateFlashCardText] *)

Section GenerateTheory.

Import Flashcards Generate Samples.

Lemma falsy_false v : falsy v = false -> exists c s, v = Some (c :: s).
Proof. destruct v as [[|c s]|]; try discriminate. eauto. Qed.

(** X4: [generateFlashCardText] makes a request only when the page text,
    the instructions, the API key and the model are all there, and then
    exactly one, whose user message is the fragments joined by line feeds;
    in every other case it throws without any request. *)
Theorem generateFlashCardText_requests
  (apiKey : option jsstring) (create : chat_request -> outcome response)
  (pageTextArray : option (list jsstring)) (context model : option jsstring) :
  let ready :=
    match pageTextArray with Some (_ :: _) => true | _ => false end
    && negb (falsy context) && negb (falsy apiKey) && negb (falsy model) in
  let run := generateFlashCardText apiKey create pageTextArray context model in
  (ready = false -> fst run = [] /\ exists e, snd run = Throw e)
  /\ (ready = true ->
      exists texts request rest,
        pageTextArray = Some texts
        /\ fst run = ChatCreate request :: rest
        /\ (forall r, In (ChatCreate r) rest -> False)
        /\ request_model request = string_of model
        /\ system_content request = string_of context
        /\ user_content request = join [10%N] texts).
Proof.
  cbv zeta. unfold generateFlashCardText.
  destruct pageTextArray as [[|t ts]|]; cbn [andb].
  - split; [intros _; split; [reflexivity|eexists; reflexivity]|discriminate].
  - destruct (falsy context) eqn:Ec; cbn [negb andb].
    { split; [intros _; split; [reflexivity|eexists; reflexivity]|discriminate]. }
    destruct (falsy apiKey) eqn:Ek; cbn [negb andb].
    { split; [intros _; split; [reflexivity|eexists; reflexivity]|discriminate]. }
    destruct (falsy model) eqn:Em; cbn [negb andb].
    { split; [intros _; split; [reflexivity|eexists; reflexivity]|discriminate]. }
    split; [discriminate|intros _].
    unfold sendChatRequest.
    destruct (create _) as [response|e]; cbn [fst];
      eexists; eexists; eexists; (split; [reflexivity|]);
      (split; [reflexivity|]); (split; [|repeat split]).
    + intros r [].
    + intros r [H|[]]. discriminate.
  - split; [intros _; split; [reflexivity|eexists; reflexivity]|discriminate].
Qed.

Lemma generateFlashCardText_requests_witness :
  fst (generateFlashCardText (Some (js "sk-test")) (fun _ => Throws ExternalError)
         (Some []) (Some (js "Make cards")) (Some (js "gpt-4o-mini"))) = []
  /\ exists e,
       snd (generateFlashCardText (Some (js "sk-test"))
              (fun _ => Throws ExternalError)
              (Some []) (Some (js "Make cards")) (Some (js "gpt-4o-mini")))
       = Throw e.
Proof.
  apply (proj1 (generateFlashCardText_requests (Some (js "sk-test"))
                  (fun _ => Throws ExternalError)
                  (Some []) (Some (js "Make cards")) (Some (js "gpt-4o-mini")))).
  reflexivity.
Defined.

End GenerateTheory.

(** ** Fragments are in normal form *)

Section FragmentNormalForm.

Import DOM Scraper Spec Text Examples.

Lemma split_char_cons sep s : exists w ws, split_char sep s = w :: ws.
Proof.
  induction s as [|c s (w & ws & IH)]; simpl; [now exists [], []|].
  destruct (N.eqb c sep); [now eexists; eexists|].
  rewrite IH. now eexists; eexists.
Qed.

Lemma split_char_app sep a b :
  split_char sep (a ++ sep :: b)
  = match split_char sep a with
    | [] => split_char sep b
    | _ => removelast (split_char sep a)
           ++ (last (split_char sep a) [] ++ []) :: split_char sep b
    end.
Proof.
  induction a as [|c a IH].
  - simpl. rewrite N.eqb_refl. reflexivity.
  - cbn [app split_char]. destruct (N.eqb c sep) eqn:Ec.
    + rewrite IH. destruct (split_char_cons sep a) as (w & ws & E).
      rewrite E. reflexivity.
    + rewrite IH. destruct (split_char_cons sep a) as (w & ws & E).
      rewrite E. destruct ws; reflexivity.
Qed.

(** A piece without the separator is one piece. *)
Lemma split_char_none sep a :
  existsb (N.eqb sep) a = false -> split_char sep a = [a].
Proof.
  induction a as [|c a IH]; [reflexivity|].
  cbn [existsb split_char]. intros H. apply orb_false_iff in H.
  destruct H as [Hc Ha]. rewrite N.eqb_sym, Hc, (IH Ha). reflexivity.
Qed.

(** Splitting what was joined gives the pieces back when no piece holds
    the separator. *)
Lemma split_char_join sep l :
  l <> [] -> forallb (fun a => negb (existsb (N.eqb sep) a)) l = true ->
  split_char sep (join [sep] l) = l.
Proof.
  induction l as [|a l IH]; [congruence|intros _ H].
  cbn [forallb] in H. apply andb_true_iff in H. destruct H as [Ha Hl].
  apply negb_true_iff in Ha.
  destruct l as [|b l]; [now apply split_char_none|].
  change (join [sep] (a :: b :: l)) with (a ++ sep :: join [sep] (b :: l)).
  rewrite split_char_app, (split_char_none sep a Ha).
  cbn [removelast last app]. rewrite app_nil_r, IH by (discriminate || exact Hl).
  reflexivity.
Qed.

Lemma In_join c sep l :
  In c (join sep l) -> In c sep \/ exists w, In w l /\ In c w.
Proof.
  induction l as [|a l IH]; [intros []|].
  destruct l as [|b l].
  - intros H. right. exists a. simpl. auto.
  - change (join sep (a :: b :: l)) with (a ++ sep ++ join sep (b :: l)).
    rewrite !in_app_iff. intros [H|[H|H]].
    + right. exists a. simpl. auto.
    + now left.
    + destruct (IH H) as [H'|(w & Hw & Hc)]; [now left|].
      right. exists w. split; [now right|exact Hc].
Qed.

(** The only whitespace of a fragment is the space between two words. *)
Lemma fragment_text_spaces t c :
  In c (fragment_text t) -> is_space c = true -> c = 32%N.
Proof.
  unfold fragment_text. intros Hin Hsp.
  apply In_join in Hin. destruct Hin as [[<-|[]]|(w & Hw & Hc)]; [reflexivity|].
  destruct (words_characters t) as [_ Hall].
  rewrite Forall_forall in Hall. destruct (Hall w Hw) as [_ Hns].
  rewrite forallb_forall in Hns. apply Hns in Hc.
  rewrite Hsp in Hc. discriminate.
Qed.

Lemma words_join ws :
  Forall (fun w => w <> [] /\ forallb not_space w = true) ws ->
  words (join (js " ") ws) = ws.
Proof.
  induction ws as [|w ws IH]; [reflexivity|].
  intros H. inversion H as [|? ? [Hne Hns] Hrest]; subst.
  destruct (words_runs w Hne Hns) as [H1 H2].
  destruct ws as [|w2 ws]; [exact H1|].
  change (join (js " ") (w :: w2 :: ws))
    with (w ++ 32%N :: join (js " ") (w2 :: ws)).
  rewrite (H2 32%N _ eq_refl).
  change (words (32%N :: join (js " ") (w2 :: ws)))
    with (words (join (js " ") (w2 :: ws))).
  now rewrite (IH Hrest).
Qed.

(** Normalising a fragment again changes nothing. *)
Lemma fragment_text_idempotent t :
  fragment_text (fragment_text t) = fragment_text t.
Proof.
  unfold fragment_text at 1 3. f_equal. apply words_join.
  apply words_characters.
Qed.

(** X5: every fragment [scrapePage] returns is a fixed point of the
    normalisation of [scrapePage], and it holds no whitespace character
    other than U+0020: no line feed, no tab. *)
Theorem fragments_in_normal_form
  (html : Type) (axios_get : jsstring -> outcome html)
  (JSDOM : html -> outcome document)
  (url : jsvalue) (f : SelectorFilter) (out : list jsstring) :
  snd (scrapePage axios_get JSDOM url f) = Normal out ->
  forall frag, In frag out ->
    normalise frag = Normal frag
    /\ forall c, In c frag -> is_space c = true -> c = 32%N.
Proof.
  intros Hout frag Hin.
  assert (Hf : exists t, frag = fragment_text t).
  { unfold scrapePage in Hout. destruct (invalid_url url); [discriminate|].
    destruct (axios_get (url_string url)) as [data|e]; cbn [lift bind] in Hout;
      [|cbn [snd] in Hout; injection Hout as <-; contradiction].
    destruct (JSDOM data) as [d|e]; cbn [lift bind] in Hout;
      [|cbn [snd] in Hout; injection Hout as <-; contradiction].
    destruct (extract d f) as [o|e|] eqn:Ex; cbn [snd] in Hout;
      [|injection Hout as <-; contradiction|discriminate].
    injection Hout as <-.
    destruct (extract_fragments d f o Ex) as (els & _ & ->).
    apply In_fragments in Hin. destruct Hin as (_ & e & _ & ->). eauto. }
  destruct Hf as (t & ->). split.
  - rewrite normalise_fragment_text. f_equal. apply fragment_text_idempotent.
  - intros c. apply fragment_text_spaces.
Qed.

Lemma fragments_in_normal_form_witness :
  normalise (js "text") = Normal (js "text").
Proof.
  apply (proj1 (fragments_in_normal_form document (serve page_nested) parsed
                  address no_filter [js "text"; js "text"; js "text"; js "text"]
                  ltac:(vm_compute; reflexivity)
                  (js "text") ltac:(left; reflexivity))).
Defined.

End FragmentNormalForm.

(** ** Patterns of words *)

Section WordPatterns.

Import RegExp RegExpMore Spec.

Variable fl : flags.

(** A sequence of character classes matches its characters one by one. *)
Lemma compile_classes cls :
  forall s cap c,
    compile fl (seq (map RChar cls)) {| rest := s; captures := cap |} c
    = match strip_classes fl cls s with
      | Some s' => c {| rest := s'; captures := cap |}
      | None => failure
      end.
Proof.
  induction cls as [|cl cls IH]; intros s cap c; [reflexivity|].
  destruct cls as [|cl' cls].
  - cbn [map seq compile rest captures strip_classes].
    destruct s as [|ch s]; [reflexivity|].
    destruct (class_matches fl cl ch); reflexivity.
  - change (seq (map RChar (cl :: cl' :: cls)))
      with (RSeq (RChar cl) (seq (map RChar (cl' :: cls)))).
    cbn [compile rest captures]. cbn [strip_classes].
    destruct s as [|ch s]; [reflexivity|].
    destruct (class_matches fl cl ch); [|reflexivity].
    apply IH.
Qed.

Lemma match_at_classes cls s :
  match_at fl (seq (map RChar cls)) s
  = match strip_classes fl cls s with
    | Some s' => success {| rest := s'; captures := no_captures |}
    | None => failure
    end.
Proof. unfold match_at. apply compile_classes. Qed.

(** At an index, the pattern of the words matches when one of them is
    there. *)
Lemma match_at_words ws s :
  ws <> [] ->
  if word_at fl ws s
  then exists y, match_at fl (words_pattern ws) s = success y
  else match_at fl (words_pattern ws) s = failure.
Proof.
  unfold words_pattern, word_at.
  induction ws as [|cls ws IH]; [congruence|intros _].
  destruct ws as [|cls' ws].
  - cbn [map alt existsb]. rewrite match_at_classes, orb_false_r.
    destruct (strip_classes fl cls s); [eexists; reflexivity|reflexivity].
  - change (alt (map (fun cls0 => seq (map RChar cls0)) (cls :: cls' :: ws)))
      with (RAlt (seq (map RChar cls))
              (alt (map (fun cls0 => seq (map RChar cls0)) (cls' :: ws)))).
    unfold match_at in *. cbn [compile]. cbn [existsb].
    rewrite compile_classes.
    destruct (strip_classes fl cls s); cbn [orb]; [eexists; reflexivity|].
    apply IH. discriminate.
Qed.

(** The scan finds a match exactly when one of the words occurs. *)
Lemma scan_words ws s :
  ws <> [] ->
  if occurs fl ws s
  then exists from y, scan fl (words_pattern ws) s = Found from y
  else scan fl (words_pattern ws) s = NoMatch.
Proof.
  intros Hne. induction s as [|c s IH]; cbn [occurs scan].
  - pose proof (match_at_words ws [] Hne) as H.
    destruct (word_at fl ws []); cbn [orb].
    + destruct H as (y & ->). eauto.
    + now rewrite H.
  - pose proof (match_at_words ws (c :: s) Hne) as H.
    destruct (word_at fl ws (c :: s)); cbn [orb].
    + destruct H as (y & ->). eauto.
    + rewrite H. exact IH.
Qed.

End WordPatterns.

Section WordPatternMethods.

Import RegExp RegExpMore Spec.

(** [S.match(R)] is not null exactly when one of the words occurs. *)
Lemma match_found_words fl ws S :
  ws <> [] -> global fl = true ->
  match_found {| pattern := words_pattern ws; flag := fl; lastIndex := 0 |} S
  = Normal (occurs fl ws S).
Proof.
  intros Hne Hg. unfold match_found, test, exec.
  cbn [set_lastIndex pattern flag lastIndex]. rewrite Hg.
  cbn [Nat.ltb Nat.leb skipn].
  pose proof (scan_words fl ws S Hne) as H.
  destruct (occurs fl ws S).
  - destruct H as (from & y & ->). reflexivity.
  - rewrite H. reflexivity.
Qed.

(** A fresh global pattern of one character class: [test] tells whether a
    character of the class is in the string. *)
Lemma test_class fl cl S :
  global fl = true ->
  fst (test {| pattern := RChar cl; flag := fl; lastIndex := 0 |} S)
  = Normal (existsb (class_matches fl cl) S).
Proof.
  intros Hg.
  pose proof (match_found_words fl [[cl]] S ltac:(discriminate) Hg) as H.
  unfold match_found, set_lastIndex in H. cbn [pattern flag] in H.
  change (words_pattern [[cl]]) with (RChar cl) in H. rewrite H. f_equal.
  clear H. induction S as [|c S IH]; [reflexivity|].
  cbn [occurs existsb word_at strip_classes]. rewrite IH.
  destruct (class_matches fl cl c); reflexivity.
Qed.

End WordPatternMethods.

(** ** Replacing the characters of a class *)

Section ReplaceClass.

Import RegExp RegExpMore Spec.

Variable fl : flags.
Hypothesis fl_global : global fl = true.
Variable cl : charclass.
Variable replacement : jsstring.

Let R (i : nat) : RegExp.t :=
  {| pattern := RChar cl; flag := fl; lastIndex := i |}.

Let other (c : N) : bool := negb (class_matches fl cl c).

Let swap (c : N) : jsstring :=
  if class_matches fl cl c then replacement else [c].

Lemma scan_class s :
  scan fl (RChar cl) s
  = match dropWhile other s with
    | [] => NoMatch
    | c :: s' => Found (c :: s') {| rest := s'; captures := no_captures |}
    end.
Proof.
  induction s as [|c s IH]; [reflexivity|].
  cbn [scan dropWhile].
  assert (Ho : other c = negb (class_matches fl cl c)) by reflexivity.
  rewrite Ho. unfold match_at at 1. cbn [compile rest captures].
  destruct (class_matches fl cl c); cbn [negb]; [reflexivity|exact IH].
Qed.

Lemma exec_class pre t :
  exec (R (length pre)) (pre ++ t)
  = match dropWhile other t with
    | [] => (Null, R 0)
    | c :: s' =>
        (MatchArray (length (pre ++ t) - length (c :: s'))
           {| rest := s'; captures := no_captures |},
         R (length (pre ++ t) - length s'))
    end.
Proof.
  unfold exec, R, set_lastIndex. cbn [flag pattern lastIndex]. rewrite fl_global.
  replace (length (pre ++ t) <? length pre) with false
    by (symmetry; apply Nat.ltb_ge; rewrite length_app; lia).
  rewrite skipn_length_app, scan_class.
  destruct (dropWhile other t); reflexivity.
Qed.

Lemma flat_map_swap_none t :
  dropWhile other t = [] -> flat_map swap t = t.
Proof.
  induction t as [|c t IH]; [reflexivity|].
  cbn [dropWhile flat_map].
  assert (Ho : other c = negb (class_matches fl cl c)) by reflexivity.
  assert (Hs : swap c = if class_matches fl cl c then replacement else [c])
    by reflexivity.
  rewrite Ho, Hs.
  destruct (class_matches fl cl c); cbn [negb]; [discriminate|].
  intros H. now rewrite (IH H).
Qed.

Lemma flat_map_swap_split t c s' :
  dropWhile other t = c :: s' ->
  flat_map swap t = takeWhile other t ++ replacement ++ flat_map swap s'.
Proof.
  induction t as [|a t IH]; [discriminate|].
  cbn [dropWhile takeWhile flat_map].
  assert (Ho : other a = negb (class_matches fl cl a)) by reflexivity.
  assert (Hs : swap a = if class_matches fl cl a then replacement else [a])
    by reflexivity.
  rewrite Ho, Hs.
  destruct (class_matches fl cl a) eqn:Ea; cbn [negb].
  - intros H; injection H as -> ->. reflexivity.
  - intros H. now rewrite (IH H).
Qed.

Lemma replace_loop_class budget :
  forall pre t acc,
    length t + 1 < budget ->
    replace_loop budget (R (length pre)) (pre ++ t) replacement (length pre) acc
    = Normal (acc ++ flat_map swap t).
Proof.
  induction budget as [|budget IH]; intros pre t acc Hb; [lia|].
  cbn [replace_loop]. rewrite exec_class.
  destruct (dropWhile other t) as [|c s'] eqn:Ed.
  - now rewrite skipn_length_app, (flat_map_swap_none t Ed).
  - pose proof (takeWhile_dropWhile other t) as Ht. rewrite Ed in Ht.
    set (w := takeWhile other t) in *.
    assert (HS : pre ++ t = (pre ++ w ++ [c]) ++ s').
    { rewrite <- Ht. repeat rewrite <- app_assoc. reflexivity. }
    assert (Hlen : length t = length w + S (length s')).
    { rewrite <- Ht, length_app. reflexivity. }
    assert (He : length (pre ++ t) - length s' = length (pre ++ w ++ [c])).
    { rewrite HS, length_app. lia. }
    assert (Hi : length (pre ++ t) - length (c :: s') = length pre + length w).
    { rewrite length_app, Hlen. simpl. lia. }
    cbn [rest]. rewrite He, Hi.
    replace (Nat.eqb (length (pre ++ w ++ [c])) (length pre + length w))
      with false
      by (symmetry; apply Nat.eqb_neq; repeat rewrite length_app; simpl; lia).
    replace (length pre <=? length pre + length w) with true
      by (symmetry; apply Nat.leb_le; lia).
    assert (Hsub : substring (length pre) (length pre + length w) (pre ++ t) = w).
    { unfold substring. rewrite skipn_length_app.
      replace (length pre + length w - length pre) with (length w) by lia.
      rewrite <- Ht. apply firstn_length_app. }
    rewrite Hsub. rewrite HS at 1.
    change (set_lastIndex (R (length (pre ++ t) - length s')) 0) with (R 0).
    unfold R in IH |- *.
    rewrite IH by lia.
    rewrite (flat_map_swap_split t _ _ Ed). fold w.
    repeat rewrite <- app_assoc. reflexivity.
Qed.

(** Replacing with a global pattern of one character class swaps every
    character of the class for the replacement. *)
Lemma replace_class i S :
  replace (R i) S replacement = Normal (flat_map swap S).
Proof.
  unfold replace.
  change (set_lastIndex (R i) 0) with (R (length (@nil N))).
  apply (replace_loop_class (Datatypes.S (Datatypes.S (length S))) [] S []). lia.
Qed.

End ReplaceClass.


(** ** The log of the cards *)

Section LogFile.

Import RegExp RegExpMore Flashcards Text Utils.

Lemma escape_app a b : escape (a ++ b) = escape a ++ escape b.
Proof. unfold escape. apply flat_map_app. Qed.

Lemma escape_rev s : rev (escape s) = escape (rev s).
Proof.
  induction s as [|c s IH]; [reflexivity|].
  change (escape (c :: s)) with ((if N.eqb quote c then [quote; quote] else [c]) ++ escape s).
  rewrite rev_app_distr, IH. cbn [rev]. rewrite escape_app.
  f_equal. unfold escape. cbn [flat_map]. rewrite app_nil_r.
  destruct (N.eqb quote c); reflexivity.
Qed.

Lemma quote_not_space c : N.eqb quote c = true -> is_space c = false.
Proof. intros H. apply N.eqb_eq in H. subst c. reflexivity. Qed.

Lemma escape_dropWhile s :
  dropWhile is_space (escape s) = escape (dropWhile is_space s).
Proof.
  induction s as [|c s IH]; [reflexivity|].
  change (escape (c :: s)) with ((if N.eqb quote c then [quote; quote] else [c]) ++ escape s).
  cbn [dropWhile].
  destruct (N.eqb quote c) eqn:Hq.
  - rewrite (quote_not_space c Hq). cbn [app dropWhile].
    change (is_space quote) with false. cbv iota.
    change (escape (c :: s)) with ((if N.eqb quote c then [quote; quote] else [c]) ++ escape s).
    rewrite Hq. reflexivity.
  - cbn [app dropWhile]. destruct (is_space c); [exact IH|].
    change (escape (c :: s)) with ((if N.eqb quote c then [quote; quote] else [c]) ++ escape s).
    rewrite Hq. reflexivity.
Qed.

(** Trimming and doubling the quotes commute. *)
Lemma trim_escape s : trim (escape s) = escape (trim s).
Proof.
  unfold trim, trimEnd, trimStart.
  rewrite escape_dropWhile, escape_rev, escape_dropWhile, escape_rev.
  reflexivity.
Qed.

Lemma csv_text_value s : csv_text s = Normal (escape (trim s)).
Proof.
  unfold csv_text, quotes.
  rewrite (replace_class global_only eq_refl (CLit quote) [quote; quote] 0 s).
  cbn [bind]. f_equal. apply (trim_escape s).
Qed.

Lemma add_rows_value date cards acc :
  add_rows date cards acc
  = Normal (acc ++ concat (map (card_row date) cards)).
Proof.
  revert acc. induction cards as [|c cards IH]; intros acc.
  - cbn [add_rows map concat]. rewrite app_nil_r. reflexivity.
  - cbn [add_rows]. rewrite !csv_text_value. cbn [bind].
    rewrite IH. cbn [map concat]. rewrite <- app_assoc. reflexivity.
Qed.

(** X6.  [writeLogs] only ever appends to cards_generated.csv in the given
    directory: what the file held stays in front, a file that did not exist
    starts with the header line, then comes one row per card in order; every
    other file is as before, and when the write throws nothing changes.  The
    call itself never throws. *)
Theorem writeLogs_appends now path_join write_error fs directory cards :
  let filepath := path_join directory (js "cards_generated.csv") in
  let dateGenerated := hd [] (split_char 84 now) in
  let before := match fs filepath with Some old => old | None => header end in
  exists messages,
    writeLogs now path_join write_error fs directory cards
    = Normal (match write_error filepath with
              | Some _ => fs
              | None => put_file fs filepath
                          (before ++ concat (map (card_row dateGenerated) cards))
              end, messages).
Proof.
  intros filepath dateGenerated before. unfold writeLogs.
  fold filepath. fold dateGenerated. rewrite add_rows_value. cbn [bind].
  unfold existsSync, before.
  destruct (write_error filepath) as [e|]; [eexists; reflexivity|].
  destruct (fs filepath) as [old|]; cbn [negb app]; eexists; reflexivity.
Qed.

Lemma escape_plain s :
  existsb (N.eqb quote) s = false -> escape s = s.
Proof.
  induction s as [|c s IH]; [reflexivity|].
  cbn [existsb]. intros H. apply orb_false_iff in H. destruct H as [Hc Hs].
  unfold escape. cbn [flat_map]. rewrite Hc. cbn [app]. f_equal. exact (IH Hs).
Qed.

(** Reading a quoted field gives back the text whose quotes were doubled. *)
Lemma quoted_body_escape x c r :
  N.eqb c quote = false ->
  quoted_body (escape x ++ quote :: c :: r) = Some (x, c :: r).
Proof.
  intros Hc. induction x as [|a x IH].
  - cbn [escape flat_map app quoted_body]. rewrite N.eqb_refl, Hc. reflexivity.
  - change (escape (a :: x)) with ((if N.eqb quote a then [quote; quote] else [a]) ++ escape x).
    destruct (N.eqb quote a) eqn:Hq.
    + apply N.eqb_eq in Hq. subst a. cbn [app quoted_body].
      rewrite N.eqb_refl. rewrite IH. reflexivity.
    + cbn [app quoted_body]. rewrite N.eqb_sym, Hq, IH. reflexivity.
Qed.

Lemma quoted_field_escape x c r :
  N.eqb c quote = false ->
  quoted_field (quote :: escape x ++ quote :: c :: r) = Some (x, c :: r).
Proof.
  intros Hc. cbn [quoted_field]. rewrite N.eqb_refl.
  apply quoted_body_escape, Hc.
Qed.

Lemma read_row_card_row date c after :
  existsb (N.eqb quote) date = false ->
  read_row (card_row date c ++ after)
  = Some ((date, trim (front c), trim (back c)), after).
Proof.
  intros Hd. unfold card_row, csv_row, read_row.
  rewrite <- (escape_plain date Hd) at 1.
  repeat rewrite <- app_assoc. cbn [app].
  rewrite (quoted_field_escape date 44 _ eq_refl).
  cbn [expect]. rewrite N.eqb_refl.
  rewrite (quoted_field_escape (trim (front c)) 44 _ eq_refl).
  cbn [expect]. rewrite N.eqb_refl.
  rewrite (quoted_field_escape (trim (back c)) 10 _ eq_refl).
  cbn [expect]. rewrite N.eqb_refl. reflexivity.
Qed.

Lemma read_rows_card_rows date cards :
  existsb (N.eqb quote) date = false ->
  read_rows (length cards) (concat (map (card_row date) cards))
  = Some (map (fun c => (date, trim (front c), trim (back c))) cards).
Proof.
  intros Hd. induction cards as [|c cards IH]; [reflexivity|].
  cbn [length map concat].
  assert (Hrow := read_row_card_row date c (concat (map (card_row date) cards)) Hd).
  destruct (card_row date c ++ concat (map (card_row date) cards)) as [|a s] eqn:E.
  - unfold card_row, csv_row in E. discriminate E.
  - cbn [read_rows]. rewrite Hrow, IH. reflexivity.
Qed.

Lemma hd_split_char_plain p sep s :
  existsb p s = false -> existsb p (hd [] (split_char sep s)) = false.
Proof.
  induction s as [|c s IH]; [reflexivity|].
  cbn [existsb split_char]. intros H. apply orb_false_iff in H.
  destruct H as [Hc Hs]. destruct (N.eqb c sep); [reflexivity|].
  specialize (IH Hs). destruct (split_char sep s) as [|w ws].
  - cbn [hd existsb]. rewrite Hc. reflexivity.
  - cbn [hd existsb] in *. rewrite Hc. exact IH.
Qed.

(** X7.  The rows that [writeLogs] adds can be read back: when the write
    succeeds, a reader of comma-separated values (RFC 4180) finds in the text
    put behind the earlier content one row per card, holding the date and the
    card's front and back as they are but for the white space trimmed from
    their ends, whatever commas, line feeds and double quotes they contain. *)
Theorem writeLogs_round_trip now path_join write_error fs directory cards :
  let filepath := path_join directory (js "cards_generated.csv") in
  let dateGenerated := hd [] (split_char 84 now) in
  let before := match fs filepath with Some old => old | None => header end in
  existsb (N.eqb quote) now = false ->
  write_error filepath = None ->
  exists rows messages,
    writeLogs now path_join write_error fs directory cards
    = Normal (put_file fs filepath (before ++ rows), messages)
    /\ read_rows (length cards) rows
       = Some (map (fun c => (dateGenerated, trim (front c), trim (back c)))
                 cards).
Proof.
  intros filepath dateGenerated before Hnow Hw.
  exists (concat (map (card_row dateGenerated) cards)).
  unfold writeLogs. fold filepath. fold dateGenerated.
  rewrite add_rows_value. cbn [bind]. rewrite Hw.
  unfold existsSync, before.
  assert (Hd : existsb (N.eqb quote) dateGenerated = false)
    by (apply hd_split_char_plain, Hnow).
  destruct (fs filepath) as [old|]; cbn [negb app]; eexists; split;
    try reflexivity; apply read_rows_card_rows, Hd.
Qed.

Lemma writeLogs_round_trip_witness :
  exists rows messages,
    writeLogs (js "2026-11-03T09:30:00.000Z")
      (fun d f => d ++ js "/" ++ f) (fun _ => None) (fun _ => None)
      (js "logs")
      [{| front := js " Who said " ++ [quote] ++ js "hi, you" ++ [quote] ++ js "? ";
          back := js "Nobody" |}]
    = Normal (put_file (fun _ => None) (js "logs/cards_generated.csv")
                (header ++ rows), messages)
    /\ read_rows 1 rows
       = Some [(js "2026-11-03",
                js "Who said " ++ [quote] ++ js "hi, you" ++ [quote] ++ js "?",
                js "Nobody")].
Proof.
  exact (writeLogs_round_trip (js "2026-11-03T09:30:00.000Z")
           (fun d f => d ++ js "/" ++ f) (fun _ => None) (fun _ => None)
           (js "logs")
           [{| front := js " Who said " ++ [quote] ++ js "hi, you" ++ [quote] ++ js "? ";
               back := js "Nobody" |}]
           eq_refl eq_refl).
Defined.

End LogFile.


(** ** The models for chat *)

Section ModelNames.

Import RegExp RegExpMore Text Utils.

(** A word of the letters a-z and of digits. *)
Let plain (w : jsstring) : bool :=
  forallb (fun c => is_lower_letter c || is_digit c) w.

Lemma ci_class_lower fl c ch :
  is_lower_letter c || is_digit c = true ->
  class_matches fl (ci_class c) ch
  = N.eqb c (if ((65 <=? ch) && (ch <=? 90))%N then (ch + 32)%N else ch).
Proof.
  unfold ci_class, is_lower_letter, is_digit, class_matches. intros H.
  destruct (N.leb_spec 97 c), (N.leb_spec c 122), (N.leb_spec 48 c),
    (N.leb_spec c 57), (N.leb_spec 65 ch), (N.leb_spec ch 90);
    cbn [andb orb existsb] in *; try discriminate H;
    repeat match goal with
           | |- context [N.eqb ?a ?b] => destruct (N.eqb_spec a b)
           end; cbn [orb]; try reflexivity; lia.
Qed.

Lemma strip_classes_lower fl w :
  plain w = true ->
  forall s,
    match strip_classes fl (map ci_class w) s with
    | Some _ => true
    | None => false
    end
    = match strip_prefix w (DOM.to_lower s) with
      | Some _ => true
      | None => false
      end.
Proof.
  induction w as [|c w IH]; intros Hw s; [reflexivity|].
  unfold plain in Hw. cbn [forallb] in Hw. apply andb_true_iff in Hw.
  destruct Hw as [Hc Hw]. destruct s as [|ch s]; [reflexivity|].
  cbn [map strip_classes DOM.to_lower strip_prefix].
  rewrite (ci_class_lower fl c ch Hc).
  destruct (N.eqb c _); [|reflexivity]. apply (IH Hw s).
Qed.

Lemma includes_step w c s :
  includes w (c :: s)
  = match strip_prefix w (c :: s) with Some _ => true | None => false end
    || includes w s.
Proof.
  cbn [includes]. destruct (strip_prefix w (c :: s)); reflexivity.
Qed.

(** One of the words, written in any mix of cases, occurs in the string
    exactly when the string with its letters A-Z lowered includes one. *)
Lemma occurs_lower fl (ws : list string) s :
  forallb (fun w => plain (js w)) ws = true ->
  occurs fl (map (fun w => map ci_class (js w)) ws) s
  = existsb (fun w => includes (js w) (DOM.to_lower s)) ws.
Proof.
  intros Hws.
  assert (Hat : forall t,
             word_at fl (map (fun w => map ci_class (js w)) ws) t
             = existsb (fun w => match strip_prefix (js w) (DOM.to_lower t) with
                                 | Some _ => true
                                 | None => false
                                 end) ws).
  { intros t. unfold word_at. induction ws as [|w ws IH]; [reflexivity|].
    cbn [forallb] in Hws. apply andb_true_iff in Hws. destruct Hws as [Hw Hws].
    cbn [map existsb]. rewrite (strip_classes_lower fl (js w) Hw t).
    rewrite (IH Hws). reflexivity. }
  induction s as [|c s IH].
  - cbn [occurs]. rewrite Hat, orb_false_r. apply existsb_ext_eq.
    intros w. cbn [DOM.to_lower map includes].
    destruct (strip_prefix (js w) []); reflexivity.
  - cbn [occurs]. rewrite Hat, IH. rewrite <- existsb_orb.
    apply existsb_ext_eq. intros w.
    change (DOM.to_lower (c :: s))
      with ((if ((65 <=? c) && (c <=? 90))%N then (c + 32)%N else c)
              :: DOM.to_lower s).
    rewrite includes_step. reflexivity.
Qed.

Lemma match_found_ci (ws : list string) i id :
  ws <> [] ->
  forallb (fun w => plain (js w)) ws = true ->
  match_found {| pattern := alt (map ci_word ws); flag := global_only;
                 lastIndex := i |} id
  = Normal (existsb (mentions id) ws).
Proof.
  intros Hne Hws.
  assert (Hp : alt (map ci_word ws)
               = words_pattern (map (fun w => map ci_class (js w)) ws)).
  { unfold words_pattern, ci_word. rewrite map_map. f_equal.
    apply map_ext. intros w. rewrite map_map. reflexivity. }
  rewrite Hp. unfold match_found, set_lastIndex. cbn [pattern flag].
  pose proof (match_found_words global_only
                (map (fun w => map ci_class (js w)) ws) id) as H.
  unfold match_found, set_lastIndex in H. cbn [pattern flag] in H.
  rewrite H; [|destruct ws; [contradiction Hne; reflexivity|discriminate]
              |reflexivity].
  f_equal. apply (occurs_lower global_only ws id Hws).
Qed.

Lemma push_models_value data :
  forall ids, push_models data ids = Normal (ids ++ filter chat_model data).
Proof.
  induction data as [|id data IH]; intros ids.
  - cbn [push_models filter]. rewrite app_nil_r. reflexivity.
  - cbn [push_models filter]. unfold chat_names, other_names at 1.
    rewrite (match_found_ci ["gpt"; "o1"]%string 0 id ltac:(discriminate) eq_refl).
    cbn [bind]. unfold chat_model at 1.
    destruct (existsb (mentions id) ["gpt"; "o1"]%string).
    + rewrite (match_found_ci
                 ["audio"; "realtime"; "tts"; "embedding"; "dall"]%string 0 id
                 ltac:(discriminate) eq_refl).
      cbn [bind andb].
      destruct (existsb (mentions id)
                  ["audio"; "realtime"; "tts"; "embedding"; "dall"]%string);
        cbn [negb]; rewrite IH; [reflexivity|].
      rewrite <- app_assoc. reflexivity.
    + cbn [andb]. apply IH.
Qed.

(** X8.  [getModels] keeps, in the order of the service's list, exactly the
    ids in which gpt or o1 occurs and none of audio, realtime, tts, embedding
    and dall, in whatever mix of upper and lower case; a failure of the
    listing is thrown on. *)
Theorem getModels_keeps_chat_models models :
  getModels models
  = match models with
    | Returns data => Normal (filter chat_model data)
    | Throws e => Throw e
    end.
Proof.
  unfold getModels. destruct models as [data|e]; [|reflexivity].
  cbn [lift bind]. apply (push_models_value data []).
Qed.

End ModelNames.


(** ** Validation of paths and deck names *)

Section PathValidation.

Import RegExp RegExpMore Validation.

Lemma existsb_range c n :
  existsb (N.eqb c) (map N.of_nat (List.seq 0 n)) = (c <? N.of_nat n)%N.
Proof.
  induction n as [|n IH]; [now destruct c|].
  rewrite seq_S, map_app, existsb_app, IH. cbn [Nat.add map existsb].
  rewrite orb_false_r, Nat2N.inj_succ.
  destruct (N.ltb_spec c (N.of_nat n)), (N.eqb_spec c (N.of_nat n)),
    (N.ltb_spec c (N.succ (N.of_nat n))); cbn [orb]; try reflexivity; lia.
Qed.

Lemma existsb_swap_eqb c l :
  existsb (N.eqb c) l = existsb (fun a => N.eqb a c) l.
Proof. apply existsb_ext_eq. intros a. apply N.eqb_sym. Qed.

Lemma testPath_value dirpath os :
  testPath dirpath os
  = Normal (if existsb (forbidden os) dirpath then invalid_characters else valid).
Proof.
  unfold testPath.
  assert (H : fst (test match os with
                        | win32 => winInvalidChars
                        | _ => unixInvalidChars
                        end dirpath)
              = Normal (existsb (forbidden os) dirpath)).
  { destruct os; unfold winInvalidChars, unixInvalidChars;
      rewrite test_class by reflexivity; f_equal; apply existsb_ext_eq;
      intros c; cbn [class_matches forbidden].
    - rewrite existsb_app, existsb_range. change (N.of_nat 32) with 32%N.
      cbn [existsb].
      repeat match goal with
             | |- context [N.eqb c ?b] => destruct (N.eqb_spec c b)
             end; cbn [orb]; rewrite ?orb_true_r, ?orb_false_r;
        try reflexivity; destruct (c <? 32)%N; reflexivity.
    - cbn [existsb]. apply orb_false_r.
    - cbn [existsb]. apply orb_false_r.
    - cbn [existsb]. apply orb_false_r. }
  rewrite H. cbn [bind]. destruct (existsb (forbidden os) dirpath); reflexivity.
Qed.

(** X9.  On a supported platform [validateDirectory] accepts a path exactly
    when it holds no forbidden character and either is a directory that can
    be written to, or is reported as not found while its parent is a
    directory that can be written to. *)
Theorem validateDirectory_accepts os statSync accessSync dirname dirpath :
  os <> unsupported ->
  exists result,
    validateDirectory os statSync accessSync dirname dirpath = Normal result
    /\ validPath result
       = negb (existsb (forbidden os) dirpath)
         && (writable_directory statSync accessSync dirpath
             || not_found statSync accessSync dirpath
                && writable_directory statSync accessSync (dirname dirpath)).
Proof.
  intros Hos.
  assert (H : validateDirectory os statSync accessSync dirname dirpath
              = result <- testPath dirpath os ;;
                if negb (validPath result) then Normal result
                else
                  match statSync dirpath with
                  | Stats false =>
                      Normal {| validPath := false;
                                reason_of :=
                                  Some (Message (js "Path is not a directory")) |}
                  | Stats true =>
                      match accessSync dirpath with
                      | None => Normal valid
                      | Some err => Normal (on_error statSync accessSync dirname dirpath err)
                      end
                  | StatThrows err =>
                      Normal (on_error statSync accessSync dirname dirpath err)
                  end)
    by (destruct os; [reflexivity..|congruence]).
  rewrite H, testPath_value. cbn [bind].
  destruct (existsb (forbidden os) dirpath); cbn [validPath invalid_characters valid negb andb];
    [eexists; split; reflexivity|].
  unfold writable_directory at 1, not_found, on_error, check_parent.
  destruct (statSync dirpath) as [[|]|[|]].
  - eexists; split; [reflexivity|]. cbn [orb andb].
    unfold writable_directory.
    destruct (statSync (dirname dirpath)) as [e|[|]]; try reflexivity.
    destruct (accessSync (dirname dirpath)); reflexivity.
  - eexists; split; reflexivity.
  - destruct (accessSync dirpath) as [[|]|].
    + eexists; split; [reflexivity|]. cbn [orb andb].
      unfold writable_directory.
      destruct (statSync (dirname dirpath)) as [e|[|]]; try reflexivity.
      destruct (accessSync (dirname dirpath)); reflexivity.
    + eexists; split; reflexivity.
    + eexists; split; reflexivity.
  - eexists; split; reflexivity.
Qed.

Lemma validateDirectory_accepts_witness :
  exists result,
    validateDirectory linux
      (fun p => if jsstring_eqb p (js "/home/me") then Stats true
                else StatThrows ENOENT)
      (fun _ => None) (fun _ => js "/home/me") (js "/home/me/logs")
    = Normal result
    /\ validPath result = true.
Proof.
  exact (validateDirectory_accepts linux
           (fun p => if jsstring_eqb p (js "/home/me") then Stats true
                     else StatThrows ENOENT)
           (fun _ => None) (fun _ => js "/home/me") (js "/home/me/logs")
           ltac:(discriminate)).
Defined.

(** X10.  On Windows [validateDirectory] refuses every path that holds a
    colon, a backslash or a slash, so every path with a drive letter and
    every path of more than one component, whatever the file system holds. *)
Theorem validateDirectory_win32_separators statSync accessSync dirname dirpath :
  In 58%N dirpath \/ In 92%N dirpath \/ In 47%N dirpath ->
  validateDirectory win32 statSync accessSync dirname dirpath
  = Normal invalid_characters.
Proof.
  intros H. unfold validateDirectory. rewrite testPath_value.
  assert (Hf : existsb (forbidden win32) dirpath = true).
  { apply existsb_exists. destruct H as [H|[H|H]]; eexists; (split; [exact H|reflexivity]). }
  rewrite Hf. reflexivity.
Qed.

Lemma validateDirectory_win32_separators_witness :
  validateDirectory win32 (fun _ => Stats true) (fun _ => None)
    (fun p => p) (js "C:\Users\me\logs")
  = Normal invalid_characters.
Proof.
  apply (validateDirectory_win32_separators (fun _ => Stats true)
           (fun _ => None) (fun p => p) (js "C:\Users\me\logs")).
  left. vm_compute. tauto.
Defined.

End PathValidation.

Section DeckNames.

Import Validation.

Lemma digits_are_digits d : forallb is_digit (digits d) = true.
Proof. induction d; cbn [digits forallb]; try reflexivity; exact IHd. Qed.

Lemma index_keys_are_digits name (l : list nat) :
  forallb is_digit name = false ->
  existsb (jsstring_eqb name) (map index_key l) = false.
Proof.
  intros Hn. induction l as [|i l IH]; [reflexivity|].
  cbn [map existsb]. rewrite IH, orb_false_r.
  destruct (jsstring_eqb name (index_key i)) eqn:E; [|reflexivity].
  apply jsstring_eqb_eq in E. subst name.
  unfold index_key in Hn. rewrite digits_are_digits in Hn. discriminate Hn.
Qed.

(** X11.  The check of [createDeckPrompt] accepts every name that is not
    blank and not a number, whatever decks exist, the name of an existing
    deck included: the deck list does not reach [validateNewDeckName],
    whose second parameter receives the address of Anki. *)
Theorem createDeckPrompt_accepts_existing_names ankiUrl decks input :
  truthy (trim input) = true ->
  forallb is_digit (trim input) = false ->
  createDeckPrompt_validate ankiUrl decks input = Fulfilled Accepted.
Proof.
  intros Ht Hd. unfold createDeckPrompt_validate, validateNewDeckName.
  rewrite Ht. cbn [negb object_keys].
  rewrite (index_keys_are_digits (trim input) _ Hd). reflexivity.
Qed.

Lemma createDeckPrompt_accepts_existing_names_witness :
  createDeckPrompt_validate (js "http://localhost:8765")
    (ObjectValue [js "Default"; js "French"]) (js "French")
  = Fulfilled Accepted
  /\ validateNewDeckName (js "French") (ObjectValue [js "Default"; js "French"])
     = Fulfilled {| validDeckName := false;
                    message_of := Some (js "Deck name already exists") |}.
Proof.
  split; [|reflexivity].
  apply (createDeckPrompt_accepts_existing_names (js "http://localhost:8765")
           (ObjectValue [js "Default"; js "French"]) (js "French"));
    reflexivity.
Defined.

End DeckNames.


(** ** Adding the cards to Anki *)

Section AddingCards.

Import Flashcards Text Anki.

Variable post : jsstring -> note -> outcome (option jsstring).
Variable confirm : nat -> bool.
Variable enter_tags : nat -> jsstring.

Lemma card_eta (c : card) : {| front := front c; back := back c |} = c.
Proof. destruct c; reflexivity. Qed.

Lemma posted_app a b : posted (a ++ b) = posted a ++ posted b.
Proof. unfold posted. apply flat_map_app. Qed.

Lemma posted_addFlashcardToAnki ankiUrl deck front back t :
  posted (addFlashcardToAnki post ankiUrl deck front back t)
  = [{| deckName := deck; Front := front; Back := back; tags := t |}].
Proof.
  unfold addFlashcardToAnki, posted. cbn [flat_map]. f_equal.
  destruct (post ankiUrl _) as [[[|c e]|]|e]; reflexivity.
Qed.

Lemma addCardsSameTags_loop_value ankiUrl deck tgs cards :
  forall i events added,
    snd (addCardsSameTags_loop post confirm i ankiUrl cards deck tgs events added)
    = added ++ map snd (confirmed confirm i cards)
    /\ posted (fst (addCardsSameTags_loop post confirm i ankiUrl cards deck tgs
                      events added))
       = posted events
         ++ map (fun p => {| deckName := deck; Front := front (snd p);
                             Back := back (snd p); tags := TagArray tgs |})
              (confirmed confirm i cards).
Proof.
  induction cards as [|c cards IH]; intros i events added.
  - cbn [addCardsSameTags_loop confirmed map fst snd]. now rewrite !app_nil_r.
  - cbn [addCardsSameTags_loop confirmed reviewFlashcard].
    destruct (confirm i).
    + destruct (IH (S i)
                  (events ++ [Preview (front c) (back c)]
                     ++ addFlashcardToAnki post ankiUrl deck (front c) (back c)
                          (TagArray tgs))
                  (added ++ [{| front := front c; back := back c |}]))
        as [Hs Hp].
      rewrite Hs, Hp. rewrite card_eta, !posted_app, posted_addFlashcardToAnki.
      cbn [map snd]. rewrite <- !app_assoc. split; reflexivity.
    + destruct (IH (S i) (events ++ [Preview (front c) (back c)]) added)
        as [Hs Hp].
      rewrite Hs, Hp. rewrite posted_app. cbn [posted flat_map app].
      rewrite app_nil_r. split; reflexivity.
Qed.

Lemma addCardsDifferentTags_loop_value ankiUrl deck cards :
  forall i events added,
    snd (addCardsDifferentTags_loop post confirm enter_tags i ankiUrl cards deck
           events added)
    = added ++ map snd (confirmed confirm i cards)
    /\ posted (fst (addCardsDifferentTags_loop post confirm enter_tags i ankiUrl
                      cards deck events added))
       = posted events
         ++ map (fun p => {| deckName := deck; Front := front (snd p);
                             Back := back (snd p);
                             tags := card_tags (enter_tags (fst p)) |})
              (confirmed confirm i cards).
Proof.
  induction cards as [|c cards IH]; intros i events added.
  - cbn [addCardsDifferentTags_loop confirmed map fst snd]. now rewrite !app_nil_r.
  - cbn [addCardsDifferentTags_loop confirmed reviewFlashcard].
    destruct (confirm i).
    + destruct (IH (S i)
                  (events ++ [Preview (front c) (back c)]
                     ++ addFlashcardToAnki post ankiUrl deck (front c) (back c)
                          (card_tags (enter_tags i)))
                  (added ++ [{| front := front c; back := back c |}]))
        as [Hs Hp].
      rewrite Hs, Hp. rewrite card_eta, !posted_app, posted_addFlashcardToAnki.
      cbn [map fst snd]. rewrite <- !app_assoc. split; reflexivity.
    + destruct (IH (S i) (events ++ [Preview (front c) (back c)]) added)
        as [Hs Hp].
      rewrite Hs, Hp. rewrite posted_app. cbn [posted flat_map app].
      rewrite app_nil_r. split; reflexivity.
Qed.



(** X12.  [addCardsSameTags] and [addCardsDifferentTags] return the cards
    the user confirmed, in order, and post exactly one note for each of
    them, with the card's two texts, the deck and the tags; the returned
    list does not depend on what Anki answers, so it holds also the cards
    whose note was refused or never arrived. *)
Theorem addCards_return_confirmed ankiUrl cards deck tgs :
  let same := addCardsSameTags post confirm ankiUrl cards deck tgs in
  let different :=
    addCardsDifferentTags post confirm enter_tags ankiUrl cards deck in
  snd same = map snd (confirmed confirm 0 cards)
  /\ posted (fst same)
     = map (fun p => {| deckName := deck; Front := front (snd p);
                        Back := back (snd p); tags := TagArray tgs |})
         (confirmed confirm 0 cards)
  /\ snd different = map snd (confirmed confirm 0 cards)
  /\ posted (fst different)
     = map (fun p => {| deckName := deck; Front := front (snd p);
                        Back := back (snd p);
                        tags := card_tags (enter_tags (fst p)) |})
         (confirmed confirm 0 cards).
Proof.
  cbv zeta. unfold addCardsSameTags, addCardsDifferentTags.
  destruct (addCardsSameTags_loop_value ankiUrl deck tgs cards 0 [] [])
    as [Hs Hp].
  destruct (addCardsDifferentTags_loop_value ankiUrl deck cards 0 [] [])
    as [Hs' Hp'].
  repeat split; assumption.
Qed.

End AddingCards.

Section Tags.

Import Text Anki.

Lemma join_comma_space a l :
  join [44; 32]%N (a :: l) = join [44%N] (a :: map (cons 32%N) l).
Proof.
  revert a. induction l as [|b l IH]; intros a; [reflexivity|].
  change (join [44; 32]%N (a :: b :: l))
    with (a ++ [44%N] ++ 32%N :: join [44; 32]%N (b :: l)).
  rewrite <- join_cons_head, IH. reflexivity.
Qed.

Lemma trim_after_space t : trim (32%N :: t) = trim t.
Proof. reflexivity. Qed.

Lemma clean_tag_parts t :
  clean_tag t = true -> existsb (N.eqb 44) t = false /\ trim t = t.
Proof.
  unfold clean_tag. intros H. apply andb_true_iff in H. destruct H as [Hc Ht].
  apply negb_true_iff in Hc. apply jsstring_eqb_eq in Ht. auto.
Qed.

Lemma map_trim_clean ts :
  forallb clean_tag ts = true -> map trim ts = ts.
Proof.
  induction ts as [|t ts IH]; [reflexivity|].
  cbn [forallb map]. intros H. apply andb_true_iff in H. destruct H as [Ht Hts].
  rewrite (proj2 (clean_tag_parts t Ht)), (IH Hts). reflexivity.
Qed.

Lemma no_comma_clean ts :
  forallb clean_tag ts = true ->
  forallb (fun a => negb (existsb (N.eqb 44) a)) ts = true.
Proof.
  induction ts as [|t ts IH]; [reflexivity|].
  cbn [forallb]. intros H. apply andb_true_iff in H. destruct H as [Ht Hts].
  rewrite (proj1 (clean_tag_parts t Ht)), (IH Hts). reflexivity.
Qed.

(** X13.  A line of tags is read back as it was meant: tags that hold no
    comma and no white space at their ends, written with a comma or with a
    comma and a space between them, arrive as exactly these tags, in
    order. *)
Theorem split_tags_round_trip ts :
  ts <> [] -> forallb clean_tag ts = true ->
  split_tags (join [44%N] ts) = ts
  /\ split_tags (join [44; 32]%N ts) = ts.
Proof.
  intros Hne Hc. unfold split_tags. split.
  - rewrite (split_char_join 44 ts Hne (no_comma_clean ts Hc)).
    apply map_trim_clean, Hc.
  - destruct ts as [|a l]; [congruence|].
    rewrite join_comma_space.
    cbn [forallb] in Hc. apply andb_true_iff in Hc. destruct Hc as [Ha Hl].
    rewrite split_char_join.
    + cbn [map]. rewrite (proj2 (clean_tag_parts a Ha)). f_equal.
      rewrite map_map.
      rewrite (map_ext (fun t => trim (32%N :: t)) trim trim_after_space).
      apply map_trim_clean, Hl.
    + discriminate.
    + cbn [forallb]. rewrite (proj1 (clean_tag_parts a Ha)). cbn [negb andb].
      clear Ha Hne. induction l as [|b l IH]; [reflexivity|].
      cbn [forallb map] in *. apply andb_true_iff in Hl. destruct Hl as [Hb Hl].
      cbn [existsb]. rewrite (proj1 (clean_tag_parts b Hb)).
      change (N.eqb 44 32) with false. cbn [orb negb andb].
      apply (IH Hl).
Qed.

Lemma split_tags_round_trip_witness :
  split_tags (js "french,verbs") = [js "french"; js "verbs"]
  /\ split_tags (js "french, verbs") = [js "french"; js "verbs"].
Proof.
  exact (split_tags_round_trip [js "french"; js "verbs"]
           ltac:(discriminate) eq_refl).
Defined.

End Tags.


(** ** From the page to the log *)

Section MainHandler.

Import Flashcards DOM Scraper Spec Examples Text Utils Generate Main.

Variable html : Type.
Variable axios_get : jsstring -> outcome html.
Variable JSDOM : html -> outcome document.
Variable apiKey : option jsstring.
Variable create : chat_request -> outcome response.
Variable post : jsstring -> Anki.note -> outcome (option jsstring).
Variable confirm : nat -> bool.
Variable enter_tags : nat -> jsstring.
Variable now : jsstring.
Variable path_join : jsstring -> jsstring -> jsstring.
Variable write_error : jsstring -> option error.

(** Every text that [scrapePage] returns is the fragment text of some
    text. *)
Lemma scrapePage_fragment_texts url f out frag :
  snd (scrapePage axios_get JSDOM url f) = Normal out ->
  In frag out -> exists t, frag = fragment_text t.
Proof.
  intros Hout Hin.
  unfold scrapePage in Hout. destruct (invalid_url url); [discriminate|].
  destruct (axios_get (url_string url)) as [data|e]; cbn [lift bind] in Hout;
    [|cbn [snd] in Hout; injection Hout as <-; contradiction].
  destruct (JSDOM data) as [d|e]; cbn [lift bind] in Hout;
    [|cbn [snd] in Hout; injection Hout as <-; contradiction].
  destruct (extract d f) as [o|e|] eqn:Ex; cbn [snd] in Hout;
    [|injection Hout as <-; contradiction|discriminate].
  injection Hout as <-.
  destruct (extract_fragments d f o Ex) as (els & _ & ->).
  apply In_fragments in Hin. destruct Hin as (_ & e & _ & ->). eauto.
Qed.

Lemma scrapePage_no_line_feed url f out :
  snd (scrapePage axios_get JSDOM url f) = Normal out ->
  forallb (fun a => negb (existsb (N.eqb 10) a)) out = true.
Proof.
  intros Hout. apply forallb_forall. intros frag Hin.
  destruct (scrapePage_fragment_texts url f out frag Hout Hin) as (t & ->).
  apply negb_true_iff. destruct (existsb (N.eqb 10) (fragment_text t)) eqn:E;
    [|reflexivity].
  apply existsb_exists in E. destruct E as (c & Hc & Heq).
  apply N.eqb_eq in Heq. subst c.
  pose proof (fragment_text_spaces t 10%N Hc eq_refl) as H. discriminate H.
Qed.

(** X14.  The text sent to the model holds the fragments of the page one
    per line: splitting the user message of the chat request at its line
    feeds gives back the list that [scrapePage] returned. *)
Theorem chat_request_lines url f texts ctx mdl request :
  snd (scrapePage axios_get JSDOM url f) = Normal texts ->
  texts <> [] ->
  In (ChatCreate request) (fst (sendChatRequest create texts ctx mdl)) ->
  split_char 10 (user_content request) = texts.
Proof.
  intros Hout Hne Hin.
  assert (Hr : user_content request = join [10%N] texts).
  { unfold sendChatRequest in Hin.
    destruct (create _) as [r|e]; cbn [fst In] in Hin.
    - destruct Hin as [E|[]]. injection E as <-. reflexivity.
    - destruct Hin as [E|[E|[]]]; [|discriminate E].
      injection E as <-. reflexivity. }
  rewrite Hr. apply split_char_join; [exact Hne|].
  apply (scrapePage_no_line_feed url f texts Hout).
Qed.



End MainHandler.


Section MainHandlerRuns.

Import Flashcards DOM Scraper Spec Examples Text Utils Generate Main.

Lemma chat_request_lines_witness :
  split_char 10
    (user_content
       {| request_model := js "gpt-4o"; system_content := js "Make cards";
          user_content := join [10%N] [js "text"; js "text"; js "text"; js "text"] |})
  = [js "text"; js "text"; js "text"; js "text"].
Proof.
  apply (chat_request_lines document (serve page_nested) parsed
           (fun _ => Returns (reply (js "Q: a A: b")))
           address no_filter [js "text"; js "text"; js "text"; js "text"]
           (js "Make cards") (js "gpt-4o")).
  - vm_compute. reflexivity.
  - discriminate.
  - left. reflexivity.
Defined.



End MainHandlerRuns.


(** ** The exclusion lists as sets *)

Section ExclusionSets.

Import DOM Scraper Spec Rules Examples Samples Settings.

Lemma extract_rules d f :
  valid_exclusions f = true -> forallb is_ident (includeElements f) = true ->
  caught (extract d f)
  = fragments (filter (fun e => included f e && negb (excluded f e))
                 (all_elements d)).
Proof.
  intros Hv Hi.
  destruct (valid_exclusions_tags f Hv) as (Hti & Hne & Hp).
  unfold extract. rewrite (select_elements_included d f Hi). cbn [bind].
  rewrite (exclusion_branch f _ Hp), Hti, Hne. cbn [caught].
  rewrite filter_filter. f_equal. apply filter_ext. intros e.
  now rewrite (excluded_by_selectors_of f e Hv).
Qed.

Lemma existsb_incl_le {A : Type} (p : A -> bool) l1 l2 :
  incl l1 l2 -> existsb p l1 = true -> existsb p l2 = true.
Proof.
  intros Hi H. apply existsb_exists in H. destruct H as (x & Hx & Hp).
  apply existsb_exists. exists x. auto.
Qed.

Lemma excluded_incl f f' e :
  incl (excludeElements f) (excludeElements f') ->
  incl (excludeIDs f) (excludeIDs f') ->
  incl (excludeClasses f) (excludeClasses f') ->
  excluded f e = true -> excluded f' e = true.
Proof.
  intros Ht Hi Hc. unfold excluded. intros H.
  apply existsb_exists in H. destruct H as (n & Hn & Hr).
  apply existsb_exists. exists n. split; [exact Hn|].
  unfold rule_matches in *.
  apply orb_true_iff in Hr. destruct Hr as [Hr|Hr].
  - apply orb_true_iff in Hr. destruct Hr as [Hr|Hr].
    + rewrite (existsb_incl_le _ _ _ Ht Hr). reflexivity.
    + rewrite (existsb_incl_le _ _ _ Hi Hr). now rewrite orb_true_r.
  - rewrite (existsb_incl_le _ _ _ Hc Hr). now rewrite orb_true_r.
Qed.

Lemma extract_incl d f f' :
  valid_exclusions f = true -> valid_exclusions f' = true ->
  forallb is_ident (includeElements f) = true ->
  includeElements f' = includeElements f ->
  incl (excludeElements f) (excludeElements f') ->
  incl (excludeIDs f) (excludeIDs f') ->
  incl (excludeClasses f) (excludeClasses f') ->
  subsequence (caught (extract d f')) (caught (extract d f)).
Proof.
  intros Hv Hv' Hin Hsame Ht Hi Hc.
  rewrite (extract_rules d f Hv Hin).
  rewrite (extract_rules d f' Hv') by (rewrite Hsame; exact Hin).
  apply subsequence_fragments, subsequence_filter_imp. intros e H.
  apply andb_true_iff in H. destruct H as [H1 H2].
  apply andb_true_iff. split.
  - unfold included in *. rewrite <- Hsame. exact H1.
  - apply negb_true_iff in H2. apply negb_true_iff.
    destruct (excluded f e) eqn:E; [|reflexivity].
    rewrite (excluded_incl f f' e Ht Hi Hc E) in H2. discriminate H2.
Qed.

(** X17.  For well-formed names the output depends on the exclusion lists
    as sets and falls when they grow: if every entry of each exclusion list
    of one filter is in the same list of another, the include list being the
    same, the output for the other is a subsequence of the output for the
    one, whatever the order and the repetitions of the entries. *)
Theorem scrapePage_exclusion_sets
  (html : Type) (axios_get : jsstring -> outcome html)
  (JSDOM : html -> outcome document)
  (s : jsstring) (f f' : SelectorFilter) :
  s <> [] ->
  valid_exclusions f = true -> valid_exclusions f' = true ->
  forallb is_ident (includeElements f) = true ->
  includeElements f' = includeElements f ->
  incl (excludeElements f) (excludeElements f') ->
  incl (excludeIDs f) (excludeIDs f') ->
  incl (excludeClasses f) (excludeClasses f') ->
  exists out out',
    snd (scrapePage axios_get JSDOM (JString s) f) = Normal out
    /\ snd (scrapePage axios_get JSDOM (JString s) f') = Normal out'
    /\ subsequence out' out.
Proof.
  intros Hs Hv Hv' Hin Hsame Ht Hi Hc. rewrite !scrapePage_value by exact Hs.
  do 2 eexists. split; [reflexivity|split; [reflexivity|]].
  destruct (axios_get s) as [data|e]; [|constructor].
  destruct (JSDOM data) as [d|e]; [|constructor].
  apply extract_incl; assumption.
Qed.

Lemma scrapePage_exclusion_sets_witness :
  exists out out',
    snd (scrapePage (serve page_with_advert) parsed address
           {| excludeElements := [js "script"]; excludeIDs := [];
              excludeClasses := []; includeElements := [] |}) = Normal out
    /\ snd (scrapePage (serve page_with_advert) parsed address
              {| excludeElements := [js "p"; js "script"; js "p"];
                 excludeIDs := [js "ad"]; excludeClasses := [];
                 includeElements := [] |}) = Normal out'
    /\ subsequence out' out.
Proof.
  apply (scrapePage_exclusion_sets document (serve page_with_advert) parsed
           (js "https://example.org/")
           {| excludeElements := [js "script"]; excludeIDs := [];
              excludeClasses := []; includeElements := [] |}
           {| excludeElements := [js "p"; js "script"; js "p"];
              excludeIDs := [js "ad"]; excludeClasses := [];
              includeElements := [] |});
    try reflexivity; try discriminate.
  - intros x Hx. cbn [excludeElements In] in *. tauto.
  - intros x [].
  - intros x [].
Defined.

(** *** The editor of the lists *)





Lemma filter_absent item l :
  ~ In item l -> filter (fun x => negb (jsstring_eqb x item)) l = l.
Proof.
  induction l as [|a l IH]; [reflexivity|]. intros Hn.
  cbn [filter]. destruct (jsstring_eqb a item) eqn:E.
  - apply jsstring_eqb_eq in E. subst a. exfalso. apply Hn. left. reflexivity.
  - cbn [negb]. f_equal. apply IH. intros H. apply Hn. right. exact H.
Qed.

(** X19.  "Remove Item" deletes every copy of the chosen item, so adding
    an item and removing it again gives back the list exactly when the item
    was not in it before. *)
Theorem editListSettings_add_then_remove f k item :
  editListSettings [AddItem item; RemoveItem item; Done] f k = Some f
  <-> ~ In item (get f k).
Proof.
  cbn [editListSettings].
  assert (Hget : forall l, get (set f k l) k = l) by (intros l; destruct k; reflexivity).
  assert (Hset : forall l, set (set f k l) k = set f k) by (intros l; destruct k; reflexivity).
  rewrite Hget, Hset, filter_app. cbn [filter].
  rewrite jsstring_eqb_refl. cbn [negb]. rewrite app_nil_r.
  assert (Hid : set f k (get f k) = f) by (destruct k, f; reflexivity).
  split.
  - intros E. injection E as E. apply (f_equal (fun g => get g k)) in E.
    rewrite Hget in E. intros Hin.
    assert (Hnot : ~ In item (filter (fun x => negb (jsstring_eqb x item)) (get f k))).
    { intros H. apply filter_In in H. destruct H as [_ H].
      rewrite jsstring_eqb_refl in H. discriminate H. }
    rewrite E in Hnot. contradiction.
  - intros Hn.
    rewrite (filter_absent item (get f k) Hn), Hid. reflexivity.
Qed.

End ExclusionSets.
